(** * The dependency-report parser of [github_actions_dependencies.py]

    A shallow embedding of [GitHubActionsDependencyParser.parse_dependency_section],
    [_clean_line] and [_parse_dependencies], together with the fragment of
    Python's [re] and [str] that these three methods use.

    Text is a list of characters; a character is a code point below 256
    (Rocq's [ascii]), and the character predicates below follow Python's
    [str] methods and [re] classes on that range.  The dictionaries the
    methods build and return are finite maps with string keys. *)

From Stdlib Require Import Ascii String List Arith Lia Bool.
From stdpp Require Import base list gmap strings.
Import ListNotations.

Local Open Scope list_scope.
Local Open Scope nat_scope.

(** ** Characters and text *)

Abbreviation str := (list ascii).

Definition txt (s : string) : str := list_ascii_of_string s.

Definition code (a : ascii) : nat := nat_of_ascii a.

Definition ESC : ascii := ascii_of_nat 27.
Definition NL : ascii := ascii_of_nat 10.

Definition chr_eqb (a b : ascii) : bool := Ascii.eqb a b.

(** [str.isspace] on one character, which is also what [\s] matches:
    TAB..CR, FS..US, space, NEL and the no-break space. *)
Definition isspace (a : ascii) : bool :=
  let n := code a in
  ((9 <=? n) && (n <=? 13)) || ((28 <=? n) && (n <=? 32))
  || (n =? 133) || (n =? 160).

(** [\d]: the decimal digits; below 256 these are 0-9 only. *)
Definition isdigit (a : ascii) : bool :=
  let n := code a in (48 <=? n) && (n <=? 57).

(** [str.lower] on one character: A-Z and the upper-case letters of the
    Latin-1 supplement (all of 192..222 but the multiplication sign) move
    up by 32. *)
Definition lower_chr (a : ascii) : ascii :=
  let n := code a in
  if ((65 <=? n) && (n <=? 90))
     || ((192 <=? n) && (n <=? 222) && negb (n =? 215))
  then ascii_of_nat (n + 32) else a.

Definition lower (s : str) : str := map lower_chr s.

(** [str.strip()] with no argument. *)
Fixpoint lstrip (s : str) : str :=
  match s with
  | [] => []
  | a :: s' => if isspace a then lstrip s' else s
  end.

Fixpoint rstrip (s : str) : str :=
  match s with
  | [] => []
  | a :: s' =>
      match rstrip s' with
      | [] => if isspace a then [] else [a]
      | r => a :: r
      end
  end.

Definition strip (s : str) : str := rstrip (lstrip s).

(** [t.startswith(s)] and [needle in hay]. *)
Fixpoint starts_with (l s : str) : bool :=
  match l, s with
  | [], _ => true
  | a :: l', b :: s' => chr_eqb a b && starts_with l' s'
  | _ :: _, [] => false
  end.

Fixpoint contains (needle hay : str) : bool :=
  starts_with needle hay
  || match hay with
     | [] => false
     | _ :: hay' => contains needle hay'
     end.

(** [s.split('\n')]: always at least one piece. *)
Fixpoint split_nl (s : str) : list str :=
  match s with
  | [] => [[]]
  | a :: s' =>
      if chr_eqb a NL then [] :: split_nl s'
      else match split_nl s' with
           | [] => [[a]]
           | l :: ls => (a :: l) :: ls
           end
  end.

(** ** The regular expressions of the module

    Every pattern in the source is a sequence of literal characters,
    character classes under a greedy repetition, capturing groups around
    one such repetition, and the anchors [^] and [$].  [Rep cap c lo hi]
    is the class [c] repeated [lo] to [hi] times (no upper bound for
    [None]), inside a capturing group when [cap] is set. *)

Inductive cls : Type :=
| Digit
| Space
| NonSpace
| Chr (a : ascii)
| NotChr (a : ascii)
| OneOf (rs : list (ascii * ascii)).

Inductive atom : Type :=
| Rep (cap : bool) (c : cls) (lo : nat) (hi : option nat)
| Lit (l : str)
| Bol
| Eol.

Abbreviation regex := (list atom).

Definition in_range (a : ascii) (r : ascii * ascii) : bool :=
  (code (fst r) <=? code a) && (code a <=? code (snd r)).

Definition cls_mem (c : cls) (a : ascii) : bool :=
  match c with
  | Digit => isdigit a
  | Space => isspace a
  | NonSpace => negb (isspace a)
  | Chr b => chr_eqb a b
  | NotChr b => negb (chr_eqb a b)
  | OneOf rs => existsb (in_range a) rs
  end.

(** Length of the longest prefix of [s] inside the class. *)
Fixpoint run (c : cls) (s : str) : nat :=
  match s with
  | [] => 0
  | a :: s' => if cls_mem c a then S (run c s') else 0
  end.

Definition cap_run (hi : option nat) (n : nat) : nat :=
  match hi with
  | Some h => Nat.min h n
  | None => n
  end.

(** The character before the current position, after [x] was consumed. *)
Definition prev_after (prev : option ascii) (x : str) : option ascii :=
  match last x with
  | Some a => Some a
  | None => prev
  end.

(** [^]: at the start of the text, and under [re.MULTILINE] after a
    newline too. *)
Definition at_bol (ml : bool) (prev : option ascii) : bool :=
  match prev with
  | None => true
  | Some a => ml && chr_eqb a NL
  end.

(** [$]: at the end of the text or before a final newline, and under
    [re.MULTILINE] before any newline. *)
Definition at_eol (ml : bool) (s : str) : bool :=
  match s with
  | [] => true
  | a :: s' => chr_eqb a NL && (ml || match s' with [] => true | _ => false end)
  end.

(** Greedy repetition with backtracking: [f] is tried at [lo + d] first,
    then at every smaller count down to [lo]. *)
Fixpoint try_down {A : Type} (f : nat -> option A) (lo d : nat) : option A :=
  match f (lo + d) with
  | Some r => Some r
  | None =>
      match d with
      | 0 => None
      | S d' => try_down f lo d'
      end
  end.

(** Match [p] at the current position: the groups captured so far are
    threaded through, and the result is the groups and the text after
    the match. *)
Fixpoint match_here (ml : bool) (p : regex) (prev : option ascii)
    (s : str) (caps : list str) : option (list str * str) :=
  match p with
  | [] => Some (caps, s)
  | Bol :: p' =>
      if at_bol ml prev then match_here ml p' prev s caps else None
  | Eol :: p' =>
      if at_eol ml s then match_here ml p' prev s caps else None
  | Lit l :: p' =>
      if starts_with l s
      then match_here ml p' (prev_after prev l) (drop (length l) s) caps
      else None
  | Rep cap c lo hi :: p' =>
      let n := cap_run hi (run c s) in
      if n <? lo then None
      else try_down
             (fun k => match_here ml p' (prev_after prev (take k s))
                         (drop k s)
                         (if cap then caps ++ [take k s] else caps))
             lo (n - lo)
  end.

(** A match object: [start()], [end()] and the captured groups. *)
Record Match : Type := mkMatch {
  m_start : nat;
  m_end : nat;
  m_groups : list str
}.

(** [re.search]: the first position, from the left, at which the pattern
    matches. *)
Fixpoint search_from (ml : bool) (p : regex) (i : nat)
    (prev : option ascii) (s : str) : option Match :=
  match match_here ml p prev s [] with
  | Some (caps, rest) =>
      Some (mkMatch i (i + (length s - length rest)) caps)
  | None =>
      match s with
      | [] => None
      | a :: s' => search_from ml p (S i) (Some a) s'
      end
  end.

Definition re_search (ml : bool) (p : regex) (s : str) : option Match :=
  search_from ml p 0 None s.

(** [re.sub(p, '', s)]: every match, found from left to right without
    overlap, is deleted.  [skip] counts the characters of the current
    match that are still to be dropped.  A match of width 0 deletes
    nothing; no pattern of this module has one (see [min_width]). *)
Fixpoint sub_go (p : regex) (prev : option ascii) (s : str) (skip : nat) : str :=
  match s with
  | [] => []
  | a :: s' =>
      match skip with
      | S k => sub_go p (Some a) s' k
      | 0 =>
          match match_here false p prev s [] with
          | Some (_, rest) =>
              match length s - length rest with
              | 0 => a :: sub_go p (Some a) s' 0
              | S k => sub_go p (Some a) s' k
              end
          | None => a :: sub_go p (Some a) s' 0
          end
      end
  end.

Definition re_sub_empty (p : regex) (s : str) : str := sub_go p None s 0.

(** ** Exceptions, match groups and local variables *)

Inductive exn : Type := UnboundLocalError | KeyError | IndexError.

Inductive res (A : Type) : Type :=
| Ok (a : A)
| Raise (e : exn).
Arguments Ok {A} a.
Arguments Raise {A} e.

Definition bind {A B : Type} (r : res A) (f : A -> res B) : res B :=
  match r with
  | Ok a => f a
  | Raise e => Raise e
  end.

Notation "x <- r ;; k" := (bind r (fun x => k))
  (at level 100, r at next level, right associativity).

(** [m.group(n)] for [n >= 1]. *)
Definition group (m : Match) (n : nat) : res str :=
  match m_groups m !! (n - 1) with
  | Some g => Ok g
  | None => Raise IndexError
  end.

(** A local variable of a Python function: reading it before any
    assignment raises. *)
Inductive local (A : Type) : Type :=
| Unbound
| Bound (v : A).
Arguments Unbound {A}.
Arguments Bound {A} v.

Definition read {A : Type} (x : local A) : res A :=
  match x with
  | Bound v => Ok v
  | Unbound => Raise UnboundLocalError
  end.

(** ** The patterns, as written in the source *)

Definition plus (c : cls) : atom := Rep false c 1 None.
Definition star (c : cls) : atom := Rep false c 0 None.
Definition times (n : nat) (c : cls) : atom := Rep false c n (Some n).
Definition group_plus (c : cls) : atom := Rep true c 1 None.

(** [\d{4}-\d{2}-\d{2}T\d{2}:\d{2}:\d{2}\.\d+Z -- ] *)
Definition timestamp_re : regex :=
  [ times 4 Digit; Lit (txt "-"); times 2 Digit; Lit (txt "-"); times 2 Digit;
    Lit (txt "T"); times 2 Digit; Lit (txt ":"); times 2 Digit; Lit (txt ":");
    times 2 Digit; Lit (txt "."); plus Digit; Lit (txt "Z -- ") ].

Definition color_on : str := ESC :: txt "[1;33m".
Definition color_off : str := ESC :: txt "[m".
Definition rule : str := repeat "="%char 73.

(** timestamp, [\x1b\[1;33m], 73 times [=], [\x1b\[m] *)
Definition rule_line_re : regex :=
  timestamp_re ++ [ Lit color_on; Lit rule; Lit color_off ].

(** timestamp, [\x1b\[1;33m= Dependency report\s*=\s*\x1b\[m] *)
Definition title_line_re : regex :=
  timestamp_re ++
  [ Lit color_on; Lit (txt "= Dependency report"); star Space; Lit (txt "=");
    star Space; Lit color_off ].

Definition start_pattern : regex :=
  rule_line_re ++ [ Lit [NL] ] ++ title_line_re ++ [ Lit [NL] ] ++ rule_line_re.

Definition end_pattern : regex := rule_line_re.

(** [^\d{4}-...Z -- ] *)
Definition timestamp_prefix_re : regex := Bol :: timestamp_re.

(** [\x1b\[[0-9;]*[a-zA-Z]] *)
Definition ansi_re : regex :=
  [ Lit (ESC :: txt "["); star (OneOf [("0", "9"); (";", ";")]%char);
    times 1 (OneOf [("a", "z"); ("A", "Z")]%char) ].

(** [\x1b\[m] *)
Definition reset_re : regex := [ Lit (ESC :: txt "[m") ].

(** [\x1b\[K] *)
Definition clear_re : regex := [ Lit (ESC :: txt "[K") ].

(** [\x1b\[[0-9]*[ABCD]] *)
Definition cursor_re : regex :=
  [ Lit (ESC :: txt "["); star (OneOf [("0", "9")]%char);
    times 1 (OneOf [("A", "A"); ("B", "B"); ("C", "C"); ("D", "D")]%char) ].

(** [^--+\s*] *)
Definition bullet_re : regex := [ Bol; Lit (txt "-"); plus (Chr "-"); star Space ].

(** [(\S+)\s+(\S+)\s*$] *)
Definition found_externally_re : regex :=
  [ group_plus NonSpace; plus Space; group_plus NonSpace; star Space; Eol ].

(** [(\S+) \(([^)]+)\)$] *)
Definition too_old_re : regex :=
  [ group_plus NonSpace; Lit (txt " ("); group_plus (NotChr ")"); Lit (txt ")"); Eol ].

(** [(\S+) (\S+)  \((\S+) BUILT LOCALLY\)$] *)
Definition built_locally_re : regex :=
  [ group_plus NonSpace; Lit (txt " "); group_plus NonSpace; Lit (txt "  (");
    group_plus NonSpace; Lit (txt " BUILT LOCALLY)"); Eol ].

(** [(\S+) (\S+)$] *)
Definition name_version_re : regex :=
  [ group_plus NonSpace; Lit (txt " "); group_plus NonSpace; Eol ].

(** ** [_clean_line] *)

Definition _clean_line (line : str) : str :=
  let line := strip line in
  let line := re_sub_empty timestamp_prefix_re line in
  let line := re_sub_empty ansi_re line in
  let line := re_sub_empty reset_re line in
  let line := re_sub_empty clear_re line in
  let line := re_sub_empty cursor_re line in
  let line := re_sub_empty bullet_re line in
  strip line.

(** ** [_parse_dependencies] *)

Record entry : Type := mkEntry {
  package : str;
  version : option str
}.

(** The three local variables the loop reads and writes. *)
Record pstate : Type := mkState {
  dependencies : gmap string (list entry);
  current_section : option string;
  version_match : local (option Match)
}.

Definition init_dependencies : gmap string (list entry) :=
  <["dependencies_found_externally" := [] ]>
  (<["dependencies_too_old" := [] ]>
  (<["dependencies_built_locally" := [] ]>
  (<["dependencies_not_found" := [] ]> ∅))).

Definition init_state : pstate := mkState init_dependencies None Unbound.

Definition is_empty (s : str) : bool :=
  match s with [] => true | _ => false end.

(** Truth value of [current_section]: [None] and the empty string are
    false. *)
Definition truthy (cs : option string) : bool :=
  match cs with
  | Some k => negb (String.eqb k "")
  | None => false
  end.

(** [current_section == k] *)
Definition section_is (cs : option string) (k : string) : bool :=
  match cs with
  | Some k' => String.eqb k' k
  | None => false
  end.

(** The [if]/[elif] chain that probes the line: it assigns
    [version_match], and in the branch of the not-found section it may
    also assign [current_section]. *)
Definition probe (st : pstate) (clean_line : str) : pstate :=
  let cs := current_section st in
  if section_is cs "dependencies_found_externally" then
    mkState (dependencies st) cs
      (Bound (re_search false found_externally_re clean_line))
  else if section_is cs "dependencies_too_old" then
    mkState (dependencies st) cs
      (Bound (re_search false too_old_re clean_line))
  else if section_is cs "dependencies_not_found" then
    match re_search false built_locally_re clean_line with
    | Some _ =>
        mkState (dependencies st) (Some "dependencies_built_locally")
          (Bound (re_search false name_version_re clean_line))
    | None => mkState (dependencies st) cs (Bound None)
    end
  else st.

(** [dependencies[current_section].append(e)] *)
Definition append_entry (st : pstate) (e : entry) : res pstate :=
  match current_section st with
  | None => Raise KeyError
  | Some k =>
      match dependencies st !! k with
      | None => Raise KeyError
      | Some l =>
          Ok (mkState (<[k := l ++ [e] ]> (dependencies st))
                (current_section st) (version_match st))
      end
  end.

(** The [if version_match: ... else: ...] at the end of the loop body. *)
Definition record_entry (st : pstate) (clean_line : str) : res pstate :=
  vm <- read (version_match st) ;;
  match vm with
  | Some m =>
      package_name <- group m 1 ;;
      version <- group m 2 ;;
      append_entry st (mkEntry package_name (Some version))
  | None => append_entry st (mkEntry clean_line None)
  end.

Definition set_section (st : pstate) (k : string) : pstate :=
  mkState (dependencies st) (Some k) (version_match st).

(** One iteration of [for line in lines]. *)
Definition loop_body (st : pstate) (line : str) : res pstate :=
  let clean_line := _clean_line line in
  if is_empty clean_line then Ok st
  else if contains (txt "the following dependencies found externally:")
            (lower clean_line)
  then Ok (set_section st "dependencies_found_externally")
  else if contains (txt "the following dependencies were found but were too old:")
            (lower clean_line)
  then Ok (set_section st "dependencies_too_old")
  else if contains (txt "the following dependencies were not found")
            (lower clean_line)
  then Ok (set_section st "dependencies_not_found")
  else if truthy (current_section st) && negb (is_empty clean_line) then
    if contains (txt "dependencies") (lower clean_line) then Ok st
    else record_entry (probe st clean_line) clean_line
  else Ok st.

Fixpoint for_lines (st : pstate) (lines : list str) : res pstate :=
  match lines with
  | [] => Ok st
  | line :: lines' => st' <- loop_body st line ;; for_lines st' lines'
  end.

Definition _parse_dependencies (section : str) : res (gmap string (list entry)) :=
  st <- for_lines init_state (split_nl section) ;;
  Ok (dependencies st).

(** ** [parse_dependency_section] *)

(** The values of the dictionary that is returned. *)
Inductive pyval : Type :=
| PStr (s : string)
| PList (l : list entry).

(** [s[i:j]] for [0 <= i] and [0 <= j]. *)
Definition slice (s : str) (i j : nat) : str := take (j - i) (drop i s).

Definition start_not_found : gmap string pyval :=
  {[ "error" := PStr "Dependency report section not found" ]}.

Definition end_not_found : gmap string pyval :=
  {[ "error" := PStr "End of dependency report section not found" ]}.

Definition parse_dependency_section (log_content : str) : res (gmap string pyval) :=
  match re_search true start_pattern log_content with
  | None => Ok start_not_found
  | Some start_match =>
      let start_pos := m_end start_match in
      match re_search false end_pattern (drop start_pos log_content) with
      | None => Ok end_not_found
      | Some end_match =>
          let end_pos := start_pos + m_start end_match in
          let dependency_section := strip (slice log_content start_pos end_pos) in
          deps <- _parse_dependencies dependency_section ;;
          Ok (PList <$> deps)
      end
  end.

(** * Specification vocabulary *)

(** ** What it means for a pattern to match

    [Matches ml p prev x rest g]: the pattern [p] matches the text [x]
    when [x] is preceded by the character [prev] and followed by [rest];
    [g] lists the captured groups. *)

Inductive Matches (ml : bool) :
  regex -> option ascii -> str -> str -> list str -> Prop :=
| M_nil prev rest :
    Matches ml [] prev [] rest []
| M_bol p prev x rest g :
    at_bol ml prev = true ->
    Matches ml p prev x rest g ->
    Matches ml (Bol :: p) prev x rest g
| M_eol p prev x rest g :
    at_eol ml (x ++ rest) = true ->
    Matches ml p prev x rest g ->
    Matches ml (Eol :: p) prev x rest g
| M_lit l p prev x rest g :
    Matches ml p (prev_after prev l) x rest g ->
    Matches ml (Lit l :: p) prev (l ++ x) rest g
| M_rep cap c lo hi p prev y x rest g :
    lo <= length y ->
    (forall h, hi = Some h -> length y <= h) ->
    Forall (fun a => cls_mem c a = true) y ->
    Matches ml p (prev_after prev y) x rest g ->
    Matches ml (Rep cap c lo hi :: p) prev (y ++ x) rest
      (if cap then y :: g else g).

(** Number of capturing groups of a pattern. *)
Fixpoint ngroups (p : regex) : nat :=
  match p with
  | [] => 0
  | Rep true _ _ _ :: p' => S (ngroups p')
  | _ :: p' => ngroups p'
  end.

(** A pattern whose matches are determined by the text: every repetition
    has a fixed count or is followed by a literal character outside its
    class. *)
Fixpoint det (p : regex) : bool :=
  match p with
  | [] => true
  | Rep _ c lo hi :: p' =>
      (match hi with Some h => h =? lo | None => false end
       || match p' with
          | Lit (b :: _) :: _ => negb (cls_mem c b)
          | _ => false
          end)
      && det p'
  | _ :: p' => det p'
  end.

(** The least number of characters a match of the pattern consumes. *)
Fixpoint min_width (p : regex) : nat :=
  match p with
  | [] => 0
  | Rep _ _ lo _ :: p' => lo + min_width p'
  | Lit l :: p' => length l + min_width p'
  | _ :: p' => min_width p'
  end.

(** Texts made of white space only, of no white space, and of digits. *)
Definition spaces (x : str) : Prop := Forall (fun a => isspace a = true) x.
Definition nonspace (x : str) : Prop := Forall (fun a => isspace a = false) x.
Definition digits (n : nat) (x : str) : Prop :=
  length x = n /\ Forall (fun a => isdigit a = true) x.

(** The white-space separated tokens of a text, as [str.split()] lists
    them; [cur] is the token being read. *)
Definition flush (cur : str) : list str :=
  match cur with
  | [] => []
  | _ => [cur]
  end.

Fixpoint words_aux (cur : str) (s : str) : list str :=
  match s with
  | [] => flush cur
  | a :: s' =>
      if isspace a then flush cur ++ words_aux [] s'
      else words_aux (cur ++ [a]) s'
  end.

Definition words (s : str) : list str := words_aux [] s.

(** A text that [strip] leaves alone. *)
Definition stripped (s : str) : Prop := strip s = s.

(** The header test of the loop, and the lines the loop treats as data:
    not empty once cleaned, not a header, and without the word
    "dependencies". *)
Definition is_header (clean_line : str) : bool :=
  contains (txt "the following dependencies found externally:") (lower clean_line)
  || contains (txt "the following dependencies were found but were too old:")
       (lower clean_line)
  || contains (txt "the following dependencies were not found") (lower clean_line).

Definition is_data_line (line : str) : bool :=
  let clean_line := _clean_line line in
  negb (is_empty clean_line) && negb (is_header clean_line)
  && negb (contains (txt "dependencies") (lower clean_line)).

(** The keys of the dictionary of results. *)
Definition found_externally : string := "dependencies_found_externally".
Definition too_old : string := "dependencies_too_old".
Definition built_locally : string := "dependencies_built_locally".
Definition not_found : string := "dependencies_not_found".

(** Lines joined by newlines, as a section of a log is. *)
Fixpoint unlines (ls : list string) : str :=
  match ls with
  | [] => []
  | [l] => txt l
  | l :: ls' => txt l ++ NL :: unlines ls'
  end.

(** The section the specification gives as its example. *)
Definition example_section : str :=
  unlines [ "Dependencies found externally:";
            "  cmake 3.28.1";
            "  boost 1.84.0";
            "Dependencies not found:";
            "  missing_package";
            "Dependencies not found (BUILT LOCALLY):";
            "  openexr 3.2.0" ]%string.

(** What holds of the three local variables at the top of every
    iteration: the dictionary has the four keys and no other, the cursor
    is unset or one of them, and under the built-locally cursor
    [version_match] is bound, to no match or to one with two groups. *)
Definition loop_inv (st : pstate) : Prop :=
  (forall k, is_Some (dependencies st !! k) <->
             k ∈ [found_externally; too_old; built_locally; not_found]) /\
  (forall k, current_section st = Some k ->
             k ∈ [found_externally; too_old; built_locally; not_found]) /\
  (current_section st = Some built_locally ->
   exists v, version_match st = Bound v /\
             forall m, v = Some m -> length (m_groups m) = 2).

(** States and lines used to exercise the theorems. *)
Definition under (k : string) : pstate := mkState init_dependencies (Some k) Unbound.

(** ** The shapes the patterns of the source describe *)

(** [P] holds of some piece of [s]. *)
Definition occurs (P : str -> Prop) (s : str) : Prop :=
  exists pre x post, s = pre ++ x ++ post /\ P x.

(** [P] holds of some prefix of [s]. *)
Definition begins (P : str -> Prop) (s : str) : Prop :=
  exists x post, s = x ++ post /\ P x.

(** A timestamp with a fraction of a second, followed by the separator:
    [2025-07-04T08:10:03.4957678Z -- ]. *)
Definition is_stamp (x : str) : Prop :=
  exists y mo d h mi se fr : str,
    x = y ++ txt "-" ++ mo ++ txt "-" ++ d ++ txt "T" ++ h ++ txt ":" ++ mi
          ++ txt ":" ++ se ++ txt "." ++ fr ++ txt "Z -- " /\
    digits 4 y /\ digits 2 mo /\ digits 2 d /\
    digits 2 h /\ digits 2 mi /\ digits 2 se /\
    Forall (fun a => isdigit a = true) fr /\ fr <> [].

(** A line of the banner that is a row of [=]: stamp, colour on, 73
    times [=], colour off. *)
Definition is_rule_line (x : str) : Prop :=
  exists ts, x = ts ++ color_on ++ rule ++ color_off /\ is_stamp ts.

(** The middle line of the opening banner. *)
Definition is_title_line (x : str) : Prop :=
  exists ts w1 w2,
    x = ts ++ color_on ++ txt "= Dependency report" ++ w1 ++ txt "=" ++ w2
           ++ color_off /\
    is_stamp ts /\ spaces w1 /\ spaces w2.

(** The three lines of the opening banner. *)
Definition is_opening_banner (x : str) : Prop :=
  exists l1 l2 l3,
    x = l1 ++ [NL] ++ l2 ++ [NL] ++ l3 /\
    is_rule_line l1 /\ is_title_line l2 /\ is_rule_line l3.

(** The parameter and final characters of an escape sequence, [[0-9;]]
    and [[a-zA-Z]]. *)
Definition csi_param : cls := OneOf [("0", "9"); (";", ";")]%char.
Definition csi_final : cls := OneOf [("a", "z"); ("A", "Z")]%char.

(** An escape sequence: ESC, [[], parameters, one letter. *)
Definition is_escape (x : str) : Prop :=
  exists ps f,
    x = ESC :: txt "[" ++ ps ++ [f] /\
    Forall (fun a => cls_mem csi_param a = true) ps /\
    cls_mem csi_final f = true.

(** The bullet [^--+\s*] removes: two or more [-], then white space. *)
Definition is_bullet (x : str) : Prop :=
  exists y w,
    x = txt "-" ++ y ++ w /\
    Forall (fun a => a = "-"%char) y /\ y <> [] /\ spaces w.

(** Logs and lines used to exercise the theorems. *)
Definition stamp1 : str := txt "2025-07-04T08:10:03.4957678Z -- ".

Definition banner1 : str :=
  stamp1 ++ color_on ++ rule ++ color_off ++ [NL]
  ++ stamp1 ++ color_on ++ txt "= Dependency report        =" ++ color_off ++ [NL]
  ++ stamp1 ++ color_on ++ rule ++ color_off.

(** The same banner without any escape sequence. *)
Definition plain_banner : str :=
  stamp1 ++ rule ++ [NL]
  ++ stamp1 ++ txt "= Dependency report        =" ++ [NL]
  ++ stamp1 ++ rule.

(** The same banner in another colour. *)
Definition green_banner : str :=
  stamp1 ++ ESC :: txt "[1;32m" ++ rule ++ color_off ++ [NL]
  ++ stamp1 ++ ESC :: txt "[1;32m" ++ txt "= Dependency report        ="
  ++ color_off ++ [NL]
  ++ stamp1 ++ ESC :: txt "[1;32m" ++ rule ++ color_off.

Definition body1 : str :=
  NL :: unlines [ "The following dependencies found externally:";
                  "  cmake 3.28.1"; "" ]%string.

Definition closing1 : str := stamp1 ++ color_on ++ rule ++ color_off ++ txt " more".

Definition plain_log : str := txt "build output" ++ NL :: plain_banner ++ body1 ++ closing1.
Definition green_log : str := txt "build output" ++ NL :: green_banner ++ body1 ++ closing1.
Definition decorated_line : str :=
  txt "  2025-07-04T08:10:03.4961000Z -- " ++ ESC :: txt "[1;37m  cmake 3.28.1"
  ++ ESC :: txt "[m".

(** The log of [test_timestamp_parsing.py]: every line but the plain
    ones is a stamp, [ -- ], a colour sequence, the text and the reset
    sequence. *)
Definition deco (stamp color text : string) : str :=
  txt stamp ++ txt " -- " ++ ESC :: txt color ++ txt text ++ ESC :: txt "[m".

Fixpoint join_nl (ls : list str) : str :=
  match ls with
  | [] => []
  | [l] => l
  | l :: ls' => l ++ NL :: join_nl ls'
  end.

Definition rule_text : string :=
  "=========================================================================".

Definition sample_log : str :=
  join_nl
    [ txt "";
      txt "Some build output...";
      txt "";
      deco "2025-07-04T08:10:03.4957678Z" "[1;33m" rule_text;
      deco "2025-07-04T08:10:03.4958488Z" "[1;33m"
        "= Dependency report                                                     =";
      deco "2025-07-04T08:10:03.4959252Z" "[1;33m" rule_text;
      txt "";
      deco "2025-07-04T08:10:03.4960000Z" "[1;32m" "Dependencies found externally:";
      deco "2025-07-04T08:10:03.4961000Z" "[1;37m" "  cmake 3.28.1";
      deco "2025-07-04T08:10:03.4962000Z" "[1;37m" "  boost 1.84.0";
      deco "2025-07-04T08:10:03.4963000Z" "[1;37m" "  openexr 3.2.0";
      txt "";
      deco "2025-07-04T08:10:03.4964000Z" "[1;31m" "Dependencies not found:";
      deco "2025-07-04T08:10:03.4965000Z" "[1;37m" "  missing_package";
      txt "";
      deco "2025-07-04T08:10:03.4966000Z" "[1;33m"
        "Dependencies not found (BUILT LOCALLY):";
      deco "2025-07-04T08:10:03.4967000Z" "[1;37m" "  boost 1.84.0";
      deco "2025-07-04T08:10:03.4968000Z" "[1;37m" "  openexr 3.2.0";
      txt "";
      deco "2025-07-04T08:10:03.4969461Z" "[1;33m" rule_text;
      txt "";
      txt "More build output...";
      txt "" ]%string.

(** * Further vocabulary *)

(** An entry as the data model wants it: a package name that is not
    empty, and a version that is not empty when there is one. *)
Definition entry_ok (e : entry) : Prop :=
  package e <> [] /\ forall v, version e = Some v -> v <> [].

(** A match with two groups, neither empty. *)
Definition groups_ok (m : Match) : Prop :=
  exists g1 g2, m_groups m = [g1; g2] /\ g1 <> [] /\ g2 <> [].

(** Every entry on record is well formed, and so is the match at hand. *)
Definition entries_inv (st : pstate) : Prop :=
  (forall k l e, dependencies st !! k = Some l -> e ∈ l -> entry_ok e) /\
  (forall m, version_match st = Bound (Some m) -> groups_ok m).

(** A closing rule line, for exercising the theorems. *)
Definition rule1 : str := stamp1 ++ color_on ++ rule ++ color_off.

(** * [parse_github_url] *)

(** [s.strip(chars)] for a one-character [chars], and [s.split(sep)]
    for a one-character [sep]. *)
Fixpoint lstrip_chr (c : ascii) (s : str) : str :=
  match s with
  | [] => []
  | a :: s' => if chr_eqb a c then lstrip_chr c s' else s
  end.

Fixpoint rstrip_chr (c : ascii) (s : str) : str :=
  match s with
  | [] => []
  | a :: s' =>
      match rstrip_chr c s' with
      | [] => if chr_eqb a c then [] else [a]
      | r => a :: r
      end
  end.

Definition strip_chr (c : ascii) (s : str) : str := rstrip_chr c (lstrip_chr c s).

Fixpoint str_split (sep : ascii) (s : str) : list str :=
  match s with
  | [] => [[]]
  | a :: s' =>
      if chr_eqb a sep then [] :: str_split sep s'
      else match str_split sep s' with
           | [] => [[a]]
           | l :: ls => (a :: l) :: ls
           end
  end.

(** The two fields of the result of [urlparse] that the method reads;
    [urlparse] itself is Python's. *)
Record ParseResult : Type := mkParsed {
  netloc : str;
  path : str
}.

(** What a call does: it returns, or raises one of two exceptions. *)
Inductive outcome (A : Type) : Type :=
| Returns (a : A)
| ValueError (msg : string)
| IndexErrorRaised.
Arguments Returns {A} a.
Arguments ValueError {A} msg.
Arguments IndexErrorRaised {A}.

(** [path_parts[i]] *)
Definition item (l : list str) (i : nat) : outcome str :=
  match l !! i with
  | Some x => Returns x
  | None => IndexErrorRaised
  end.

(** The method, from the line after [parsed = urlparse(url)]. *)
Definition parse_github_url (parsed : ParseResult) : outcome (str * str) :=
  if negb (bool_decide (netloc parsed = txt "github.com"))
  then ValueError "URL must be a GitHub repository URL"
  else
    let path_parts := str_split "/" (strip_chr "/" (path parsed)) in
    if length path_parts <? 2
    then ValueError "Invalid GitHub repository URL"
    else
      match item path_parts 0 with
      | Returns owner =>
          match item path_parts 1 with
          | Returns repo => Returns (owner, repo)
          | ValueError msg => ValueError msg
          | IndexErrorRaised => IndexErrorRaised
          end
      | ValueError msg => ValueError msg
      | IndexErrorRaised => IndexErrorRaised
      end.

(** * [get_successful_jobs] and the choice of job in [get_build_logs]

    The objects the GitHub client hands out are records of the
    attributes the two methods read.  A listing is the list of what it
    yields, and [None] where the handler around it makes a failure lose
    the whole listing: the jobs of a run ([list(run.jobs())] is built
    before any job is used) and the workflows (the outer handler returns
    the empty list).  The runs of a workflow that fails part-way are the
    runs yielded before the failure, since the handler around that loop
    keeps what was appended and goes on with the next workflow.
    Printing is left out. *)

(** [run.created_at]: its [date()], as a day number, and its
    [isoformat()]. *)
Record datetime : Type := mkDatetime {
  date : Z;
  isoformat : str
}.

Record WorkflowJob : Type := mkJob {
  j_id : Z;
  j_name : str;
  j_conclusion : option str
}.

Record WorkflowRun : Type := mkRun {
  r_id : Z;
  r_name : str;
  r_created_at : datetime;
  r_conclusion : option str;
  r_head_branch : str;
  r_jobs : option (list WorkflowJob)
}.

Record Workflow : Type := mkWorkflow {
  w_name : str;
  w_get_runs : option (list WorkflowRun)
}.

(** The dictionary appended for one job. *)
Record job_entry : Type := mkJobEntry {
  run_id : Z;
  run_name : str;
  workflow_name : str;
  created_at : str;
  head_branch : str;
  job_id : Z;
  job_name : str;
  job_conclusion : option str
}.

Definition job_entry_of (workflow : Workflow) (run : WorkflowRun)
    (job : WorkflowJob) : job_entry :=
  mkJobEntry (r_id run) (r_name run) (w_name workflow)
    (isoformat (r_created_at run)) (r_head_branch run)
    (j_id job) (j_name job) (j_conclusion job).

(** [for run in runs]: a run of the target date that succeeded gives its
    jobs, unless listing them raises; the first run older than the
    target date ends the loop. *)
Fixpoint scan_runs (workflow : Workflow) (target_date : Z)
    (runs : list WorkflowRun) : list job_entry :=
  match runs with
  | [] => []
  | run :: runs' =>
      let run_date := date (r_created_at run) in
      if (run_date =? target_date)%Z
         && bool_decide (r_conclusion run = Some (txt "success"))
      then
        match r_jobs run with
        | Some jobs =>
            map (job_entry_of workflow run) jobs
            ++ scan_runs workflow target_date runs'
        | None => scan_runs workflow target_date runs'
        end
      else if (run_date <? target_date)%Z then []
      else scan_runs workflow target_date runs'
  end.

(** [workflows] is what [get_repo] and [get_workflows] give, [None]
    when either of them or the listing raises: then the method returns
    the empty list. *)
Definition get_successful_jobs (workflows : option (list Workflow))
    (target_date : Z) (workflow_name : str) : list job_entry :=
  match workflows with
  | None => []
  | Some workflows =>
      flat_map
        (fun workflow =>
           if negb (bool_decide (w_name workflow = workflow_name)) then []
           else match w_get_runs workflow with
                | Some runs => scan_runs workflow target_date runs
                | None => []
                end)
        workflows
  end.

(** [for job in jobs: if p(job): target_job = job; break] *)
Fixpoint first_job (p : WorkflowJob -> bool) (jobs : list WorkflowJob)
    : option WorkflowJob :=
  match jobs with
  | [] => None
  | job :: jobs' => if p job then Some job else first_job p jobs'
  end.

(** Truth value of [job_id]: [None] and 0 are false. *)
Definition given (job_id : option Z) : bool :=
  match job_id with
  | Some i => negb (i =? 0)%Z
  | None => false
  end.

(** The value of [target_job] in [get_build_logs] once the jobs of the
    run are listed. *)
Definition target_job (job_id : option Z) (jobs : list WorkflowJob)
    : option WorkflowJob :=
  if given job_id then
    first_job (fun job => bool_decide (Some (j_id job) = job_id)) jobs
  else
    match first_job (fun job => contains (txt "build") (lower (j_name job))) jobs with
    | Some job => Some job
    | None =>
        match jobs with
        | job :: _ => Some job
        | [] => None
        end
    end.

(** The runs that count, whatever their place in the listing. *)
Definition counts (target_date : Z) (run : WorkflowRun) : bool :=
  (date (r_created_at run) =? target_date)%Z
  && bool_decide (r_conclusion run = Some (txt "success")).

Definition jobs_of (workflow : Workflow) (run : WorkflowRun) : list job_entry :=
  match r_jobs run with
  | Some jobs => map (job_entry_of workflow run) jobs
  | None => []
  end.

(** A listing with the newest run first. *)
Fixpoint newest_first (runs : list WorkflowRun) : Prop :=
  match runs with
  | [] => True
  | run :: runs' =>
      Forall (fun later =>
                (date (r_created_at later) <= date (r_created_at run))%Z) runs'
      /\ newest_first runs'
  end.

(** The job's name has "build" in it, in any case. *)
Definition build_job (job : WorkflowJob) : Prop :=
  exists pre w post, j_name job = pre ++ w ++ post /\ lower w = txt "build".

(** The runs a workflow lists, none when [get_runs] raises. *)
Definition runs_of (workflow : Workflow) : list WorkflowRun :=
  match w_get_runs workflow with
  | Some runs => runs
  | None => []
  end.

(** * The lines the loop puts on record *)

(** The lines that follow the first header line: those the loop reads
    with the cursor set. *)
Fixpoint after_header (lines : list str) : list str :=
  match lines with
  | [] => []
  | line :: lines' =>
      if is_header (_clean_line line) then lines' else after_header lines'
  end.

(** The data lines among them. *)
Definition recorded_lines (lines : list str) : list str :=
  List.filter is_data_line (after_header lines).

(** The list a dictionary holds under a key, and the number of entries
    in its four lists. *)
Definition entries_of (d : gmap string (list entry)) (k : string) : list entry :=
  default [] (d !! k).

Definition entries_total (d : gmap string (list entry)) : nat :=
  length (entries_of d found_externally) + length (entries_of d too_old)
  + length (entries_of d built_locally) + length (entries_of d not_found).

(** Logs in which the banner without escape sequences, and the banner
    in another colour, is followed by no row of [=] at all. *)
Definition plain_open_log : str :=
  txt "build output" ++ NL :: plain_banner ++ body1.

Definition green_open_log : str :=
  txt "build output" ++ NL :: green_banner ++ body1.

(** * Properties of the matcher *)

Section Engine.

Variable ml : bool.

Lemma chr_eqb_eq a b : chr_eqb a b = true <-> a = b.
Proof. apply Ascii.eqb_eq. Qed.

Lemma chr_eqb_refl a : chr_eqb a a = true.
Proof. by apply chr_eqb_eq. Qed.

Lemma starts_with_spec l s :
  starts_with l s = true <-> exists r, s = l ++ r.
Proof.
  revert s. induction l as [|a l IH]; intros s; simpl.
  - split; eauto.
  - destruct s as [|b s]; [split; [done | intros [r Hr]; done]|].
    rewrite andb_true_iff, chr_eqb_eq, IH. split.
    + intros [-> [r ->]]. by exists r.
    + intros [r Hr]. injection Hr as -> ->. eauto.
Qed.

Lemma starts_with_app l r : starts_with l (l ++ r) = true.
Proof. apply starts_with_spec. eauto. Qed.

Lemma prev_after_nil prev : prev_after prev [] = prev.
Proof. done. Qed.

Lemma prev_after_app prev x y :
  prev_after (prev_after prev x) y = prev_after prev (x ++ y).
Proof.
  unfold prev_after. rewrite last_app.
  destruct (last y); [done|]. by destruct (last x).
Qed.

Lemma run_take c s k :
  k <= run c s -> Forall (fun a => cls_mem c a = true) (take k s).
Proof.
  revert k. induction s as [|a s IH]; intros k Hk; simpl in *.
  - rewrite take_nil. constructor.
  - destruct k as [|k]; [constructor|]. simpl.
    destruct (cls_mem c a) eqn:Ha; [|lia].
    constructor; [done|]. apply IH. lia.
Qed.

Lemma run_le_length c s : run c s <= length s.
Proof.
  induction s as [|a s IH]; simpl; [lia|].
  destruct (cls_mem c a); lia.
Qed.

Lemma run_app_ge c y z :
  Forall (fun a => cls_mem c a = true) y -> length y <= run c (y ++ z).
Proof.
  induction 1 as [|a y Ha _ IH]; simpl; [lia|]. rewrite Ha. lia.
Qed.

Lemma run_all c y :
  Forall (fun a => cls_mem c a = true) y -> run c y = length y.
Proof.
  intros H. pose proof (run_app_ge c y [] H) as H1.
  rewrite app_nil_r in H1. pose proof (run_le_length c y). lia.
Qed.

Lemma run_stop c y b z :
  Forall (fun a => cls_mem c a = true) y -> cls_mem c b = false ->
  run c (y ++ b :: z) = length y.
Proof.
  induction 1 as [|a y Ha _ IH]; intros Hb; simpl.
  - by rewrite Hb.
  - rewrite Ha. by rewrite IH.
Qed.

Lemma cap_run_le hi n : cap_run hi n <= n.
Proof. destruct hi; simpl; lia. Qed.

Lemma cap_run_hi hi n h : hi = Some h -> cap_run hi n <= h.
Proof. intros ->. simpl. lia. Qed.

Lemma try_down_Some {A} (f : nat -> option A) lo d r :
  try_down f lo d = Some r -> exists k, lo <= k <= lo + d /\ f k = Some r.
Proof.
  induction d as [|d IH]; simpl.
  - destruct (f (lo + 0)) eqn:E; [|done]. intros [= ->]. exists (lo + 0). split; [lia|done].
  - destruct (f (lo + S d)) eqn:E.
    + intros [= ->]. exists (lo + S d). split; [lia|done].
    + intros H. destruct (IH H) as (k & Hk & Hf). exists k. split; [lia|done].
Qed.

Lemma try_down_is_Some {A} (f : nat -> option A) lo d k :
  lo <= k <= lo + d -> is_Some (f k) -> is_Some (try_down f lo d).
Proof.
  induction d as [|d IH]; simpl; intros Hk Hf.
  - replace (lo + 0) with k by lia. destruct (f k); [eauto|by destruct Hf].
  - destruct (f (lo + S d)) eqn:E; [eauto|].
    apply IH; [|done].
    destruct (decide (k = lo + S d)) as [->|]; [|lia].
    rewrite E in Hf. by destruct Hf.
Qed.

Lemma try_down_None {A} (f : nat -> option A) lo d :
  try_down f lo d = None -> forall k, lo <= k <= lo + d -> f k = None.
Proof.
  intros H k Hk. destruct (f k) eqn:E; [|done].
  assert (is_Some (try_down f lo d)) as [r Hr]
    by (apply (try_down_is_Some f lo d k); eauto).
  congruence.
Qed.

(** The first count tried wins when it succeeds. *)
Lemma try_down_first {A} (f : nat -> option A) lo d r :
  f (lo + d) = Some r -> try_down f lo d = Some r.
Proof. intros H. destruct d; simpl; by rewrite H. Qed.

(** The matcher only reports matches. *)
Lemma match_here_sound p : forall prev s caps caps' rest,
  match_here ml p prev s caps = Some (caps', rest) ->
  exists x g, s = x ++ rest /\ caps' = caps ++ g /\ Matches ml p prev x rest g.
Proof.
  induction p as [|a p IH]; intros prev s caps caps' rest H; simpl in H.
  - injection H as <- <-. exists [], []. rewrite app_nil_r. repeat split. constructor.
  - destruct a as [cap c lo hi|l| |].
    + destruct (cap_run hi (run c s) <? lo) eqn:Hlo; [done|].
      apply Nat.ltb_ge in Hlo.
      apply try_down_Some in H as (k & Hk & H).
      apply IH in H as (x & g & Hs & Hc & HM).
      assert (k <= run c s) by (pose proof (cap_run_le hi (run c s)); lia).
      assert (length (take k s) = k) as Hlen
        by (rewrite length_take; pose proof (run_le_length c s); lia).
      exists (take k s ++ x), (if cap then take k s :: g else g). repeat split.
      * rewrite <- app_assoc, <- Hs. by rewrite take_drop.
      * destruct cap; [|done]. by rewrite Hc, <- app_assoc.
      * constructor; [lia| |by apply run_take|done].
        intros h Hh. pose proof (cap_run_hi hi (run c s) h Hh). lia.
    + destruct (starts_with l s) eqn:Hl; [|done].
      apply starts_with_spec in Hl as [r ->].
      rewrite drop_app_length in H.
      apply IH in H as (x & g & -> & Hc & HM).
      exists (l ++ x), g. repeat split; [by rewrite app_assoc|done|by constructor].
    + destruct (at_bol ml prev) eqn:Hb; [|done].
      apply IH in H as (x & g & -> & Hc & HM).
      exists x, g. repeat split; [done|by constructor].
    + destruct (at_eol ml s) eqn:Hb; [|done].
      apply IH in H as (x & g & -> & Hc & HM).
      exists x, g. repeat split; [done|by constructor].
Qed.

(** The matcher finds a match whenever there is one. *)
Lemma match_here_complete p : forall prev x rest g caps,
  Matches ml p prev x rest g ->
  is_Some (match_here ml p prev (x ++ rest) caps).
Proof.
  intros prev x rest g caps H. revert caps.
  induction H as [prev rest|p prev x rest g Hb _ IH|p prev x rest g Hb _ IH
                 |l p prev x rest g _ IH|cap c lo hi p prev y x rest g Hlo Hhi Hy _ IH];
    intros caps; simpl.
  - eauto.
  - rewrite Hb. apply IH.
  - rewrite Hb. apply IH.
  - rewrite <- app_assoc, starts_with_app, drop_app_length. apply IH.
  - rewrite <- app_assoc.
    pose proof (run_app_ge c y (x ++ rest) Hy) as Hrun.
    assert (length y <= cap_run hi (run c (y ++ x ++ rest))) as Hn.
    { destruct hi as [h|]; simpl; [|done]. specialize (Hhi h eq_refl). lia. }
    destruct (_ <? lo) eqn:Hlt; [apply Nat.ltb_lt in Hlt; lia|].
    apply (try_down_is_Some _ lo _ (length y)); [lia|].
    rewrite take_app_length, drop_app_length. apply IH.
Qed.

Lemma match_here_None p prev x rest g caps :
  match_here ml p prev (x ++ rest) caps = None -> ~ Matches ml p prev x rest g.
Proof.
  intros H HM. apply (match_here_complete _ _ _ _ _ caps) in HM as [r Hr]. congruence.
Qed.

(** The groups of a match are as many as the pattern has. *)
Lemma Matches_ngroups p prev x rest g :
  Matches ml p prev x rest g -> length g = ngroups p.
Proof.
  induction 1 as [| | | |cap ?]; try done.
  destruct cap; simpl; congruence.
Qed.

Lemma Matches_min_width p prev x rest g :
  Matches ml p prev x rest g -> min_width p <= length x.
Proof.
  induction 1; simpl; try done; rewrite length_app; lia.
Qed.

Lemma Matches_app_intro p1 p2 prev x1 x2 rest g1 g2 :
  Matches ml p1 prev x1 (x2 ++ rest) g1 ->
  Matches ml p2 (prev_after prev x1) x2 rest g2 ->
  Matches ml (p1 ++ p2) prev (x1 ++ x2) rest (g1 ++ g2).
Proof.
  intros H1. revert g2.
  remember (x2 ++ rest) as r eqn:Hr.
  induction H1 as [prev r|p prev x r g Hb _ IH|p prev x r g Hb _ IH
                  |l p prev x r g _ IH|cap c lo hi p prev y x r g Hlo Hhi Hy _ IH];
    intros g2 H2; subst r; simpl.
  - done.
  - constructor; [done|]. by apply IH.
  - constructor; [by rewrite <- app_assoc|]. by apply IH.
  - rewrite <- app_assoc. constructor. apply IH; [done|].
    by rewrite prev_after_app.
  - rewrite <- app_assoc.
    replace (if cap then y :: g else g) with ((if cap then [y] else []) ++ g)
      by (by destruct cap).
    rewrite <- app_assoc.
    replace ((if cap then [y] else []) ++ g ++ g2)
      with (if cap then y :: (g ++ g2) else g ++ g2) by (by destruct cap).
    constructor; try done. apply IH; [done|]. by rewrite prev_after_app.
Qed.

Lemma Matches_app_inv p1 : forall p2 prev x rest g,
  Matches ml (p1 ++ p2) prev x rest g ->
  exists x1 x2 g1 g2,
    x = x1 ++ x2 /\ g = g1 ++ g2 /\
    Matches ml p1 prev x1 (x2 ++ rest) g1 /\
    Matches ml p2 (prev_after prev x1) x2 rest g2.
Proof.
  induction p1 as [|a p1 IH]; intros p2 prev x rest g H; simpl in H.
  - exists [], x, [], g. repeat split; [constructor|done].
  - inversion H; subst; clear H.
    + match goal with H : Matches _ (p1 ++ p2) _ _ _ _ |- _ =>
        apply IH in H as (x1 & x2 & g1 & g2 & -> & -> & HA & HB) end.
      exists x1, x2, g1, g2. repeat split; [by constructor|done].
    + match goal with H : Matches _ (p1 ++ p2) _ _ _ _ |- _ =>
        apply IH in H as (x1 & x2 & g1 & g2 & -> & -> & HA & HB) end.
      exists x1, x2, g1, g2. repeat split; [|done].
      constructor; [by rewrite app_assoc|done].
    + match goal with H : Matches _ (p1 ++ p2) _ _ _ _ |- _ =>
        apply IH in H as (x1 & x2 & g1 & g2 & -> & -> & HA & HB) end.
      exists (l ++ x1), x2, g1, g2. repeat split; [by rewrite app_assoc|by constructor|].
      by rewrite <- prev_after_app.
    + match goal with H : Matches _ (p1 ++ p2) _ _ _ _ |- _ =>
        apply IH in H as (x1 & x2 & g1 & g2 & -> & -> & HA & HB) end.
      exists (y ++ x1), x2, (if cap then y :: g1 else g1), g2.
      repeat split; [by rewrite app_assoc|by destruct cap|by constructor|].
      by rewrite <- prev_after_app.
Qed.

(** A deterministic pattern has at most one match at a position. *)
Lemma Matches_det p prev x rest g :
  Matches ml p prev x rest g ->
  forall prev' x' rest' g',
    det p = true ->
    Matches ml p prev' x' rest' g' ->
    x ++ rest = x' ++ rest' ->
    x = x' /\ rest = rest' /\ g = g'.
Proof.
  induction 1 as [prev rest|p prev x rest g Hb _ IH|p prev x rest g Hb _ IH
                 |l p prev x rest g _ IH|cap c lo hi p prev y x rest g Hlo Hhi Hy HM IH];
    intros prev' x' rest' g' Hd H' Heq; inversion H'; subst; clear H'; simpl in *.
  - done.
  - eapply IH; eauto.
  - eapply IH; eauto.
  - rewrite <- !app_assoc in Heq. apply app_inv_head in Heq.
    edestruct IH as (-> & -> & ->); eauto.
  - apply andb_true_iff in Hd as [Hd1 Hd2].
    rewrite <- !app_assoc in Heq.
    assert (length y = length y0) as Hlen.
    { apply orb_true_iff in Hd1 as [Hd1|Hd1].
      - destruct hi as [h|]; [|done]. apply Nat.eqb_eq in Hd1. subst h.
        match goal with H : forall h, Some _ = Some h -> length y0 <= h |- _ =>
          specialize (H lo eq_refl) end.
        specialize (Hhi lo eq_refl). lia.
      - destruct p as [|[| [|b l] | |] p]; try done.
        apply negb_true_iff in Hd1.
        inversion HM; subst.
        match goal with H : Matches _ (Lit (b :: l) :: p) (prev_after prev' y0) _ _ _ |- _ =>
          inversion H; subst end.
        match type of Heq with
        | y ++ ?t = ?y' ++ ?t' =>
            assert (run c (y ++ t) = length y) as E1
              by (simpl; by apply run_stop);
            assert (run c (y' ++ t') = length y') as E2
              by (simpl; by apply run_stop)
        end.
        rewrite Heq in E1. congruence. }
    apply app_inj_1 in Heq as [-> Heq]; [|done].
    edestruct IH as (-> & -> & ->); eauto.
Qed.

(** ** [re.search] *)

Lemma prev_after_cons prev a x : prev_after prev (a :: x) = prev_after (Some a) x.
Proof.
  unfold prev_after. rewrite last_cons. by destruct (last x).
Qed.

(** A match at a position, with none at any position before it, is the
    one [re.search] returns. *)
Lemma search_from_found p pre : forall i prev tail caps rest,
  (forall pre1 tail1, pre = pre1 ++ tail1 -> tail1 <> [] ->
     match_here ml p (prev_after prev pre1) (tail1 ++ tail) [] = None) ->
  match_here ml p (prev_after prev pre) tail [] = Some (caps, rest) ->
  search_from ml p i prev (pre ++ tail)
  = Some (mkMatch (i + length pre) (i + length pre + (length tail - length rest)) caps).
Proof.
  induction pre as [|a pre IH]; intros i prev tail caps rest Hbefore Hm.
  - rewrite prev_after_nil in Hm. simpl.
    destruct tail as [|b tail]; simpl in *; rewrite Hm; do 2 f_equal; lia.
  - pose proof (Hbefore [] (a :: pre) eq_refl ltac:(done)) as H0.
    rewrite prev_after_nil in H0. simpl in *. rewrite H0.
    rewrite (IH (S i) (Some a) tail caps rest).
    + do 2 f_equal; lia.
    + intros pre1 tail1 -> Hne. rewrite <- (prev_after_cons prev).
      apply (Hbefore (a :: pre1) tail1); done.
    + by rewrite <- (prev_after_cons prev).
Qed.

Lemma search_from_Some p : forall s i prev m,
  search_from ml p i prev s = Some m ->
  exists pre tail rest,
    s = pre ++ tail /\
    match_here ml p (prev_after prev pre) tail [] = Some (m_groups m, rest) /\
    m_start m = i + length pre /\
    m_end m = i + length pre + (length tail - length rest) /\
    (forall pre1 tail1, pre = pre1 ++ tail1 -> tail1 <> [] ->
       match_here ml p (prev_after prev pre1) (tail1 ++ tail) [] = None).
Proof.
  induction s as [|a s IH]; intros i prev m H; simpl in H.
  - destruct (match_here ml p prev [] []) as [[caps rest]|] eqn:E; [|done].
    injection H as <-. exists [], [], rest. simpl.
    repeat split; [done|lia|lia|]. intros [|] [|]; done.
  - destruct (match_here ml p prev (a :: s) []) as [[caps rest]|] eqn:E.
    + injection H as <-. exists [], (a :: s), rest. simpl.
      repeat split; [done|lia|lia|]. intros [|] [|]; done.
    + apply IH in H as (pre & tail & rest & -> & Hm & Hs & He & Hb).
      exists (a :: pre), tail, rest. simpl. rewrite prev_after_cons.
      repeat split; [done|lia|lia|].
      intros [|b pre1] tail1 Heq Hne; simpl in *.
      * subst tail1. by rewrite prev_after_nil.
      * injection Heq as <- ->. rewrite prev_after_cons. by apply Hb.
Qed.

Lemma search_from_None p : forall s i prev,
  search_from ml p i prev s = None <->
  (forall pre tail, s = pre ++ tail ->
     match_here ml p (prev_after prev pre) tail [] = None).
Proof.
  induction s as [|a s IH]; intros i prev; simpl.
  - destruct (match_here ml p prev [] []) as [[caps rest]|] eqn:E.
    + split; [done|]. intros H. specialize (H [] [] eq_refl). rewrite prev_after_nil in H. congruence.
    + split; [|done]. intros _ [|] [|]; done.
  - destruct (match_here ml p prev (a :: s) []) as [[caps rest]|] eqn:E.
    + split; [done|]. intros H. specialize (H [] (a :: s) eq_refl). rewrite prev_after_nil in H. congruence.
    + rewrite IH. split.
      * intros H [|b pre] tail Heq; simpl in *.
        -- by subst tail.
        -- injection Heq as <- ->. rewrite prev_after_cons. by apply H.
      * intros H pre tail ->. rewrite <- (prev_after_cons prev). by apply (H (a :: pre) tail).
Qed.

(** [re.search] finds a match exactly when the pattern matches somewhere. *)
Lemma search_from_is_Some p s i prev :
  is_Some (search_from ml p i prev s) <->
  exists pre x rest g, s = pre ++ x ++ rest /\ Matches ml p (prev_after prev pre) x rest g.
Proof.
  split.
  - intros [m Hm]. apply search_from_Some in Hm as (pre & tail & rest & -> & Hm & _).
    apply match_here_sound in Hm as (x & g & -> & _ & HM). eauto 10.
  - intros (pre & x & rest & g & -> & HM).
    destruct (search_from ml p i prev (pre ++ x ++ rest)) eqn:E; [eauto|].
    rewrite search_from_None in E. specialize (E pre (x ++ rest) eq_refl).
    by apply match_here_None with (g := g) in E.
Qed.

End Engine.

(** ** [re.sub] *)

Section Sub.

Lemma sub_go_bol_tail p : forall s a k,
  sub_go (Bol :: p) (Some a) s k = drop k s.
Proof.
  induction s as [|b s IH]; intros a k; simpl.
  - by rewrite drop_nil.
  - destruct k as [|k]; simpl; [|apply IH].
    rewrite IH. by rewrite drop_0.
Qed.

(** An anchored pattern deletes at most one match, at the start. *)
Lemma re_sub_bol p s :
  re_sub_empty (Bol :: p) s =
  match match_here false (Bol :: p) None s [] with
  | Some (_, rest) => rest
  | None => s
  end.
Proof.
  unfold re_sub_empty. destruct s as [|a s].
  - simpl. destruct (match_here false p None [] []) as [[caps rest]|] eqn:E; [|done].
    apply match_here_sound in E as (x & g & Hs & _).
    symmetry in Hs. by apply app_eq_nil in Hs as [_ ->].
  - cbn [sub_go].
    destruct (match_here false (Bol :: p) None (a :: s) []) as [[caps rest]|] eqn:E.
    + apply match_here_sound in E as (x & g & Hs & _).
      destruct (length (a :: s) - length rest) as [|k] eqn:Hk.
      * rewrite sub_go_bol_tail, drop_0.
        rewrite Hs, length_app in Hk. destruct x; simpl in *; [done|lia].
      * rewrite sub_go_bol_tail.
        rewrite Hs, length_app in Hk.
        assert (S k = length x) as Hx by lia.
        destruct x as [|b x]; [done|]. simpl in Hs, Hx.
        injection Hs as -> ->. injection Hx as ->. by rewrite drop_app_length.
    + by rewrite sub_go_bol_tail, drop_0.
Qed.

(** Where the pattern matches nowhere, nothing is deleted. *)
Lemma sub_go_id p : forall s prev,
  (forall pre tail, s = pre ++ tail -> tail <> [] ->
     match_here false p (prev_after prev pre) tail [] = None) ->
  sub_go p prev s 0 = s.
Proof.
  induction s as [|a s IH]; intros prev H; simpl; [done|].
  pose proof (H [] (a :: s) eq_refl ltac:(done)) as H0.
  rewrite prev_after_nil in H0. simpl in H0. rewrite H0. f_equal. apply IH.
  intros pre tail -> Hne. rewrite <- (prev_after_cons prev). by apply (H (a :: pre) tail).
Qed.

(** A pattern that starts with a literal character deletes nothing from
    a text without that character. *)
Lemma re_sub_lit_absent c l p s :
  c ∉ s -> re_sub_empty (Lit (c :: l) :: p) s = s.
Proof.
  intros Hc. apply sub_go_id. intros pre [|b tail] -> Hne; [done|].
  simpl. destruct (chr_eqb c b) eqn:E; [|done].
  apply chr_eqb_eq in E as ->. exfalso. apply Hc. set_solver.
Qed.

(** Every pattern [_clean_line] substitutes consumes at least one
    character, so none of them has a match of width 0. *)
Lemma cleaner_patterns_consume :
  Forall (fun p => 0 < min_width p)
    [timestamp_prefix_re; ansi_re; reset_re; clear_re; cursor_re; bullet_re].
Proof. repeat constructor; vm_compute; lia. Qed.

End Sub.

(** * Properties of the text functions *)

Section Text.

Lemma rstrip_split s : exists w, s = rstrip s ++ w /\ spaces w.
Proof.
  induction s as [|a s (w & Hs & Hw)]; simpl.
  - exists []. split; [done|constructor].
  - destruct (rstrip s) as [|b r] eqn:E.
    + simpl in Hs. subst w. destruct (isspace a) eqn:Ha.
      * exists (a :: s). split; [done|by constructor].
      * exists s. split; [done|done].
    + exists w. split; [|done]. simpl. f_equal. exact Hs.
Qed.

Lemma rstrip_last s :
  rstrip s = [] \/ exists r b, rstrip s = r ++ [b] /\ isspace b = false.
Proof.
  induction s as [|a s IH]; simpl; [by left|].
  destruct (rstrip s) as [|c r] eqn:E.
  - destruct (isspace a) eqn:Ha; [by left|]. right. by exists [], a.
  - right. destruct IH as [|(r' & b & Hr & Hb)]; [done|].
    exists (a :: r'), b. split; [|done]. simpl. by rewrite Hr.
Qed.

Lemma rstrip_snoc s b : isspace b = false -> rstrip (s ++ [b]) = s ++ [b].
Proof.
  intros Hb. induction s as [|a s IH]; simpl.
  - by rewrite Hb.
  - rewrite IH. by destruct s.
Qed.

Lemma rstrip_idem s : rstrip (rstrip s) = rstrip s.
Proof.
  destruct (rstrip_last s) as [->|(r & b & -> & Hb)]; [done|].
  by apply rstrip_snoc.
Qed.

Lemma rstrip_head a s :
  isspace a = false -> exists r, rstrip (a :: s) = a :: r.
Proof.
  intros Ha. simpl. destruct (rstrip s); rewrite ?Ha; eauto.
Qed.

Lemma lstrip_head s :
  lstrip s = [] \/ exists a r, lstrip s = a :: r /\ isspace a = false.
Proof.
  induction s as [|a s IH]; simpl; [by left|].
  destruct (isspace a) eqn:Ha; [done|]. right. eauto.
Qed.

Lemma lstrip_id a s : isspace a = false -> lstrip (a :: s) = a :: s.
Proof. intros Ha. simpl. by rewrite Ha. Qed.

Lemma strip_idem s : strip (strip s) = strip s.
Proof.
  unfold strip. destruct (lstrip_head s) as [->|(a & r & -> & Ha)]; [done|].
  destruct (rstrip_head a r Ha) as [r' Hr]. rewrite Hr.
  rewrite lstrip_id by done. rewrite <- Hr. apply rstrip_idem.
Qed.

Lemma strip_stripped s : stripped (strip s).
Proof. apply strip_idem. Qed.

Lemma stripped_head a s : stripped (a :: s) -> isspace a = false.
Proof.
  unfold stripped, strip. intros H. destruct (isspace a) eqn:Ha; [|done].
  exfalso. simpl in H. rewrite Ha in H.
  assert (length (rstrip (lstrip s)) <= length s) as Hlen.
  { clear. transitivity (length (lstrip s)).
    - destruct (rstrip_split (lstrip s)) as (w & Hs & _).
      rewrite Hs at 2. rewrite length_app. lia.
    - induction s as [|b s IH]; simpl; [lia|]. destruct (isspace b); simpl; lia. }
  rewrite H in Hlen. simpl in Hlen. lia.
Qed.

Lemma stripped_last s b : stripped (s ++ [b]) -> isspace b = false.
Proof.
  unfold stripped, strip. intros H.
  destruct (rstrip_last (lstrip (s ++ [b]))) as [E|(r & c & E & Hc)];
    rewrite E in H.
  - by destruct s.
  - apply app_inj_tail in H as [_ ->]. done.
Qed.

Lemma stripped_intro s :
  (s = [] \/ exists a r, s = a :: r /\ isspace a = false) ->
  (s = [] \/ exists r b, s = r ++ [b] /\ isspace b = false) ->
  stripped s.
Proof.
  unfold stripped, strip.
  intros [->|(a & r & -> & Ha)] [Hn|(r' & b & Hr & Hb)]; try done.
  rewrite lstrip_id by done. rewrite Hr. by apply rstrip_snoc.
Qed.

(** *** Tokens *)

Lemma words_aux_app_space x : forall cur c y,
  isspace c = true ->
  words_aux cur (x ++ c :: y) = words_aux cur x ++ words y.
Proof.
  induction x as [|a x IH]; intros cur c y Hc; simpl.
  - by rewrite Hc.
  - destruct (isspace a); [|by apply IH].
    rewrite IH by done. by rewrite app_assoc.
Qed.

Lemma words_app_space x c y :
  isspace c = true -> words (x ++ c :: y) = words x ++ words y.
Proof. apply words_aux_app_space. Qed.

Lemma words_aux_nonspace x : forall cur,
  nonspace x -> words_aux cur x = flush (cur ++ x).
Proof.
  induction x as [|a x IH]; intros cur Hx; simpl.
  - by rewrite app_nil_r.
  - inversion Hx as [|? ? Ha Hx']; subst. rewrite Ha.
    rewrite IH by done. by rewrite <- app_assoc.
Qed.

Lemma words_nonspace x : nonspace x -> x <> [] -> words x = [x].
Proof.
  intros Hx Hne. unfold words. rewrite words_aux_nonspace by done.
  simpl. by destruct x.
Qed.

Lemma words_spaces_app w y : spaces w -> words (w ++ y) = words y.
Proof.
  induction 1 as [|c w Hc _ IH]; [done|].
  unfold words in *. simpl. by rewrite Hc.
Qed.

Lemma words_spaces w : spaces w -> words w = [].
Proof.
  intros H. rewrite <- (app_nil_r w). by rewrite words_spaces_app.
Qed.

Lemma words_app_spaces x w : spaces w -> words (x ++ w) = words x.
Proof.
  intros Hw. destruct w as [|c w]; [by rewrite app_nil_r|].
  inversion Hw; subst.
  rewrite words_app_space by done. rewrite (words_spaces w) by done.
  by rewrite app_nil_r.
Qed.

Lemma words_aux_nil x : forall cur,
  words_aux cur x = [] -> cur = [] /\ spaces x.
Proof.
  induction x as [|a x IH]; intros cur H; simpl in H.
  - split; [by destruct cur|constructor].
  - destruct (isspace a) eqn:Ha.
    + apply app_eq_nil in H as [H1 H2]. apply IH in H2 as [_ H2].
      split; [by destruct cur|by constructor].
    + apply IH in H as [H _]. by destruct cur.
Qed.

Lemma words_nil x : words x = [] -> spaces x.
Proof. intros H. by apply words_aux_nil in H as [_ H]. Qed.

(** Two tokens, with white space between and after them. *)
Lemma words_two a w b w' :
  nonspace a -> a <> [] -> spaces w -> w <> [] ->
  nonspace b -> b <> [] -> spaces w' ->
  words (a ++ w ++ b ++ w') = [a; b].
Proof.
  intros Ha Hane Hw Hwne Hb Hbne Hw'.
  destruct w as [|c w]; [done|]. inversion Hw; subst.
  simpl. rewrite words_app_space by done.
  rewrite words_nonspace by done. rewrite words_spaces_app by done.
  destruct w' as [|c' w'].
  - rewrite app_nil_r. by rewrite words_nonspace.
  - inversion Hw'; subst. rewrite words_app_space by done.
    rewrite words_nonspace by done. by rewrite (words_spaces w').
Qed.

(** A text has no white space, or splits at its last white space. *)
Lemma split_last_space s :
  nonspace s \/
  exists x c y, s = x ++ c :: y /\ isspace c = true /\ nonspace y.
Proof.
  induction s as [|a s IH]; [left; constructor|].
  destruct IH as [Hs|(x & c & y & -> & Hc & Hy)].
  - destruct (isspace a) eqn:Ha.
    + right. exists [], a, s. done.
    + left. by constructor.
  - right. exists (a :: x), c, y. done.
Qed.

(** The last two tokens of a stripped text, and what is before them. *)
Lemma words_last_two s ts a b :
  stripped s -> words s = ts ++ [a; b] ->
  exists pre w,
    s = pre ++ a ++ w ++ b /\
    (pre = [] \/ exists pre' c, pre = pre' ++ [c] /\ isspace c = true) /\
    nonspace a /\ a <> [] /\ spaces w /\ w <> [] /\ nonspace b /\ b <> [].
Proof.
  intros Hs Hw.
  destruct (split_last_space s) as [Hn|(x & c & y & -> & Hc & Hy)].
  { destruct s as [|a0 s]; [by destruct ts|].
    rewrite words_nonspace in Hw by done. by destruct ts as [|? [|? ?]]. }
  assert (y <> []) as Hyne.
  { intros ->. apply stripped_last in Hs. congruence. }
  rewrite words_app_space, (words_nonspace y) in Hw by done.
  replace (ts ++ [a; b]) with ((ts ++ [a]) ++ [b]) in Hw
    by (by rewrite <- app_assoc).
  apply app_inj_tail in Hw as [Hx ->].
  destruct (rstrip_split x) as (w0 & Hx0 & Hw0).
  rewrite Hx0 in Hx. 
  assert (words (rstrip x) = ts ++ [a]) as Hx1.
  { rewrite <- Hx. by rewrite words_app_spaces. }
  destruct (rstrip_last x) as [E|(r & d & E & Hd)].
  { rewrite E in Hx1. by destruct ts. }
  destruct (split_last_space (rstrip x)) as [Hn|(x2 & c2 & y2 & E2 & Hc2 & Hy2)].
  - rewrite words_nonspace in Hx1 by (done || rewrite E; by destruct r).
    destruct ts as [|? [|? ?]]; try done. injection Hx1 as <-.
    exists [], (w0 ++ [c]). rewrite Hx0 at 1. simpl.
    repeat split; try done.
    + by rewrite <- !app_assoc.
    + by left.
    + rewrite E. by destruct r.
    + apply Forall_app. split; [done|]. by repeat constructor.
    + by destruct w0.
  - assert (y2 <> []) as Hy2ne.
    { intros ->. rewrite E in E2. apply app_inj_tail in E2 as [_ ->]. congruence. }
    rewrite E2, words_app_space, (words_nonspace y2) in Hx1 by done.
    apply app_inj_tail in Hx1 as [_ ->].
    exists (x2 ++ [c2]), (w0 ++ [c]). rewrite Hx0 at 1. rewrite E2.
    repeat split; try done.
    + by rewrite <- !app_assoc.
    + right. eauto.
    + apply Forall_app. split; [done|]. by repeat constructor.
    + by destruct w0.
Qed.

Lemma words_single s a :
  stripped s -> words s = [a] -> s = a /\ nonspace a /\ a <> [].
Proof.
  intros Hs Hw.
  destruct (split_last_space s) as [Hn|(x & c & y & -> & Hc & Hy)].
  - destruct s as [|a0 s]; [done|].
    rewrite words_nonspace in Hw by done. injection Hw as <-. done.
  - exfalso.
    assert (y <> []) as Hyne.
    { intros ->. apply stripped_last in Hs. congruence. }
    rewrite words_app_space, (words_nonspace y) in Hw by done.
    destruct (words x) as [|? [|? ?]] eqn:Ex; try done.
    apply words_nil in Ex.
    destruct x as [|a0 x].
    + simpl in Hs. apply stripped_head in Hs. congruence.
    + simpl in Hs. apply stripped_head in Hs. inversion Ex; subst. congruence.
Qed.

End Text.

(** * The patterns of the classifier *)

Ltac inv_matches :=
  repeat match goal with
    | H : Matches _ [] _ _ _ _ |- _ => inversion H; subst; clear H
    | H : Matches _ (_ :: _) _ _ _ _ |- _ => inversion H; subst; clear H
    end.

Ltac nonempty_from_length :=
  repeat match goal with
    | H : 1 <= length ?y |- _ =>
        assert (y <> []) by (intros ->; simpl in H; lia); clear H
    end.

Section Patterns.

Lemma mem_nonspace y :
  Forall (fun a => cls_mem NonSpace a = true) y <-> nonspace y.
Proof.
  unfold nonspace. apply Forall_iff. intros a. simpl. apply negb_true_iff.
Qed.

Lemma mem_space y :
  Forall (fun a => cls_mem Space a = true) y <-> spaces y.
Proof. done. Qed.

Lemma at_eol_spaces rest : at_eol false rest = true -> spaces rest.
Proof.
  destruct rest as [|a [|b rest]]; simpl; [constructor| |].
  - rewrite andb_true_r. intros ->%chr_eqb_eq. by repeat constructor.
  - by rewrite andb_false_r.
Qed.

Lemma at_eol_stripped s rest :
  stripped (s ++ rest) -> at_eol false rest = true -> rest = [].
Proof.
  destruct rest as [|a [|b rest]]; simpl; [done| |].
  - rewrite andb_true_r. intros Hs ->%chr_eqb_eq.
    by apply stripped_last in Hs.
  - by rewrite andb_false_r.
Qed.

(** [(\S+)\s+(\S+)\s*$] matches two tokens up to the end. *)
Lemma found_externally_shape prev x rest g :
  Matches false found_externally_re prev x rest g ->
  exists a w b w',
    x = a ++ w ++ b ++ w' /\ g = [a; b] /\
    nonspace a /\ a <> [] /\ spaces w /\ w <> [] /\
    nonspace b /\ b <> [] /\ spaces w' /\ at_eol false rest = true.
Proof.
  unfold found_externally_re, group_plus, plus, star. intros H. inv_matches.
  nonempty_from_length.
  repeat match goal with H : Forall _ _ |- _ => apply mem_nonspace in H end.
  simpl in *. rewrite app_nil_r. eauto 20.
Qed.

Lemma found_externally_match prev a w b :
  nonspace a -> a <> [] -> spaces w -> w <> [] -> nonspace b -> b <> [] ->
  Matches false found_externally_re prev (a ++ w ++ b) [] [a; b].
Proof.
  intros Ha Hane Hw Hwne Hb Hbne.
  unfold found_externally_re, group_plus, plus, star.
  assert (forall y : str, y <> [] -> 1 <= length y) as Hlen
    by (intros [|? ?]; simpl; [done|lia]).
  assert (forall q, Matches false [Rep false Space 0 None; Eol] q [] [] []) as H1.
  { intros q.
    apply (M_rep false false Space 0 None [Eol] q [] [] [] []);
      [simpl; lia|done|constructor|].
    apply M_eol; [done|]. constructor. }
  assert (forall q, Matches false [Rep true NonSpace 1 None; Rep false Space 0 None; Eol]
                      q b [] [b]) as H2.
  { intros q.
    pose proof (M_rep false true NonSpace 1 None _ q b [] [] [] (Hlen b Hbne)
                  ltac:(done) (proj2 (mem_nonspace b) Hb) (H1 _)) as H.
    by rewrite app_nil_r in H. }
  apply (M_rep false true); [by apply Hlen|done|by apply mem_nonspace|].
  apply (M_rep false false); [by apply Hlen|done|done|]. apply H2.
Qed.

(** [(\S+) (\S+)$] matches two tokens, one space apart, up to the end. *)
Lemma name_version_shape prev x rest g :
  Matches false name_version_re prev x rest g ->
  exists a b,
    x = a ++ txt " " ++ b /\ g = [a; b] /\
    nonspace a /\ a <> [] /\ nonspace b /\ b <> [] /\ at_eol false rest = true.
Proof.
  unfold name_version_re, group_plus. intros H. inv_matches.
  nonempty_from_length.
  repeat match goal with H : Forall _ _ |- _ => apply mem_nonspace in H end.
  simpl in *. rewrite app_nil_r. eauto 20.
Qed.

Lemma name_version_match prev a b :
  nonspace a -> a <> [] -> nonspace b -> b <> [] ->
  Matches false name_version_re prev (a ++ txt " " ++ b) [] [a; b].
Proof.
  intros Ha Hane Hb Hbne.
  unfold name_version_re, group_plus.
  assert (forall y : str, y <> [] -> 1 <= length y) as Hlen
    by (intros [|? ?]; simpl; [done|lia]).
  assert (forall q, Matches false [Rep true NonSpace 1 None; Eol] q b [] [b]) as H2.
  { intros q.
    assert (Matches false [Eol] (prev_after q b) [] [] []) as H1
      by (apply M_eol; [done|]; constructor).
    pose proof (M_rep false true NonSpace 1 None _ q b [] [] [] (Hlen b Hbne)
                  ltac:(done) (proj2 (mem_nonspace b) Hb) H1) as H.
    by rewrite app_nil_r in H. }
  apply (M_rep false true); [by apply Hlen|done|by apply mem_nonspace|].
  apply M_lit. apply H2.
Qed.

(** [(\S+) (\S+)  \((\S+) BUILT LOCALLY\)$] *)
Lemma built_locally_shape prev x rest g :
  Matches false built_locally_re prev x rest g ->
  exists a b c,
    x = a ++ txt " " ++ b ++ txt "  (" ++ c ++ txt " BUILT LOCALLY)" /\
    g = [a; b; c] /\
    nonspace a /\ a <> [] /\ nonspace b /\ b <> [] /\ nonspace c /\ c <> [] /\
    at_eol false rest = true.
Proof.
  unfold built_locally_re, group_plus. intros H. inv_matches.
  nonempty_from_length.
  repeat match goal with H : Forall _ _ |- _ => apply mem_nonspace in H end.
  simpl in *. eauto 20.
Qed.

Lemma built_locally_match prev a b c :
  nonspace a -> a <> [] -> nonspace b -> b <> [] -> nonspace c -> c <> [] ->
  Matches false built_locally_re prev
    (a ++ txt " " ++ b ++ txt "  (" ++ c ++ txt " BUILT LOCALLY)") [] [a; b; c].
Proof.
  intros Ha Hane Hb Hbne Hc Hcne.
  unfold built_locally_re, group_plus.
  assert (forall y : str, y <> [] -> 1 <= length y) as Hlen
    by (intros [|? ?]; simpl; [done|lia]).
  apply (M_rep false true); [by apply Hlen|done|by apply mem_nonspace|].
  apply M_lit.
  apply (M_rep false true); [by apply Hlen|done|by apply mem_nonspace|].
  apply M_lit.
  apply (M_rep false true); [by apply Hlen|done|by apply mem_nonspace|].
  change (txt " BUILT LOCALLY)") with (txt " BUILT LOCALLY)" ++ []).
  apply M_lit. apply M_eol; [done|]. constructor.
Qed.

(** Where a pattern only ever matches two tokens up to the end of the
    text, [re.search] returns the last two tokens of the text. *)
Lemma search_last_two p pre a w b :
  (forall prev x rest g,
      Matches false p prev x rest g ->
      exists a' w1 b' w2,
        x ++ rest = a' ++ w1 ++ b' ++ w2 /\ g = [a'; b'] /\
        nonspace a' /\ a' <> [] /\ spaces w1 /\ w1 <> [] /\
        nonspace b' /\ b' <> [] /\ spaces w2) ->
  (pre = [] \/ exists pre' c, pre = pre' ++ [c] /\ isspace c = true) ->
  nonspace a -> a <> [] -> spaces w -> w <> [] -> nonspace b -> b <> [] ->
  (exists g, Matches false p (prev_after None pre) (a ++ w ++ b) [] g) ->
  exists m,
    re_search false p (pre ++ a ++ w ++ b) = Some m /\ m_groups m = [a; b].
Proof.
  intros Hshape Hpre Ha Hane Hw Hwne Hb Hbne [g HM].
  assert (words (a ++ w ++ b) = [a; b]) as Hwords.
  { pose proof (words_two a w b [] Ha Hane Hw Hwne Hb Hbne ltac:(constructor)) as H.
    by rewrite app_nil_r in H. }
  destruct (match_here_complete false p _ _ _ _ [] HM) as [[caps rest] Hm].
  rewrite app_nil_r in Hm.
  assert (caps = [a; b]) as ->.
  { apply match_here_sound in Hm as (x & g' & Hx & -> & HM').
    apply Hshape in HM' as (a' & w1 & b' & w2 & Heq & -> & ? & ? & ? & ? & ? & ? & ?).
    rewrite <- Hx in Heq. rewrite Heq in Hwords.
    rewrite words_two in Hwords by done. by injection Hwords as -> ->. }
  assert (search_from false p 0 None (pre ++ a ++ w ++ b)
          = Some (mkMatch (0 + length pre)
                    (0 + length pre + (length (a ++ w ++ b) - length rest)) [a; b]))
    as Hs; [|eexists; split; [exact Hs|done]].
  apply search_from_found.
  - intros pre1 tail1 Hsplit Hne.
    destruct (match_here false p (prev_after None pre1) (tail1 ++ a ++ w ++ b) [])
      as [[caps rest']|] eqn:E; [exfalso|done].
    apply match_here_sound in E as (x & g' & Hx & _ & HM').
    apply Hshape in HM' as (a' & w1 & b' & w2 & Heq & _ & Ha' & Ha'ne & ? & ? & ? & ? & ?).
    rewrite <- Hx in Heq.
    destruct Hpre as [->|(pre' & c & -> & Hc)]; [by destruct pre1, tail1|].
    destruct tail1 as [|c0 t _] using rev_ind; [done|].
    rewrite app_assoc in Hsplit. apply app_inj_tail in Hsplit as [_ <-].
    assert (words (t ++ c :: a ++ w ++ b) = words t ++ [a; b]) as Hw1.
    { rewrite words_app_space by done. by rewrite Hwords. }
    rewrite <- app_assoc in Heq. simpl in Heq. rewrite Heq in Hw1.
    rewrite words_two in Hw1 by done.
    assert (words t = []) as Ht.
    { apply (f_equal length) in Hw1. rewrite length_app in Hw1. simpl in Hw1.
      destruct (words t); [done|simpl in Hw1; lia]. }
    apply words_nil in Ht.
    destruct a' as [|h a']; [done|]. inversion Ha'; subst.
    destruct t as [|h' t]; simpl in Heq.
    + injection Heq as <- _. congruence.
    + injection Heq as <- _. inversion Ht; subst. congruence.
  - exact Hm.
Qed.

End Patterns.

(** * The classifier *)

Section Classifier.

Lemma clean_line_stripped line : stripped (_clean_line line).
Proof. unfold _clean_line. apply strip_stripped. Qed.

Lemma data_line_inv line :
  is_data_line line = true ->
  is_empty (_clean_line line) = false /\
  is_header (_clean_line line) = false /\
  contains (txt "dependencies") (lower (_clean_line line)) = false.
Proof.
  unfold is_data_line. cbv zeta. intros H.
  apply andb_true_iff in H as [H H3]. apply andb_true_iff in H as [H1 H2].
  by apply negb_true_iff in H1, H2, H3.
Qed.

Lemma header_false_inv cl :
  is_header cl = false ->
  contains (txt "the following dependencies found externally:") (lower cl) = false /\
  contains (txt "the following dependencies were found but were too old:")
    (lower cl) = false /\
  contains (txt "the following dependencies were not found") (lower cl) = false.
Proof.
  unfold is_header. intros H.
  apply orb_false_iff in H as [H H3]. by apply orb_false_iff in H as [H1 H2].
Qed.

(** A data line under a set cursor reaches the probes. *)
Lemma loop_body_data st line :
  is_data_line line = true -> truthy (current_section st) = true ->
  loop_body st line
  = record_entry (probe st (_clean_line line)) (_clean_line line).
Proof.
  intros (H1 & (H2 & H3 & H4)%header_false_inv & H5)%data_line_inv Ht.
  unfold loop_body. cbv zeta. by rewrite H1, H2, H3, H4, Ht, H5.
Qed.

(** A line without a header is skipped or is a data line under a set
    cursor. *)
Lemma loop_body_no_header st line :
  is_header (_clean_line line) = false ->
  loop_body st line = Ok st \/
  (is_data_line line = true /\ truthy (current_section st) = true).
Proof.
  intros Hh. pose proof Hh as (H2 & H3 & H4)%header_false_inv.
  unfold loop_body, is_data_line. cbv zeta. rewrite Hh, H2, H3, H4.
  destruct (is_empty (_clean_line line)); [by left|].
  destruct (truthy (current_section st)); [|by left].
  destruct (contains (txt "dependencies") _); [by left|by right].
Qed.

Lemma record_entry_match d k vm m g1 g2 l cl :
  vm = Bound (Some m) -> m_groups m = [g1; g2] -> d !! k = Some l ->
  record_entry (mkState d (Some k) vm) cl
  = Ok (mkState (<[k := l ++ [mkEntry g1 (Some g2)] ]> d) (Some k) vm).
Proof.
  intros -> Hg Hl. unfold record_entry, group, append_entry. simpl.
  by rewrite Hg, Hl.
Qed.

Lemma record_entry_no_match d k vm l cl :
  vm = Bound None -> d !! k = Some l ->
  record_entry (mkState d (Some k) vm) cl
  = Ok (mkState (<[k := l ++ [mkEntry cl None] ]> d) (Some k) vm).
Proof.
  intros -> Hl. unfold record_entry, append_entry. simpl. by rewrite Hl.
Qed.

(** No token pattern matches inside a single token. *)
Lemma found_externally_search_token s :
  nonspace s -> re_search false found_externally_re s = None.
Proof.
  intros Hs. apply search_from_None. intros pre tail ->.
  destruct (match_here _ _ _ _ _) as [[caps rest]|] eqn:E; [exfalso|done].
  apply match_here_sound in E as (x & g & -> & _ & HM).
  apply found_externally_shape in HM
    as (a & w & b & w' & -> & _ & _ & _ & Hw & Hwne & _).
  destruct w as [|c w]; [done|]. inversion Hw; subst.
  unfold nonspace in Hs. rewrite !Forall_app in Hs.
  destruct Hs as (_ & (_ & Hs & _) & _).
  inversion Hs; subst. congruence.
Qed.

(** The last two tokens are what the found-externally pattern captures. *)
Lemma found_externally_search cl ts a b :
  stripped cl -> words cl = ts ++ [a; b] ->
  exists m, re_search false found_externally_re cl = Some m /\ m_groups m = [a; b].
Proof.
  intros Hs Hw.
  apply words_last_two in Hw
    as (pre & w & -> & Hpre & Ha & Hane & Hw & Hwne & Hb & Hbne); [|done].
  apply search_last_two; try done.
  - intros prev x rest g HM.
    apply found_externally_shape in HM
      as (a' & w1 & b' & w2 & -> & -> & ? & ? & ? & ? & ? & ? & ? & He).
    exists a', w1, b', (w2 ++ rest). rewrite <- !app_assoc.
    repeat split; try done. apply Forall_app. split; [done|by apply at_eol_spaces].
  - eexists. by apply found_externally_match.
Qed.

(** A line of the built-locally shape ends in the two tokens [BUILT] and
    [LOCALLY)], and these are what the name-version pattern captures. *)
Lemma name_version_search_built_locally cl :
  stripped cl ->
  is_Some (re_search false built_locally_re cl) ->
  exists m, re_search false name_version_re cl = Some m /\
            m_groups m = [txt "BUILT"; txt "LOCALLY)"].
Proof.
  intros Hs (pre & x & rest & g0 & -> & HM)%search_from_is_Some.
  apply built_locally_shape in HM
    as (a & b & c & -> & _ & _ & _ & _ & _ & _ & _ & He).
  rewrite app_assoc in Hs. apply at_eol_stripped in Hs as ->; [|done].
  replace (pre ++ (a ++ txt " " ++ b ++ txt "  (" ++ c ++ txt " BUILT LOCALLY)") ++ [])
    with ((pre ++ a ++ txt " " ++ b ++ txt "  (" ++ c ++ txt " ")
          ++ txt "BUILT" ++ txt " " ++ txt "LOCALLY)")
    by (rewrite app_nil_r, <- !app_assoc; reflexivity).
  apply search_last_two; try done; try (by repeat constructor).
  - intros prev x rest g1 HM.
    apply name_version_shape in HM as (a' & b' & -> & -> & ? & ? & ? & ? & He').
    exists a', (txt " "), b', rest. rewrite <- !app_assoc.
    repeat split; try done; [by repeat constructor|by apply at_eol_spaces].
  - right. exists (pre ++ a ++ txt " " ++ b ++ txt "  (" ++ c), " "%char.
    split; [by rewrite <- !app_assoc|done].
  - eexists. apply name_version_match; by repeat constructor.
Qed.

(** The step on a line of the built-locally shape under the not-found
    cursor. *)
Lemma reclassify_step st line l :
  current_section st = Some not_found ->
  dependencies st !! built_locally = Some l ->
  is_data_line line = true ->
  is_Some (re_search false built_locally_re (_clean_line line)) ->
  exists m,
    re_search false name_version_re (_clean_line line) = Some m /\
    m_groups m = [txt "BUILT"; txt "LOCALLY)"] /\
    loop_body st line
    = Ok (mkState
            (<[built_locally := l ++ [mkEntry (txt "BUILT") (Some (txt "LOCALLY)"))] ]>
               (dependencies st))
            (Some built_locally) (Bound (Some m))).
Proof.
  intros Hcs Hl Hd Hbl.
  destruct (name_version_search_built_locally (_clean_line line))
    as (m & Hm & Hg); [apply clean_line_stripped|done|].
  exists m. repeat split; [done..|].
  rewrite loop_body_data by (done || by rewrite Hcs).
  destruct st as [d cs vm]. simpl in *. subst cs.
  unfold probe. simpl. destruct Hbl as [m' ->]. rewrite Hm.
  by apply (record_entry_match _ _ _ m).
Qed.

(** The step on a data line under the built-locally cursor: no probe,
    and the groups of the match at hand are recorded once more. *)
Lemma built_locally_step d vm m g1 g2 l line :
  vm = Bound (Some m) -> m_groups m = [g1; g2] ->
  d !! built_locally = Some l ->
  is_data_line line = true ->
  loop_body (mkState d (Some built_locally) vm) line
  = Ok (mkState (<[built_locally := l ++ [mkEntry g1 (Some g2)] ]> d)
          (Some built_locally) vm).
Proof.
  intros Hvm Hg Hl Hd. rewrite loop_body_data by done.
  replace (probe _ _) with (mkState d (Some built_locally) vm) by done.
  by apply (record_entry_match _ _ _ m).
Qed.

End Classifier.

(** * The loop *)

Section Loop.

Lemma search_groups p s m :
  re_search false p s = Some m -> length (m_groups m) = ngroups p.
Proof.
  intros (pre & tail & rest & _ & Hm & _)%search_from_Some.
  apply match_here_sound in Hm as (x & g & _ & -> & HM).
  by apply Matches_ngroups in HM.
Qed.

Lemma keys_cases (P : string -> Prop) :
  P found_externally -> P too_old -> P built_locally -> P not_found ->
  forall k, k ∈ [found_externally; too_old; built_locally; not_found] -> P k.
Proof.
  intros ? ? ? ? k Hk.
  repeat (apply elem_of_cons in Hk as [->|Hk]; [done|]).
  by apply elem_of_nil in Hk.
Qed.

Lemma loop_inv_init : loop_inv init_state.
Proof.
  split; [|split]; try done.
  intros k. split.
  - unfold init_state, init_dependencies. simpl.
    rewrite !lookup_insert, !elem_of_cons.
    repeat (case_decide; [subst; tauto|]). simpl.
    rewrite lookup_empty. by intros [? ?].
  - revert k. apply keys_cases; by eexists.
Qed.

(** The entry the end of the loop body records, whatever the match. *)
Lemma record_entry_total d k v l cl :
  d !! k = Some l ->
  (forall m, v = Some m -> length (m_groups m) = 2) ->
  exists e,
    record_entry (mkState d (Some k) (Bound v)) cl
    = Ok (mkState (<[k := l ++ [e] ]> d) (Some k) (Bound v)) /\
    (version e = None -> package e = cl).
Proof.
  intros Hl Hv. destruct v as [m|].
  - specialize (Hv m eq_refl).
    destruct (m_groups m) as [|g1 [|g2 [|? ?]]] eqn:Hg; try done.
    exists (mkEntry g1 (Some g2)). split; [|done].
    by apply (record_entry_match _ _ _ m).
  - exists (mkEntry cl None). split; [|done]. by apply record_entry_no_match.
Qed.

(** What the probes leave in the three variables. *)
Lemma probe_inv st cl :
  loop_inv st -> truthy (current_section st) = true ->
  exists k v,
    probe st cl = mkState (dependencies st) (Some k) (Bound v) /\
    k ∈ [found_externally; too_old; built_locally; not_found] /\
    (forall m, v = Some m -> length (m_groups m) = 2).
Proof.
  intros (Hkeys & Hcs & Hbl) Ht. destruct st as [d [k|] vm]; [|done].
  simpl in *. specialize (Hcs k eq_refl). revert k Hcs Hbl Ht.
  apply (keys_cases (fun k => _ -> _ -> exists k' v, probe (mkState d (Some k) vm) cl = _ /\ _));
    intros Hbl _.
  - eexists _, _. split; [reflexivity|]. split; [rewrite !elem_of_cons; tauto|].
    intros m Hm. by apply search_groups in Hm.
  - eexists _, _. split; [reflexivity|]. split; [rewrite !elem_of_cons; tauto|].
    intros m Hm. by apply search_groups in Hm.
  - destruct (Hbl eq_refl) as (v & -> & Hv).
    exists built_locally, v. split; [done|]. split; [rewrite !elem_of_cons; tauto|done].
  - unfold probe. simpl.
    destruct (re_search false built_locally_re cl).
    + eexists _, _. split; [reflexivity|]. split; [rewrite !elem_of_cons; tauto|].
      intros m' Hm. by apply search_groups in Hm.
    + eexists _, _. split; [reflexivity|]. split; [rewrite !elem_of_cons; tauto|done].
Qed.

Lemma loop_inv_set_section st k :
  loop_inv st -> k ∈ [found_externally; too_old; not_found] ->
  loop_inv (set_section st k).
Proof.
  intros (Hkeys & Hcs & Hbl) Hk. split; [done|]. split; simpl.
  - intros k' [= <-]. rewrite !elem_of_cons in *. tauto.
  - intros [= ->]. rewrite !elem_of_cons in Hk.
    destruct Hk as [|[|[|[]%elem_of_nil]]]; done.
Qed.

Lemma loop_inv_record d k v l e :
  (forall k', is_Some (d !! k') <->
              k' ∈ [found_externally; too_old; built_locally; not_found]) ->
  k ∈ [found_externally; too_old; built_locally; not_found] ->
  (forall m, v = Some m -> length (m_groups m) = 2) ->
  loop_inv (mkState (<[k := l ++ [e] ]> d) (Some k) (Bound v)).
Proof.
  intros Hkeys Hk Hv. split; [|split]; simpl.
  - intros k'. rewrite lookup_insert. case_decide; [|by apply Hkeys].
    subst k'. split; [done|by eexists].
  - by intros k' [= <-].
  - eauto.
Qed.

(** One iteration never raises, and keeps the invariant. *)
Lemma loop_body_inv st line :
  loop_inv st -> exists st', loop_body st line = Ok st' /\ loop_inv st'.
Proof.
  intros Hinv. unfold loop_body. cbv zeta.
  destruct (is_empty (_clean_line line)); [eauto|].
  destruct (contains (txt "the following dependencies found externally:") _).
  { eexists. split; [done|]. apply loop_inv_set_section; [done|]. rewrite !elem_of_cons; tauto. }
  destruct (contains (txt "the following dependencies were found but were too old:") _).
  { eexists. split; [done|]. apply loop_inv_set_section; [done|]. rewrite !elem_of_cons; tauto. }
  destruct (contains (txt "the following dependencies were not found") _).
  { eexists. split; [done|]. apply loop_inv_set_section; [done|]. rewrite !elem_of_cons; tauto. }
  destruct (truthy (current_section st)) eqn:Ht; [|eauto]. cbn [andb negb].
  destruct (contains (txt "dependencies") _); [eauto|].
  destruct (probe_inv st (_clean_line line) Hinv Ht) as (k & v & -> & Hk & Hv).
  destruct Hinv as (Hkeys & _).
  destruct (proj2 (Hkeys k) Hk) as [l Hl].
  destruct (record_entry_total _ k v l (_clean_line line) Hl Hv) as (e & He & _).
  rewrite He.
  eexists. split; [done|]. by apply loop_inv_record.
Qed.

Lemma for_lines_inv lines : forall st,
  loop_inv st -> exists st', for_lines st lines = Ok st' /\ loop_inv st'.
Proof.
  induction lines as [|line lines IH]; intros st Hinv; simpl; [eauto|].
  destruct (loop_body_inv st line Hinv) as (st1 & -> & Hinv1). simpl.
  by apply IH.
Qed.

(** Data lines under the built-locally cursor: one more copy of the
    same entry for each. *)
Lemma built_locally_run m g1 g2 lines : forall d l,
  m_groups m = [g1; g2] ->
  d !! built_locally = Some l ->
  Forall (fun ln => is_data_line ln = true) lines ->
  for_lines (mkState d (Some built_locally) (Bound (Some m))) lines
  = Ok (mkState
          (<[built_locally := l ++ replicate (length lines) (mkEntry g1 (Some g2)) ]> d)
          (Some built_locally) (Bound (Some m))).
Proof.
  induction lines as [|line lines IH]; intros d l Hg Hl Hd; simpl.
  - rewrite app_nil_r. by rewrite insert_id.
  - inversion Hd; subst.
    rewrite (built_locally_step d _ m g1 g2 l) by done. simpl.
    rewrite (IH _ (l ++ [mkEntry g1 (Some g2)])); [|done|apply lookup_insert_eq|done].
    rewrite insert_insert_eq. by rewrite <- app_assoc.
Qed.

(** Lines without a header under the built-locally cursor leave the
    cursor alone. *)
Lemma built_locally_cursor m g1 g2 lines : forall d,
  m_groups m = [g1; g2] ->
  is_Some (d !! built_locally) ->
  Forall (fun ln => is_header (_clean_line ln) = false) lines ->
  exists d',
    for_lines (mkState d (Some built_locally) (Bound (Some m))) lines
    = Ok (mkState d' (Some built_locally) (Bound (Some m))).
Proof.
  induction lines as [|line lines IH]; intros d Hg [l Hl] Hh; simpl; [eauto|].
  inversion Hh; subst.
  destruct (loop_body_no_header (mkState d (Some built_locally) (Bound (Some m))) line)
    as [->|[Hd _]]; [done| |].
  - simpl. apply IH; eauto.
  - rewrite (built_locally_step d _ m g1 g2 l) by done. simpl.
    apply IH; [done| |done]. rewrite lookup_insert_eq. eauto.
Qed.

End Loop.

(** * The banner and the decoration *)

Ltac fix_counts :=
  repeat match goal with
    | H : forall h, Some ?n = Some h -> _ |- _ => specialize (H n eq_refl)
    end.

Ltac rep_step :=
  apply (M_rep _ false);
  [ simpl; lia | intros ? [= <-]; lia | done | ].

Section Banner.

Variable ml : bool.

Lemma stamp_shape prev x rest g :
  Matches ml timestamp_re prev x rest g -> is_stamp x /\ g = [].
Proof.
  unfold timestamp_re, times, plus. intros H. inv_matches. fix_counts.
  nonempty_from_length. split; [|done].
  eexists _, _, _, _, _, _, _. split; [reflexivity|].
  unfold digits. repeat split; (lia || done).
Qed.

Lemma stamp_match prev x rest :
  is_stamp x -> Matches ml timestamp_re prev x rest [].
Proof.
  intros (y & mo & d & h & mi & se & fr & -> &
          [? ?] & [? ?] & [? ?] & [? ?] & [? ?] & [? ?] & ? & Hfr).
  assert (1 <= length fr) by (destruct fr; simpl; [done|lia]).
  unfold timestamp_re, times, plus.
  rep_step. apply M_lit. rep_step. apply M_lit. rep_step. apply M_lit.
  rep_step. apply M_lit. rep_step. apply M_lit. rep_step. apply M_lit.
  apply (M_rep _ false); [done|done|done|].
  change (txt "Z -- ") with (txt "Z -- " ++ []). apply M_lit. constructor.
Qed.

Lemma rule_line_shape prev x rest g :
  Matches ml rule_line_re prev x rest g -> is_rule_line x /\ g = [].
Proof.
  unfold rule_line_re.
  intros (x1 & x2 & g1 & g2 & -> & -> & [H1 ->]%stamp_shape & H2)%Matches_app_inv.
  inv_matches. split; [|done]. exists x1. by rewrite app_nil_r.
Qed.

Lemma rule_line_match prev x rest :
  is_rule_line x -> Matches ml rule_line_re prev x rest [].
Proof.
  intros (ts & -> & Hts). unfold rule_line_re.
  apply (Matches_app_intro ml _ _ _ _ _ _ [] []); [by apply stamp_match|].
  apply M_lit, M_lit.
  change color_off with (color_off ++ []). apply M_lit. constructor.
Qed.

Lemma title_line_shape prev x rest g :
  Matches ml title_line_re prev x rest g -> is_title_line x /\ g = [].
Proof.
  unfold title_line_re, star.
  intros (x1 & x2 & g1 & g2 & -> & -> & [H1 ->]%stamp_shape & H2)%Matches_app_inv.
  inv_matches. split; [|done]. eexists x1, _, _.
  split; [by rewrite app_nil_r|done].
Qed.

Lemma title_line_match prev x rest :
  is_title_line x -> Matches ml title_line_re prev x rest [].
Proof.
  intros (ts & w1 & w2 & -> & Hts & Hw1 & Hw2). unfold title_line_re, star.
  apply (Matches_app_intro ml _ _ _ _ _ _ [] []); [by apply stamp_match|].
  apply M_lit, M_lit.
  apply (M_rep _ false); [simpl; lia|done|done|]. apply M_lit.
  apply (M_rep _ false); [simpl; lia|done|done|].
  change color_off with (color_off ++ []). apply M_lit. constructor.
Qed.

Lemma opening_banner_shape prev x rest g :
  Matches ml start_pattern prev x rest g -> is_opening_banner x /\ g = [].
Proof.
  unfold start_pattern.
  intros (l1 & ? & ? & ? & -> & -> & [H1 ->]%rule_line_shape & H)%Matches_app_inv.
  apply Matches_app_inv in H as (n1 & ? & ? & ? & -> & -> & Hn1 & H).
  apply Matches_app_inv
    in H as (l2 & ? & ? & ? & -> & -> & [H2 ->]%title_line_shape & H).
  apply Matches_app_inv in H as (n2 & l3 & ? & ? & -> & -> & Hn2 & H).
  apply rule_line_shape in H as [H3 ->].
  inv_matches. rewrite !app_nil_r.
  split; [|done]. by exists l1, l2, l3.
Qed.

Lemma opening_banner_match prev x rest :
  is_opening_banner x -> Matches ml start_pattern prev x rest [].
Proof.
  intros (l1 & l2 & l3 & -> & H1 & H2 & H3). unfold start_pattern.
  apply (Matches_app_intro ml _ _ _ _ _ _ [] []); [by apply rule_line_match|].
  cbn [app]. apply (M_lit ml [NL]).
  apply (Matches_app_intro ml _ _ _ _ _ _ [] []); [by apply title_line_match|].
  cbn [app]. apply (M_lit ml [NL]). by apply rule_line_match.
Qed.

(** [re.search] succeeds exactly on the texts in which the shape of the
    pattern occurs. *)
Lemma occurs_search p (P : str -> Prop) s :
  (forall prev x rest g, Matches ml p prev x rest g -> P x) ->
  (forall prev x rest, P x -> exists g, Matches ml p prev x rest g) ->
  occurs P s <-> is_Some (re_search ml p s).
Proof.
  intros Hshape Hmatch. unfold re_search. rewrite search_from_is_Some. split.
  - intros (pre & x & post & -> & HP).
    destruct (Hmatch (prev_after None pre) x post HP) as [g HM]. eauto 10.
  - intros (pre & x & post & g & -> & HM). exists pre, x, post. eauto.
Qed.

End Banner.

Lemma occurs_opening_banner s :
  occurs is_opening_banner s <-> is_Some (re_search true start_pattern s).
Proof.
  apply occurs_search.
  - intros prev x rest g HM. by apply opening_banner_shape in HM as [? _].
  - intros prev x rest HP. eexists. by apply opening_banner_match.
Qed.

Lemma occurs_rule_line s :
  occurs is_rule_line s <-> is_Some (re_search false end_pattern s).
Proof.
  apply occurs_search.
  - intros prev x rest g HM. by apply rule_line_shape in HM as [? _].
  - intros prev x rest HP. eexists. by apply rule_line_match.
Qed.

(** Deciding the shapes on a given text. *)
Lemma opening_banner_check x :
  match_here true start_pattern None x [] = Some ([], []) -> is_opening_banner x.
Proof.
  intros (x' & g & -> & _ & HM)%match_here_sound. rewrite app_nil_r.
  by apply opening_banner_shape in HM as [? _].
Qed.

(** * The section locator *)

Section Locator.

(** The first opening banner of a log is where the search for the end
    starts. *)
Lemma start_search_first pre t post :
  is_opening_banner t ->
  (forall pre' t' post',
      pre ++ t ++ post = pre' ++ t' ++ post' ->
      is_opening_banner t' -> length pre <= length pre') ->
  exists m,
    re_search true start_pattern (pre ++ t ++ post) = Some m /\
    m_end m = length pre + length t.
Proof.
  intros Hb Hfirst.
  pose proof (opening_banner_match true (prev_after None pre) t post Hb) as HM.
  destruct (match_here_complete true _ _ _ _ _ [] HM) as [[caps rest] Hm].
  assert (rest = post) as ->.
  { pose proof Hm as (x' & g & Heq & _ & HM')%match_here_sound.
    by destruct (Matches_det true _ _ _ _ _ HM _ _ _ _ eq_refl HM' Heq)
      as (_ & -> & _). }
  eexists. split.
  - apply (search_from_found true start_pattern pre 0 None (t ++ post) caps post);
      [|done].
    intros pre1 tail1 -> Hne.
    destruct (match_here true start_pattern (prev_after None pre1)
                (tail1 ++ t ++ post) []) as [[caps' rest']|] eqn:E; [exfalso|done].
    apply match_here_sound in E as (x' & g & Heq & _ & [HB _]%opening_banner_shape).
    specialize (Hfirst pre1 x' rest').
    rewrite <- app_assoc, Heq in Hfirst. specialize (Hfirst eq_refl HB).
    rewrite length_app in Hfirst. destruct tail1; [done|simpl in Hfirst; lia].
  - simpl. rewrite length_app. lia.
Qed.

Lemma error_ne_lists (d : gmap string (list entry)) msg :
  (PList <$> d : gmap string pyval) <> {[ "error" := PStr msg ]}.
Proof.
  intros H. apply (f_equal (fun m => m !! "error")) in H.
  rewrite lookup_fmap, lookup_singleton_eq in H.
  by destruct (d !! "error").
Qed.

(** What [parse_dependency_section] can return. *)
Lemma parse_result log_content r :
  parse_dependency_section log_content = Ok r ->
  r = start_not_found \/ r = end_not_found \/
  exists d, r = PList <$> d /\
            forall k, is_Some (d !! k) <->
                      k ∈ [found_externally; too_old; built_locally; not_found].
Proof.
  unfold parse_dependency_section.
  destruct (re_search true start_pattern log_content) as [m|];
    [|intros [= <-]; by left].
  destruct (re_search false end_pattern _) as [m0|];
    [|intros [= <-]; right; by left].
  unfold _parse_dependencies.
  destruct (for_lines_inv (split_nl (strip (slice log_content (m_end m)
                                             (m_end m + m_start m0))))
              init_state loop_inv_init) as (st & -> & Hkeys & _).
  simpl. intros [= <-]. right. right. eauto.
Qed.

End Locator.

(** * The line cleaner *)

Section Cleaner.

Lemma stamp_prefix_none t :
  ~ begins is_stamp t -> re_sub_empty timestamp_prefix_re t = t.
Proof.
  intros Hn. unfold timestamp_prefix_re. rewrite re_sub_bol.
  destruct (match_here false (Bol :: timestamp_re) None t [])
    as [[caps rest]|] eqn:E; [exfalso|done].
  apply match_here_sound in E as (x & g & -> & _ & HM).
  inversion HM; subst. apply Hn. exists x, rest. split; [done|].
  by eapply stamp_shape.
Qed.

Lemma bullet_shape prev x rest g :
  Matches false bullet_re prev x rest g -> is_bullet x.
Proof.
  unfold bullet_re, plus, star. intros H. inv_matches. nonempty_from_length.
  eexists _, _. split; [by rewrite app_nil_r|]. repeat split; try done.
  eapply Forall_impl; [eassumption|]. intros a Ha. by apply chr_eqb_eq.
Qed.

Lemma bullet_none t :
  ~ begins is_bullet t -> re_sub_empty bullet_re t = t.
Proof.
  intros Hn. unfold bullet_re. rewrite re_sub_bol.
  destruct (match_here false _ None t []) as [[caps rest]|] eqn:E; [exfalso|done].
  apply match_here_sound in E as (x & g & -> & _ & HM).
  apply Hn. exists x, rest. split; [done|]. by eapply bullet_shape.
Qed.

(** Each of the four escape patterns matches escape sequences only. *)
Lemma in_digits_param a :
  cls_mem (OneOf [("0", "9")]%char) a = true -> cls_mem csi_param a = true.
Proof. simpl. intros H. apply orb_true_iff in H as [H|H]; [|done]. by rewrite H. Qed.

Lemma in_abcd_final a :
  cls_mem (OneOf [("A", "A"); ("B", "B"); ("C", "C"); ("D", "D")]%char) a = true ->
  cls_mem csi_final a = true.
Proof. destruct a as [[] [] [] [] [] [] [] []]; vm_compute; done. Qed.

Lemma ansi_shape prev x rest g :
  Matches false ansi_re prev x rest g -> is_escape x.
Proof.
  unfold ansi_re, star, times. intros H. inv_matches. fix_counts.
  match goal with H : 1 <= length ?y, H' : length ?y <= 1 |- _ =>
    destruct y as [|f [|? ?]]; simpl in H, H'; try lia end.
  match goal with H : Forall _ [f] |- _ => inversion H; subst end.
  eexists _, f. split; [by rewrite app_nil_r|done].
Qed.

Lemma reset_shape prev x rest g :
  Matches false reset_re prev x rest g -> is_escape x.
Proof.
  unfold reset_re. intros H. inv_matches.
  exists [], "m"%char. by repeat split.
Qed.

Lemma clear_shape prev x rest g :
  Matches false clear_re prev x rest g -> is_escape x.
Proof.
  unfold clear_re. intros H. inv_matches.
  exists [], "K"%char. by repeat split.
Qed.

Lemma cursor_shape prev x rest g :
  Matches false cursor_re prev x rest g -> is_escape x.
Proof.
  unfold cursor_re, star, times. intros H. inv_matches. fix_counts.
  match goal with H : 1 <= length ?y, H' : length ?y <= 1 |- _ =>
    destruct y as [|f [|? ?]]; simpl in H, H'; try lia end.
  match goal with H : Forall _ [f] |- _ => inversion H; subst end.
  eexists _, f. split; [by rewrite app_nil_r|]. split.
  - eapply Forall_impl; [eassumption|]. apply in_digits_param.
  - by apply in_abcd_final.
Qed.

Lemma ansi_match prev x rest :
  is_escape x -> Matches false ansi_re prev x rest [].
Proof.
  intros (ps & f & -> & Hps & Hf). unfold ansi_re, star, times.
  apply (M_lit false (ESC :: txt "[")).
  apply (M_rep _ false); [simpl; lia|done|done|].
  change [f] with ([f] ++ []).
  apply (M_rep _ false); [simpl; lia|intros ? [= <-]; simpl; lia|by constructor|].
  constructor.
Qed.

Lemma occurs_escape s :
  occurs is_escape s <-> is_Some (re_search false ansi_re s).
Proof.
  apply occurs_search.
  - intros prev x rest g HM. by eapply ansi_shape.
  - intros prev x rest HP. eexists. by apply ansi_match.
Qed.

(** A pattern that only matches escape sequences deletes nothing from a
    text without any. *)
Lemma escape_free_sub p t :
  (forall prev x rest g, Matches false p prev x rest g -> is_escape x) ->
  ~ occurs is_escape t -> re_sub_empty p t = t.
Proof.
  intros Hshape Hn. apply sub_go_id. intros pre tail -> Hne.
  destruct (match_here false p _ tail []) as [[caps rest]|] eqn:E; [exfalso|done].
  apply match_here_sound in E as (x & g & -> & _ & HM).
  apply Hn. exists pre, x, rest. split; [done|]. by eapply Hshape.
Qed.

(** A line that is stripped, does not begin with a stamp or a bullet and
    holds no escape sequence is left as it is. *)
Lemma clean_line_fixed t :
  stripped t -> ~ begins is_stamp t -> ~ occurs is_escape t ->
  ~ begins is_bullet t -> _clean_line t = t.
Proof.
  intros Hs Hst He Hb. unfold _clean_line. cbv zeta. rewrite Hs.
  rewrite stamp_prefix_none by done.
  rewrite (escape_free_sub ansi_re) by (done || apply ansi_shape).
  rewrite (escape_free_sub reset_re) by (done || apply reset_shape).
  rewrite (escape_free_sub clear_re) by (done || apply clear_shape).
  rewrite (escape_free_sub cursor_re) by (done || apply cursor_shape).
  rewrite bullet_none by done. exact Hs.
Qed.

(** Deciding the three conditions on a given text. *)
Lemma begins_stamp_check t :
  match_here false timestamp_re None t [] = None -> ~ begins is_stamp t.
Proof.
  intros Hm (x & post & -> & Hx).
  by apply (match_here_None false _ _ _ _ [] _ Hm), stamp_match.
Qed.

Lemma begins_bullet_check t :
  starts_with (txt "--") t = false -> ~ begins is_bullet t.
Proof.
  intros Hs (x & post & -> & y & w & -> & Hy & Hne & _).
  destruct y as [|c y]; [done|]. inversion Hy; subst. done.
Qed.

Lemma occurs_escape_check t :
  re_search false ansi_re t = None -> ~ occurs is_escape t.
Proof. intros Hs [m Hm]%occurs_escape. congruence. Qed.

End Cleaner.
(** * More about the loop *)

Section LoopSteps.

Lemma probe_dependencies st cl : dependencies (probe st cl) = dependencies st.
Proof.
  unfold probe. repeat case_match; done.
Qed.

(** The five ways through the probes. *)
Lemma probe_cases st cl :
  (current_section st = Some found_externally /\
   probe st cl = mkState (dependencies st) (Some found_externally)
                   (Bound (re_search false found_externally_re cl))) \/
  (current_section st = Some too_old /\
   probe st cl = mkState (dependencies st) (Some too_old)
                   (Bound (re_search false too_old_re cl))) \/
  (current_section st = Some not_found /\
   re_search false built_locally_re cl = None /\
   probe st cl = mkState (dependencies st) (Some not_found) (Bound None)) \/
  (current_section st = Some not_found /\
   is_Some (re_search false built_locally_re cl) /\
   probe st cl = mkState (dependencies st) (Some built_locally)
                   (Bound (re_search false name_version_re cl))) \/
  (probe st cl = st /\
   current_section st <> Some found_externally /\
   current_section st <> Some too_old /\
   current_section st <> Some not_found).
Proof.
  destruct st as [d [k|] vm]; unfold probe; simpl.
  - destruct (String.eqb_spec k "dependencies_found_externally") as [->|H1];
      [by left|].
    destruct (String.eqb_spec k "dependencies_too_old") as [->|H2];
      [right; by left|].
    destruct (String.eqb_spec k "dependencies_not_found") as [->|H3].
    + destruct (re_search false built_locally_re cl) eqn:E.
      * right; right; right; left. eauto.
      * right; right; left. eauto.
    + right; right; right; right.
      unfold found_externally, too_old, not_found. repeat split; congruence.
  - right; right; right; right. done.
Qed.

(** What a successful [record_entry] has done. *)
Lemma record_entry_Ok st cl st' :
  record_entry st cl = Ok st' ->
  exists k l e,
    current_section st = Some k /\ dependencies st !! k = Some l /\
    st' = mkState (<[k := l ++ [e] ]> (dependencies st)) (Some k) (version_match st) /\
    ((version_match st = Bound None /\ e = mkEntry cl None) \/
     (exists m g1 g2,
         version_match st = Bound (Some m) /\
         m_groups m !! 0 = Some g1 /\ m_groups m !! 1 = Some g2 /\
         e = mkEntry g1 (Some g2))).
Proof.
  unfold record_entry, read, group, append_entry.
  destruct st as [d cs vm]. simpl.
  destruct vm as [|[m|]]; simpl; [done| |].
  - destruct (m_groups m !! 0) as [g1|] eqn:E1; simpl; [|done].
    destruct (m_groups m !! 1) as [g2|] eqn:E2; simpl; [|done].
    destruct cs as [k|]; [|done]. destruct (d !! k) as [l|] eqn:El; [|done].
    intros [= <-]. exists k, l, (mkEntry g1 (Some g2)).
    repeat split; try done. right. eauto 10.
  - destruct cs as [k|]; [|done]. destruct (d !! k) as [l|] eqn:El; [|done].
    intros [= <-]. exists k, l, (mkEntry cl None). repeat split; try done. by left.
Qed.

(** What a successful iteration has done: nothing, a move of the
    cursor to one of the three header sections, or one entry on record. *)
Lemma loop_body_Ok st line st' :
  loop_body st line = Ok st' ->
  st' = st \/
  (exists k, k ∈ [found_externally; too_old; not_found] /\ st' = set_section st k) \/
  (is_data_line line = true /\ truthy (current_section st) = true /\
   record_entry (probe st (_clean_line line)) (_clean_line line) = Ok st').
Proof.
  unfold loop_body. cbv zeta.
  destruct (is_empty (_clean_line line)) eqn:E0; [intros [= <-]; by left|].
  destruct (contains (txt "the following dependencies found externally:") _) eqn:E1.
  { intros [= <-]. right; left. eexists. split; [|done]. rewrite !elem_of_cons. tauto. }
  destruct (contains (txt "the following dependencies were found but were too old:") _)
    eqn:E2.
  { intros [= <-]. right; left. eexists. split; [|done]. rewrite !elem_of_cons. tauto. }
  destruct (contains (txt "the following dependencies were not found") _) eqn:E3.
  { intros [= <-]. right; left. eexists. split; [|done]. rewrite !elem_of_cons. tauto. }
  destruct (truthy (current_section st)) eqn:Ht; cbn [andb negb];
    [|intros [= <-]; by left].
  destruct (contains (txt "dependencies") _) eqn:E4; [intros [= <-]; by left|].
  intros H. right; right. repeat split; [|done].
  unfold is_data_line, is_header. cbv zeta. by rewrite E0, E1, E2, E3, E4.
Qed.

(** One iteration only adds to the lists. *)
Lemma loop_body_extends st line st' k l :
  loop_body st line = Ok st' ->
  dependencies st !! k = Some l ->
  exists l', dependencies st' !! k = Some (l ++ l').
Proof.
  intros [->|[(k' & _ & ->)|(_ & _ & H)]]%loop_body_Ok Hl.
  - exists []. by rewrite app_nil_r.
  - exists []. by rewrite app_nil_r.
  - apply record_entry_Ok in H as (k' & l0 & e & _ & Hl0 & -> & _).
    rewrite probe_dependencies in *. simpl.
    destruct (decide (k' = k)) as [->|Hne].
    + rewrite lookup_insert_eq. exists [e]. congruence.
    + rewrite lookup_insert_ne by done. exists []. by rewrite app_nil_r.
Qed.

Lemma for_lines_extends lines : forall st st' k l,
  for_lines st lines = Ok st' ->
  dependencies st !! k = Some l ->
  exists l', dependencies st' !! k = Some (l ++ l').
Proof.
  induction lines as [|line lines IH]; intros st st' k l H Hl; simpl in H.
  - injection H as <-. exists []. by rewrite app_nil_r.
  - destruct (loop_body st line) as [st1|] eqn:E; [|done]. simpl in H.
    destruct (loop_body_extends _ _ _ _ _ E Hl) as [l1 Hl1].
    destruct (IH _ _ _ _ H Hl1) as [l2 Hl2].
    exists (l1 ++ l2). by rewrite app_assoc.
Qed.

(** Without a header line the cursor stays unset and nothing is put on
    record. *)
Lemma for_lines_no_header lines : forall st,
  current_section st = None ->
  Forall (fun ln => is_header (_clean_line ln) = false) lines ->
  for_lines st lines = Ok st.
Proof.
  induction lines as [|line lines IH]; intros st Hcs Hh; [done|].
  inversion Hh; subst. simpl.
  destruct (loop_body_no_header st line) as [->|[_ Ht]]; [done| |].
  - simpl. by apply IH.
  - by rewrite Hcs in Ht.
Qed.

(** *** Header phrases *)

Lemma contains_app needle pre post :
  contains needle (pre ++ needle ++ post) = true.
Proof.
  induction pre as [|a pre IH]; simpl.
  - pose proof (starts_with_app needle post) as H.
    destruct (needle ++ post); simpl; by rewrite H.
  - rewrite IH. apply orb_true_r.
Qed.

Lemma contains_lower needle pre h post :
  lower h = needle -> contains needle (lower (pre ++ h ++ post)) = true.
Proof.
  intros <-. unfold lower. rewrite !map_app. apply contains_app.
Qed.

Lemma is_empty_app_false pre h post :
  h <> [] -> is_empty (pre ++ h ++ post) = false.
Proof. intros Hh. destruct pre; [by destruct h|done]. Qed.

(** *** The groups of the probes *)

Lemma too_old_shape prev x rest g :
  Matches false too_old_re prev x rest g ->
  exists a n,
    x = a ++ txt " (" ++ n ++ txt ")" /\ g = [a; n] /\
    nonspace a /\ a <> [] /\ Forall (fun c => c <> ")"%char) n /\ n <> [] /\
    at_eol false rest = true.
Proof.
  unfold too_old_re, group_plus. intros H. inv_matches. nonempty_from_length.
  eexists _, _. split; [reflexivity|]. repeat split; try done.
  - by apply mem_nonspace.
  - eapply Forall_impl; [eassumption|]. simpl. intros c Hc ->.
    by rewrite chr_eqb_refl in Hc.
Qed.

Lemma too_old_match prev a n :
  nonspace a -> a <> [] -> Forall (fun c => c <> ")"%char) n -> n <> [] ->
  Matches false too_old_re prev (a ++ txt " (" ++ n ++ txt ")") [] [a; n].
Proof.
  intros Ha Hane Hn Hnne. unfold too_old_re, group_plus.
  assert (forall y : str, y <> [] -> 1 <= length y) as Hlen
    by (intros [|? ?]; simpl; [done|lia]).
  apply (M_rep false true); [by apply Hlen|done|by apply mem_nonspace|].
  apply M_lit.
  apply (M_rep false true); [by apply Hlen|done| |].
  - eapply Forall_impl; [eassumption|]. simpl. intros c Hc.
    apply negb_true_iff. destruct (chr_eqb c ")") eqn:E; [|done].
    by apply chr_eqb_eq in E.
  - change (txt ")") with (txt ")" ++ []). apply M_lit.
    apply M_eol; [done|]. constructor.
Qed.

(** A deterministic pattern: the matcher returns the one match. *)
Lemma match_here_det ml p prev x rest g caps :
  det p = true -> Matches ml p prev x rest g ->
  match_here ml p prev (x ++ rest) caps = Some (caps ++ g, rest).
Proof.
  intros Hd HM.
  destruct (match_here_complete ml p prev x rest g caps HM) as [[caps' rest'] Hm].
  rewrite Hm.
  apply match_here_sound in Hm as (x' & g' & Heq & -> & HM').
  by destruct (Matches_det ml _ _ _ _ _ HM _ _ _ _ Hd HM' Heq) as (_ & -> & ->).
Qed.

Lemma search_at_start ml p s caps rest :
  match_here ml p None s [] = Some (caps, rest) ->
  re_search ml p s = Some (mkMatch 0 (length s - length rest) caps).
Proof.
  intros H. unfold re_search. destruct s; simpl in *; by rewrite H.
Qed.

Lemma search_groups_ok p s m :
  (forall prev x rest g,
      Matches false p prev x rest g ->
      exists g1 g2, g = [g1; g2] /\ g1 <> [] /\ g2 <> []) ->
  re_search false p s = Some m -> groups_ok m.
Proof.
  intros Hshape (pre & tail & rest & _ & Hm & _)%search_from_Some.
  apply match_here_sound in Hm as (x & g & _ & Hg & HM).
  apply Hshape in HM as (g1 & g2 & -> & ? & ?).
  exists g1, g2. by rewrite Hg.
Qed.

Lemma found_externally_groups_ok s m :
  re_search false found_externally_re s = Some m -> groups_ok m.
Proof.
  apply search_groups_ok. intros prev x rest g HM.
  apply found_externally_shape in HM as (a & w & b & w' & _ & -> & H).
  exists a, b. tauto.
Qed.

Lemma too_old_groups_ok s m :
  re_search false too_old_re s = Some m -> groups_ok m.
Proof.
  apply search_groups_ok. intros prev x rest g HM.
  apply too_old_shape in HM as (a & n & _ & -> & H).
  exists a, n. tauto.
Qed.

Lemma name_version_groups_ok s m :
  re_search false name_version_re s = Some m -> groups_ok m.
Proof.
  apply search_groups_ok. intros prev x rest g HM.
  apply name_version_shape in HM as (a & b & _ & -> & H).
  exists a, b. tauto.
Qed.

Lemma probe_groups_ok st cl :
  (forall m, version_match st = Bound (Some m) -> groups_ok m) ->
  forall m, version_match (probe st cl) = Bound (Some m) -> groups_ok m.
Proof.
  intros Hst m.
  destruct (probe_cases st cl)
    as [[_ ->]|[[_ ->]|[(_ & _ & ->)|[(_ & _ & ->)|[-> _]]]]]; simpl.
  - intros [= H]. by eapply found_externally_groups_ok.
  - intros [= H]. by eapply too_old_groups_ok.
  - done.
  - intros [= H]. by eapply name_version_groups_ok.
  - apply Hst.
Qed.

Lemma entries_inv_init : entries_inv init_state.
Proof.
  split; [|done]. intros k l e Hl He. exfalso.
  assert (l = []) as ->; [|by apply elem_of_nil in He].
  unfold init_state, init_dependencies in Hl. simpl in Hl.
  rewrite !lookup_insert in Hl.
  repeat (case_decide; [by injection Hl|]). by rewrite lookup_empty in Hl.
Qed.

Lemma entries_inv_step st line st' :
  entries_inv st -> loop_body st line = Ok st' -> entries_inv st'.
Proof.
  intros [Hent Hvm] [->|[(k & Hk & ->)|(Hd & _ & H)]]%loop_body_Ok; [done..|].
  apply data_line_inv in Hd as (Hne & _).
  pose proof (probe_groups_ok st (_clean_line line) Hvm) as Hvm'.
  apply record_entry_Ok in H as (k & l & e & _ & Hl & -> & He).
  rewrite probe_dependencies in *.
  assert (entry_ok e) as Hok.
  { destruct He as [[_ ->]|(m & g1 & g2 & Hm & H1 & H2 & ->)].
    - split; simpl; [|done]. by destruct (_clean_line line).
    - destruct (Hvm' m Hm) as (g1' & g2' & Hg & ? & ?).
      rewrite Hg in H1, H2. simpl in H1, H2. injection H1 as <-. injection H2 as <-.
      split; simpl; [done|]. by intros v [= <-]. }
  split; simpl; [|done].
  intros k' l' e' Hl' He'. rewrite lookup_insert in Hl'. case_decide.
  - injection Hl' as <-. apply elem_of_app in He' as [He'|He'].
    + by eapply Hent.
    + by apply list_elem_of_singleton in He' as ->.
  - by eapply Hent.
Qed.

Lemma entries_inv_run lines : forall st st',
  entries_inv st -> for_lines st lines = Ok st' -> entries_inv st'.
Proof.
  induction lines as [|line lines IH]; intros st st' Hinv H; simpl in H.
  - by injection H as <-.
  - destruct (loop_body st line) as [st1|] eqn:E; [|done].
    eapply IH; [|exact H]. by eapply entries_inv_step.
Qed.

(** The too-old pattern needs a closing parenthesis at the end. *)
Lemma too_old_search_none cl :
  stripped cl -> last cl <> Some ")"%char ->
  re_search false too_old_re cl = None.
Proof.
  intros Hs Hlast. apply search_from_None. intros pre tail ->.
  destruct (match_here _ _ _ _ _) as [[caps rest]|] eqn:E; [exfalso|done].
  apply match_here_sound in E as (x & g & -> & _ & HM).
  apply too_old_shape in HM as (a & n & -> & _ & _ & _ & _ & _ & He).
  rewrite app_assoc in Hs. apply at_eol_stripped in Hs as ->; [|done].
  apply Hlast. rewrite app_nil_r, !last_app. done.
Qed.

End LoopSteps.

(** * More about the cleaner *)

Section CleanerSteps.

Lemma digit_nonspace a : isdigit a = true -> isspace a = false.
Proof. destruct a as [[] [] [] [] [] [] [] []]; vm_compute; done. Qed.

Lemma final_nonspace f : cls_mem csi_final f = true -> isspace f = false.
Proof. destruct f as [[] [] [] [] [] [] [] []]; vm_compute; done. Qed.

Lemma final_not_param f :
  cls_mem csi_final f = true -> cls_mem csi_param f = false.
Proof. destruct f as [[] [] [] [] [] [] [] []]; vm_compute; done. Qed.

Lemma space_not_esc a : isspace a = true -> a <> ESC.
Proof. intros H ->. done. Qed.

(** *** [strip] *)

Lemma lstrip_sublist s : lstrip s `sublist_of` s.
Proof.
  induction s as [|a s IH]; simpl; [done|].
  destruct (isspace a); [by apply sublist_cons|done].
Qed.

Lemma rstrip_sublist s : rstrip s `sublist_of` s.
Proof.
  destruct (rstrip_split s) as (w & Hs & _). rewrite Hs at 2.
  by apply sublist_inserts_r.
Qed.

Lemma strip_sublist s : strip s `sublist_of` s.
Proof.
  unfold strip. transitivity (lstrip s); [apply rstrip_sublist|apply lstrip_sublist].
Qed.

Lemma lstrip_spaces_app w x : spaces w -> lstrip (w ++ x) = lstrip x.
Proof. induction 1 as [|a w Ha _ IH]; simpl; [done|]. by rewrite Ha. Qed.

Lemma rstrip_spaces w : spaces w -> rstrip w = [].
Proof.
  induction 1 as [|a w Ha _ IH]; simpl; [done|]. by rewrite IH, Ha.
Qed.

Lemma rstrip_app_spaces x w : spaces w -> rstrip (x ++ w) = rstrip x.
Proof.
  intros Hw. induction x as [|a x IH]; simpl.
  - by apply rstrip_spaces.
  - by rewrite IH.
Qed.

Lemma stripped_rstrip x : stripped x -> rstrip x = x.
Proof.
  unfold stripped, strip. intros H.
  destruct x as [|a x]; [done|].
  pose proof (stripped_head a x H) as Ha.
  by rewrite lstrip_id in H.
Qed.

(** White space around a stripped text is all that [strip] removes. *)
Lemma strip_pad w1 x w2 :
  spaces w1 -> spaces w2 -> stripped x -> strip (w1 ++ x ++ w2) = x.
Proof.
  intros H1 H2 Hx. unfold strip. rewrite lstrip_spaces_app by done.
  destruct x as [|a x].
  - simpl. rewrite <- (app_nil_r w2), lstrip_spaces_app by done. done.
  - pose proof (stripped_head a x Hx) as Ha.
    change ((a :: x) ++ w2) with (a :: (x ++ w2)). rewrite lstrip_id by done.
    change (a :: (x ++ w2)) with ((a :: x) ++ w2).
    rewrite rstrip_app_spaces by done. by apply stripped_rstrip.
Qed.

Lemma lstrip_rstrip s : lstrip (rstrip s) = rstrip (lstrip s).
Proof.
  induction s as [|a s IH]; [done|].
  destruct (isspace a) eqn:Ha.
  - cbn [lstrip rstrip]. rewrite Ha, <- IH.
    destruct (rstrip s) as [|b r] eqn:E; [done|].
    cbn [lstrip]. by rewrite Ha.
  - rewrite lstrip_id by done.
    destruct (rstrip_head a s Ha) as [r Hr]. rewrite Hr. by rewrite lstrip_id.
Qed.

Lemma strip_rstrip s : strip (rstrip s) = strip s.
Proof.
  unfold strip. rewrite lstrip_rstrip. apply rstrip_idem.
Qed.

Lemma rstrip_app_keep x t : rstrip t <> [] -> rstrip (x ++ t) = x ++ rstrip t.
Proof.
  intros Ht. induction x as [|a x IH]; simpl; [done|].
  rewrite IH. destruct (x ++ rstrip t) eqn:E; [|done].
  by apply app_eq_nil in E as [_ ?].
Qed.

Lemma strip_nonempty_rstrip t : strip t <> [] -> rstrip t <> [].
Proof.
  unfold strip. rewrite <- lstrip_rstrip. intros H E. by rewrite E in H.
Qed.

(** *** [re.sub] at and between matches *)

Lemma sub_go_sublist p s : forall prev k, sub_go p prev s k `sublist_of` s.
Proof.
  induction s as [|a s IH]; intros prev k; simpl; [done|].
  destruct k as [|k]; [|by apply sublist_cons].
  destruct (match_here false p prev (a :: s) []) as [[caps rest]|].
  - destruct (_ - _); [by apply sublist_skip|by apply sublist_cons].
  - by apply sublist_skip.
Qed.

Lemma sub_go_skip p x : forall prev r,
  sub_go p prev (x ++ r) (length x) = sub_go p (prev_after prev x) r 0.
Proof.
  induction x as [|a x IH]; intros prev r; [done|].
  simpl. rewrite IH. by rewrite <- (prev_after_cons prev).
Qed.

(** A match is dropped and the scan goes on after it. *)
Lemma sub_go_match p prev x r caps :
  x <> [] ->
  match_here false p prev (x ++ r) [] = Some (caps, r) ->
  sub_go p prev (x ++ r) 0 = sub_go p (prev_after prev x) r 0.
Proof.
  intros Hx Hm. destruct x as [|a x]; [done|].
  change ((a :: x) ++ r) with (a :: (x ++ r)) in *.
  cbn [sub_go]. rewrite Hm.
  replace (length (a :: x ++ r) - length r) with (S (length x))
    by (simpl; rewrite length_app; lia).
  rewrite sub_go_skip. by rewrite <- (prev_after_cons prev).
Qed.

(** Text without the first character of the pattern is copied. *)
Lemma sub_go_copy c l p t : forall prev r,
  c ∉ t ->
  sub_go (Lit (c :: l) :: p) prev (t ++ r) 0
  = t ++ sub_go (Lit (c :: l) :: p) (prev_after prev t) r 0.
Proof.
  induction t as [|a t IH]; intros prev r Hc; [done|].
  apply not_elem_of_cons in Hc as [Hne Hc].
  simpl. destruct (chr_eqb c a) eqn:E; [by apply chr_eqb_eq in E|].
  simpl. rewrite IH by done. by rewrite <- (prev_after_cons prev).
Qed.

(** *** The stamp, the escape sequences and the bullet *)

Lemma run_app_stop c y z :
  Forall (fun a => cls_mem c a = true) y ->
  match z with [] => True | b :: _ => cls_mem c b = false end ->
  run c (y ++ z) = length y.
Proof.
  intros Hy Hz. destruct z as [|b z].
  - rewrite app_nil_r. by apply run_all.
  - by apply run_stop.
Qed.

Lemma stamp_removed ts r :
  is_stamp ts -> re_sub_empty timestamp_prefix_re (ts ++ r) = r.
Proof.
  intros Hts. unfold timestamp_prefix_re. rewrite re_sub_bol.
  cbn [match_here at_bol].
  by rewrite (match_here_det false timestamp_re None ts r [] [] eq_refl
                (stamp_match false None ts r Hts)).
Qed.

Lemma stamp_head ts : is_stamp ts -> exists a r, ts = a :: r /\ isspace a = false.
Proof.
  intros (y & mo & d & h & mi & se & fr & -> & [Hlen Hy] & _).
  destruct y as [|a y]; [done|]. inversion Hy; subst.
  eexists a, _. split; [reflexivity|]. by apply digit_nonspace.
Qed.

(** The greedy path through the matcher, one atom at a time. *)
Lemma match_here_lit ml l p prev z caps res :
  match_here ml p (prev_after prev l) z caps = Some res ->
  match_here ml (Lit l :: p) prev (l ++ z) caps = Some res.
Proof.
  intros H. cbn [match_here]. by rewrite starts_with_app, drop_app_length.
Qed.

Lemma match_here_bol ml p s caps res :
  match_here ml p None s caps = Some res ->
  match_here ml (Bol :: p) None s caps = Some res.
Proof. done. Qed.

Lemma match_here_rep_greedy ml (cap : bool) c lo p prev (y z : str) caps res :
  Forall (fun a => cls_mem c a = true) y ->
  match z with [] => True | b :: _ => cls_mem c b = false end ->
  lo <= length y ->
  match_here ml p (prev_after prev y) z (if cap then caps ++ [y] else caps)
  = Some res ->
  match_here ml (Rep cap c lo None :: p) prev (y ++ z) caps = Some res.
Proof.
  intros Hy Hz Hlo H. cbn [match_here]. rewrite run_app_stop by done.
  cbn [cap_run]. replace (length y <? lo) with false
    by (symmetry; apply Nat.ltb_ge; lia).
  apply try_down_first. replace (lo + (length y - lo)) with (length y) by lia.
  by rewrite take_app_length, drop_app_length.
Qed.

Lemma match_here_rep_exact ml (cap : bool) c n p prev (y z : str) caps res :
  Forall (fun a => cls_mem c a = true) y ->
  length y = n ->
  match_here ml p (prev_after prev y) z (if cap then caps ++ [y] else caps)
  = Some res ->
  match_here ml (Rep cap c n (Some n) :: p) prev (y ++ z) caps = Some res.
Proof.
  intros Hy Hn H. cbn [match_here].
  pose proof (run_app_ge c y z Hy) as Hrun.
  cbn [cap_run]. replace (Nat.min n (run c (y ++ z))) with n by lia.
  rewrite Nat.ltb_irrefl, Nat.sub_diag.
  apply try_down_first. rewrite Nat.add_0_r. subst n.
  by rewrite take_app_length, drop_app_length.
Qed.

Lemma escape_match_here prev e r :
  is_escape e -> match_here false ansi_re prev (e ++ r) [] = Some ([], r).
Proof.
  intros (ps & f & -> & Hps & Hf). unfold ansi_re, star, times.
  replace ((ESC :: txt "[" ++ ps ++ [f]) ++ r)
    with ((ESC :: txt "[") ++ ps ++ [f] ++ r)
    by (simpl; by rewrite <- app_assoc).
  apply match_here_lit.
  apply match_here_rep_greedy; [done|by apply final_not_param|lia|].
  apply match_here_rep_exact; [by repeat constructor|done|done].
Qed.

Lemma escape_nonempty e : is_escape e -> e <> [].
Proof. by intros (ps & f & -> & _). Qed.

Lemma escape_last e :
  is_escape e -> exists r f, e = r ++ [f] /\ isspace f = false.
Proof.
  intros (ps & f & -> & _ & Hf).
  exists (ESC :: txt "[" ++ ps), f. split; [done|].
  by apply final_nonspace.
Qed.

(** With escape sequences around a text that holds none, [re.sub]
    leaves the text. *)
Lemma escapes_removed e1 t e2 :
  is_escape e1 -> is_escape e2 -> ESC ∉ t ->
  re_sub_empty ansi_re (e1 ++ t ++ e2) = t.
Proof.
  intros H1 H2 Ht. unfold re_sub_empty.
  rewrite (sub_go_match ansi_re None e1 (t ++ e2) []);
    [|by apply escape_nonempty|by apply escape_match_here].
  unfold ansi_re at 1. rewrite sub_go_copy by done. fold ansi_re.
  rewrite <- (app_nil_r e2) at 1.
  rewrite (sub_go_match ansi_re _ e2 [] []);
    [|by apply escape_nonempty|by apply escape_match_here].
  simpl. by rewrite app_nil_r.
Qed.

Lemma escape_free_rest t :
  ESC ∉ t ->
  re_sub_empty cursor_re (re_sub_empty clear_re (re_sub_empty reset_re t)) = t.
Proof.
  intros Ht. unfold reset_re, clear_re, cursor_re.
  rewrite (re_sub_lit_absent ESC (txt "[m") [] t) by done.
  rewrite (re_sub_lit_absent ESC (txt "[K") [] t) by done.
  by rewrite (re_sub_lit_absent ESC (txt "[") _ t).
Qed.

Lemma escape_free_all t :
  ESC ∉ t ->
  re_sub_empty cursor_re
    (re_sub_empty clear_re (re_sub_empty reset_re (re_sub_empty ansi_re t))) = t.
Proof.
  intros Ht. unfold ansi_re at 1. rewrite re_sub_lit_absent by done.
  by apply escape_free_rest.
Qed.

Lemma no_bullet t :
  starts_with (txt "--") t = false -> re_sub_empty bullet_re t = t.
Proof. intros H. by apply bullet_none, begins_bullet_check. Qed.

Lemma no_stamp_dash t :
  re_sub_empty timestamp_prefix_re ("-"%char :: t) = "-"%char :: t.
Proof. unfold timestamp_prefix_re. by rewrite re_sub_bol. Qed.

(** The bullet and the white space after it go, the rest stays. *)
Lemma bullet_removed dashes w m :
  Forall (fun a => a = "-"%char) dashes -> dashes <> [] -> spaces w ->
  match w ++ m with [] => True | b :: _ => b <> "-"%char end ->
  match m with [] => True | b :: _ => isspace b = false end ->
  re_sub_empty bullet_re (txt "-" ++ dashes ++ w ++ m) = m.
Proof.
  intros Hd Hdne Hw Hwm Hm. unfold bullet_re. rewrite re_sub_bol.
  unfold plus, star.
  rewrite (match_here_bol false _ _ [] ([], m)); [done|].
  apply match_here_lit.
  apply match_here_rep_greedy.
  - eapply Forall_impl; [exact Hd|]. by intros a ->.
  - destruct (w ++ m) as [|b z]; [done|]. simpl.
    destruct (chr_eqb b "-") eqn:E; [|done]. by apply chr_eqb_eq in E.
  - destruct dashes; simpl; [done|lia].
  - rewrite <- (app_nil_r m) at 1. rewrite app_assoc, app_nil_r.
    apply match_here_rep_greedy; [done| |lia|done].
    destruct m as [|b z]; [done|]. simpl. done.
Qed.

End CleanerSteps.

Section CleanerLines.

Lemma digits_no_esc y : Forall (fun a => isdigit a = true) y -> ESC ∉ y.
Proof.
  intros Hy He. rewrite Forall_forall in Hy. by apply Hy in He.
Qed.

Lemma spaces_no_esc w : spaces w -> ESC ∉ w.
Proof.
  intros Hw He. unfold spaces in Hw. rewrite Forall_forall in Hw.
  by apply Hw in He.
Qed.

Ltac not_in_literal :=
  let H := fresh in
  intros H; simpl in H;
  repeat (apply elem_of_cons in H as [H|H]; [discriminate|]);
  by apply elem_of_nil in H.

Lemma stamp_no_esc ts : is_stamp ts -> ESC ∉ ts.
Proof.
  intros (y & mo & d & h & mi & se & fr & -> &
          [_ ?] & [_ ?] & [_ ?] & [_ ?] & [_ ?] & [_ ?] & ? & _).
  rewrite !not_elem_of_app.
  repeat split; try (by apply digits_no_esc); not_in_literal.
Qed.

(** A stamp ends in a space, and what is before it is stripped. *)
Lemma stamp_split ts :
  is_stamp ts -> exists x, ts = x ++ [" "%char] /\ stripped x /\ x <> [].
Proof.
  intros Hts. destruct (stamp_head ts Hts) as (a & r & Hr & Ha).
  destruct Hts as (y & mo & d & h & mi & se & fr & -> & _).
  exists (y ++ txt "-" ++ mo ++ txt "-" ++ d ++ txt "T" ++ h ++ txt ":" ++ mi
            ++ txt ":" ++ se ++ txt "." ++ fr ++ txt "Z --").
  split; [by rewrite <- !app_assoc|]. split.
  - apply stripped_intro.
    + right. destruct y as [|b y].
      * simpl in Hr. injection Hr as <- _. eexists _, _. split; [reflexivity|done].
      * simpl in Hr. injection Hr as <- _. eexists _, _. split; [reflexivity|done].
    + right. eexists _, "-"%char. split; [|done].
      change (txt "Z --") with (txt "Z -" ++ ["-"%char]).
      by rewrite !app_assoc.
  - intros E. apply (f_equal length) in E. rewrite !length_app in E.
    simpl in E. lia.
Qed.

(** Without its last space a stamp is no stamp, and begins with none. *)
Lemma stamp_cut_no_match ts x :
  is_stamp ts -> ts = x ++ [" "%char] ->
  re_sub_empty timestamp_prefix_re x = x.
Proof.
  intros Hts Hx. apply stamp_prefix_none. intros (x' & post & -> & Hx').
  pose proof (stamp_match false None ts [] Hts) as H1.
  pose proof (stamp_match false None x' (post ++ [" "%char]) Hx') as H2.
  destruct (Matches_det false _ _ _ _ _ H1 _ _ _ _ eq_refl H2) as (E & _).
  - rewrite app_nil_r, Hx. by rewrite <- app_assoc.
  - rewrite Hx in E. apply (f_equal length) in E.
    rewrite !length_app in E. simpl in E. lia.
Qed.

Lemma stamp_digit ts : is_stamp ts -> exists a r, ts = a :: r /\ isdigit a = true.
Proof.
  intros (y & mo & d & h & mi & se & fr & -> & [Hlen Hy] & _).
  destruct y as [|a y]; [done|]. inversion Hy; subst. by eexists a, _.
Qed.

Lemma starts_with_digit a x :
  isdigit a = true -> starts_with (txt "--") (a :: x) = false.
Proof.
  intros H.
  change (starts_with (txt "--") (a :: x))
    with (chr_eqb "-" a && starts_with (txt "-") x).
  destruct (chr_eqb "-" a) eqn:E; [|done].
  apply chr_eqb_eq in E. by subst a.
Qed.

Lemma nonempty_snoc (m : str) : m <> [] -> exists ms c, m = ms ++ [c].
Proof.
  destruct m as [|c ms _] using rev_ind; [done|]. eauto.
Qed.

Lemma starts_with_rstrip l t :
  starts_with l t = false -> starts_with l (rstrip t) = false.
Proof.
  intros H. destruct (starts_with l (rstrip t)) eqn:E; [|done].
  apply starts_with_spec in E as [r Hr].
  destruct (rstrip_split t) as (w & Ht & _). rewrite Hr in Ht.
  assert (starts_with l t = true) as H'; [|congruence].
  apply starts_with_spec. exists (r ++ w). by rewrite app_assoc.
Qed.

End CleanerLines.

(** * More about the section locator *)

Section LocatorSteps.

(** The match [re.search] returns starts no later than any piece of the
    text that has the shape of the pattern. *)
Lemma search_leftmost ml p (P : str -> Prop) s m :
  (forall prev x rest, P x -> exists g, Matches ml p prev x rest g) ->
  re_search ml p s = Some m ->
  forall a x b, s = a ++ x ++ b -> P x -> m_start m <= length a.
Proof.
  intros Hmatch Hs a x b Heq HP.
  apply search_from_Some in Hs as (pre & tail & rest & -> & _ & -> & _ & Hbefore).
  simpl. destruct (decide (length pre <= length a)) as [|Hlt]; [done|exfalso].
  apply app_eq_inv in Heq as [(k & -> & Hk)|(k & -> & Hk)].
  - destruct k as [|c k]; [rewrite app_nil_r in Hlt; lia|].
    specialize (Hbefore a (c :: k) eq_refl ltac:(done)).
    destruct (Hmatch (prev_after None a) x b HP) as [g HM].
    rewrite <- Hk in Hbefore. by apply match_here_None with (g := g) in Hbefore.
  - rewrite length_app in Hlt. lia.
Qed.

Lemma opening_banner_leftmost s m :
  re_search true start_pattern s = Some m ->
  forall a x b, s = a ++ x ++ b -> is_opening_banner x -> m_start m <= length a.
Proof.
  apply search_leftmost. intros prev x rest HP. eexists.
  by apply opening_banner_match.
Qed.

Lemma rule_line_leftmost s m :
  re_search false end_pattern s = Some m ->
  forall a x b, s = a ++ x ++ b -> is_rule_line x -> m_start m <= length a.
Proof.
  apply search_leftmost. intros prev x rest HP. eexists.
  by apply rule_line_match.
Qed.

Lemma rule_line_check x :
  match_here false end_pattern None x [] = Some ([], []) -> is_rule_line x.
Proof.
  intros (x' & g & -> & _ & HM)%match_here_sound. rewrite app_nil_r.
  by apply rule_line_shape in HM as [? _].
Qed.

(** The first rule line of a text is where the section ends. *)
Lemma end_search_first body r post :
  is_rule_line r ->
  (forall a x b,
      body ++ r ++ post = a ++ x ++ b -> is_rule_line x -> length body <= length a) ->
  exists m,
    re_search false end_pattern (body ++ r ++ post) = Some m /\
    m_start m = length body.
Proof.
  intros Hr Hfirst.
  pose proof (rule_line_match false (prev_after None body) r post Hr) as HM.
  destruct (match_here_complete false _ _ _ _ _ [] HM) as [[caps rest] Hm].
  eexists. split.
  - apply (search_from_found false end_pattern body 0 None (r ++ post) caps rest);
      [|done].
    intros pre1 tail1 -> Hne.
    destruct (match_here false end_pattern (prev_after None pre1)
                (tail1 ++ r ++ post) []) as [[caps' rest']|] eqn:E; [exfalso|done].
    apply match_here_sound in E as (x' & g & Heq & _ & [HR _]%rule_line_shape).
    specialize (Hfirst pre1 x' rest').
    rewrite <- app_assoc, Heq in Hfirst. specialize (Hfirst eq_refl HR).
    rewrite length_app in Hfirst. destruct tail1; [done|simpl in Hfirst; lia].
  - done.
Qed.

End LocatorSteps.

(** * [parse_github_url] *)

Section Url.

Variable c : ascii.

Lemma chr_eqb_neq a b : chr_eqb a b = false <-> a <> b.
Proof.
  split.
  - intros H ->. by rewrite chr_eqb_refl in H.
  - intros H. destruct (chr_eqb a b) eqn:E; [|done]. by apply chr_eqb_eq in E.
Qed.

Lemma lstrip_chr_app sl x :
  Forall (fun a => a = c) sl -> lstrip_chr c (sl ++ x) = lstrip_chr c x.
Proof.
  induction 1 as [|a sl -> _ IH]; simpl; [done|]. by rewrite chr_eqb_refl.
Qed.

Lemma lstrip_chr_id a x : a <> c -> lstrip_chr c (a :: x) = a :: x.
Proof. intros Ha. simpl. by apply chr_eqb_neq in Ha as ->. Qed.

Lemma lstrip_chr_head s : forall t, lstrip_chr c s <> c :: t.
Proof.
  induction s as [|a s IH]; intros t; simpl; [done|].
  destruct (chr_eqb a c) eqn:E; [apply IH|].
  apply chr_eqb_neq in E. congruence.
Qed.

Lemma rstrip_chr_split s :
  exists w, s = rstrip_chr c s ++ w /\ Forall (fun a => a = c) w.
Proof.
  induction s as [|a s (w & Hs & Hw)]; simpl.
  - exists []. split; [done|constructor].
  - destruct (rstrip_chr c s) as [|b r] eqn:E.
    + simpl in Hs. subst w. destruct (chr_eqb a c) eqn:Ha.
      * apply chr_eqb_eq in Ha. exists (a :: s). split; [done|by constructor].
      * exists s. split; [done|done].
    + exists w. split; [|done]. simpl. f_equal. exact Hs.
Qed.

Lemma rstrip_chr_keep x b t :
  b <> c -> rstrip_chr c (x ++ b :: t) = x ++ b :: rstrip_chr c t.
Proof.
  intros Hb. induction x as [|a x IH]; simpl.
  - apply chr_eqb_neq in Hb. rewrite Hb. by destruct (rstrip_chr c t).
  - rewrite IH. by destruct x.
Qed.

Lemma strip_chr_head s : forall t, strip_chr c s <> c :: t.
Proof.
  intros t H. unfold strip_chr in H.
  destruct (rstrip_chr_split (lstrip_chr c s)) as (w & Hs & _).
  rewrite H in Hs. by apply lstrip_chr_head in Hs.
Qed.

(** *** [split] *)

Lemma str_split_nosep x : c ∉ x -> str_split c x = [x].
Proof.
  induction x as [|a x IH]; intros Hc; [done|].
  apply not_elem_of_cons in Hc as [Hne Hc]. simpl.
  assert (chr_eqb a c = false) as -> by (apply chr_eqb_neq; congruence).
  by rewrite IH.
Qed.

Lemma str_split_app x y :
  c ∉ x -> str_split c (x ++ c :: y) = x :: str_split c y.
Proof.
  induction x as [|a x IH]; intros Hc; simpl.
  - by rewrite chr_eqb_refl.
  - apply not_elem_of_cons in Hc as [Hne Hc].
    assert (chr_eqb a c = false) as -> by (apply chr_eqb_neq; congruence).
    by rewrite IH.
Qed.

Lemma str_split_nonempty s : str_split c s <> [].
Proof.
  destruct s as [|a s]; simpl; [done|].
  destruct (chr_eqb a c); [done|]. by destruct (str_split c s).
Qed.

(** The first piece, and what follows it. *)
Lemma str_split_cons s : forall p ps,
  str_split c s = p :: ps ->
  (c ∉ p) /\
  ((ps = [] /\ s = p) \/ (exists s', s = p ++ c :: s' /\ str_split c s' = ps)).
Proof.
  induction s as [|a s IH]; intros p ps H; simpl in H.
  - injection H as <- <-. split; [by apply not_elem_of_nil|by left].
  - destruct (chr_eqb a c) eqn:E.
    + apply chr_eqb_eq in E as ->. injection H as <- <-.
      split; [by apply not_elem_of_nil|]. right. by exists s.
    + apply chr_eqb_neq in E.
      destruct (str_split c s) as [|q qs] eqn:Es; [by apply str_split_nonempty in Es|].
      injection H as <- <-.
      destruct (IH q qs eq_refl) as (Hq & [[-> ->]|(s' & -> & Hs')]).
      * split; [apply not_elem_of_cons; split; congruence|by left].
      * split; [apply not_elem_of_cons; split; congruence|]. right. by exists s'.
Qed.

Lemma str_split_short s : length (str_split c s) < 2 <-> c ∉ s.
Proof.
  split.
  - intros Hlen. destruct (str_split c s) as [|p ps] eqn:E; [by apply str_split_nonempty in E|].
    destruct ps; [|simpl in Hlen; lia].
    apply str_split_cons in E as (Hp & [[_ ->]|(s' & _ & Hs')]); [done|].
    by apply str_split_nonempty in Hs'.
  - intros Hc. rewrite str_split_nosep by done. simpl. lia.
Qed.

End Url.

Section UrlMethod.

Lemma parse_github_url_unfold parsed :
  netloc parsed = txt "github.com" ->
  parse_github_url parsed =
  match str_split "/" (strip_chr "/" (path parsed)) with
  | owner :: repo :: _ => Returns (owner, repo)
  | _ => ValueError "Invalid GitHub repository URL"
  end.
Proof.
  intros Hn. unfold parse_github_url. rewrite bool_decide_eq_true_2 by done.
  cbn [negb]. cbv zeta.
  destruct (str_split "/" (strip_chr "/" (path parsed))) as [|o [|r ps]]; done.
Qed.

End UrlMethod.

(** ** The runs and jobs of the GitHub client *)

Section Jobs.

Lemma contains_spec needle hay :
  contains needle hay = true <-> exists pre post, hay = pre ++ needle ++ post.
Proof.
  split.
  - induction hay as [|a hay IH]; cbn [contains].
    + rewrite orb_false_r. intros [r Hr]%starts_with_spec. by exists [], r.
    + intros [H|H]%orb_true_iff.
      * apply starts_with_spec in H as [r Hr]. by exists [], r.
      * destruct (IH H) as (pre & post & ->). by exists (a :: pre), post.
  - intros (pre & post & ->). apply contains_app.
Qed.

Lemma first_job_Some p jobs job :
  first_job p jobs = Some job <->
  exists pre post,
    jobs = pre ++ job :: post /\ p job = true /\
    Forall (fun x => p x = false) pre.
Proof.
  split.
  - induction jobs as [|x jobs IH]; [done|]. cbn [first_job].
    destruct (p x) eqn:E.
    + intros [= ->]. by exists [], jobs.
    + intros (pre & post & -> & Hp & Hpre)%IH.
      exists (x :: pre), post. split; [done|]. split; [done|]. by constructor.
  - intros (pre & post & -> & Hp & Hpre).
    induction Hpre as [|x pre Hx _ IH]; cbn [app first_job].
    + by rewrite Hp.
    + by rewrite Hx.
Qed.

Lemma first_job_None p jobs :
  first_job p jobs = None <-> Forall (fun x => p x = false) jobs.
Proof.
  induction jobs as [|x jobs IH]; cbn [first_job].
  - split; [constructor|done].
  - destruct (p x) eqn:E.
    + split; [done|]. intros H. inversion H; congruence.
    + rewrite IH. split; [by constructor|]. intros H. by inversion H.
Qed.

Lemma scan_runs_cons workflow target_date run runs :
  scan_runs workflow target_date (run :: runs) =
  if counts target_date run then
    jobs_of workflow run ++ scan_runs workflow target_date runs
  else if (date (r_created_at run) <? target_date)%Z then []
  else scan_runs workflow target_date runs.
Proof.
  cbn [scan_runs]. cbv zeta. unfold counts, jobs_of.
  destruct (_ && _); [|done]. by destruct (r_jobs run).
Qed.

Lemma counts_spec target_date run :
  counts target_date run = true <->
  date (r_created_at run) = target_date /\
  r_conclusion run = Some (txt "success").
Proof.
  unfold counts. by rewrite andb_true_iff, Z.eqb_eq, bool_decide_eq_true.
Qed.

Lemma jobs_of_elem workflow run e :
  e ∈ jobs_of workflow run <->
  exists jobs job,
    r_jobs run = Some jobs /\ job ∈ jobs /\ e = job_entry_of workflow run job.
Proof.
  unfold jobs_of. destruct (r_jobs run) as [jobs|].
  - rewrite list_elem_of_fmap. split.
    + intros (job & -> & Hj). by exists jobs, job.
    + intros (jobs' & job & [= <-] & Hj & ->). by exists job.
  - split; [by intros ?%elem_of_nil|]. by intros (? & ? & ? & _).
Qed.

Lemma scan_runs_elem workflow target_date runs e :
  e ∈ scan_runs workflow target_date runs ->
  exists run, run ∈ runs /\ counts target_date run = true /\
              e ∈ jobs_of workflow run.
Proof.
  induction runs as [|run runs IH]; [by intros ?%elem_of_nil|].
  rewrite scan_runs_cons. destruct (counts target_date run) eqn:E.
  - intros [H|H]%elem_of_app.
    + exists run. split; [by left|done].
    + destruct (IH H) as (r & Hr & Hc & He). exists r. split; [by right|done].
  - destruct (_ <? _)%Z; [by intros ?%elem_of_nil|].
    intros H. destruct (IH H) as (r & Hr & Hc & He).
    exists r. split; [by right|done].
Qed.

Lemma older_runs_nothing workflow target_date runs :
  Forall (fun run => (date (r_created_at run) < target_date)%Z) runs ->
  flat_map (fun run => if counts target_date run then jobs_of workflow run else [])
    runs = [].
Proof.
  induction 1 as [|run runs Hr _ IH]; [done|].
  cbn [flat_map]. rewrite IH, app_nil_r.
  destruct (counts target_date run) eqn:E; [|done].
  apply counts_spec in E as [E _]. lia.
Qed.

Lemma scan_runs_newest_first workflow target_date runs :
  newest_first runs ->
  scan_runs workflow target_date runs =
  flat_map (fun run => if counts target_date run then jobs_of workflow run else [])
    runs.
Proof.
  induction runs as [|run runs IH]; [done|].
  intros [Hle Hs]. rewrite scan_runs_cons. cbn [flat_map].
  destruct (counts target_date run) eqn:E.
  - by rewrite IH.
  - cbn [app]. destruct (_ <? _)%Z eqn:Elt; [|by apply IH].
    apply Z.ltb_lt in Elt. symmetry. apply older_runs_nothing.
    eapply Forall_impl; [exact Hle|]. cbn beta. intros later Hl. lia.
Qed.

Lemma scan_runs_break workflow target_date rs1 old rs2 :
  (date (r_created_at old) < target_date)%Z ->
  scan_runs workflow target_date (rs1 ++ old :: rs2) =
  scan_runs workflow target_date rs1.
Proof.
  intros Hold. induction rs1 as [|run rs1 IH].
  - cbn [app]. rewrite scan_runs_cons.
    destruct (counts target_date old) eqn:E.
    + apply counts_spec in E as [E _]. lia.
    + apply Z.ltb_lt in Hold. by rewrite Hold.
  - cbn [app]. rewrite !scan_runs_cons, IH. done.
Qed.

Lemma scan_runs_name w w' target_date runs :
  w_name w = w_name w' ->
  scan_runs w target_date runs = scan_runs w' target_date runs.
Proof.
  intros Hn. induction runs as [|run runs IH]; [done|].
  rewrite !scan_runs_cons, IH.
  replace (jobs_of w run) with (jobs_of w' run); [done|].
  unfold jobs_of. destruct (r_jobs run); [|done].
  apply map_ext. intros job. unfold job_entry_of. by rewrite Hn.
Qed.

Lemma get_successful_jobs_app ws1 ws2 target_date name :
  get_successful_jobs (Some (ws1 ++ ws2)) target_date name =
  get_successful_jobs (Some ws1) target_date name
  ++ get_successful_jobs (Some ws2) target_date name.
Proof. unfold get_successful_jobs. apply flat_map_app. Qed.

Lemma build_job_spec job :
  contains (txt "build") (lower (j_name job)) = true <-> build_job job.
Proof.
  rewrite contains_spec. unfold build_job, lower. split.
  - intros (pre & post & H).
    apply map_eq_app in H as (a & r & Hn & <- & H).
    apply map_eq_app in H as (b & c & -> & Hb & <-).
    by exists a, b, c.
  - intros (a & b & c & -> & Hb).
    exists (map lower_chr a), (map lower_chr c).
    by rewrite !map_app, Hb.
Qed.

Lemma not_build_job_spec job :
  contains (txt "build") (lower (j_name job)) = false <-> ~ build_job job.
Proof.
  rewrite <- build_job_spec. by destruct (contains _ _).
Qed.

End Jobs.
(** * The lines on record *)

Section Recorded.

Lemma for_lines_app l1 : forall st l2,
  for_lines st (l1 ++ l2) = (st' <- for_lines st l1 ;; for_lines st' l2).
Proof.
  induction l1 as [|line l1 IH]; intros st l2; [done|].
  cbn [app for_lines]. destruct (loop_body st line) as [st1|e]; [|done].
  cbn [bind]. apply IH.
Qed.

(** A line that is neither a header nor a data line is passed over. *)
Lemma loop_body_skip st line :
  is_header (_clean_line line) = false -> is_data_line line = false ->
  loop_body st line = Ok st.
Proof.
  intros Hh Hd.
  destruct (loop_body_no_header st line Hh) as [H|[H _]]; [done|congruence].
Qed.

(** Without a cursor, a line that is not a header is passed over. *)
Lemma loop_body_unset st line :
  truthy (current_section st) = false ->
  is_header (_clean_line line) = false ->
  loop_body st line = Ok st.
Proof.
  intros Ht Hh.
  destruct (loop_body_no_header st line Hh) as [H|[_ H]]; [done|congruence].
Qed.

(** A header line sets the cursor and does nothing else. *)
Lemma loop_body_header st line :
  is_header (_clean_line line) = true ->
  exists k, k ∈ [found_externally; too_old; not_found] /\
            loop_body st line = Ok (set_section st k).
Proof.
  unfold is_header, loop_body. cbv zeta. intros Hh.
  destruct (is_empty (_clean_line line)) eqn:E0.
  { destruct (_clean_line line); [|done]. by vm_compute in Hh. }
  destruct (contains (txt "the following dependencies found externally:") _).
  { eexists. split; [|done]. rewrite !elem_of_cons. tauto. }
  destruct (contains (txt "the following dependencies were found but were too old:") _).
  { eexists. split; [|done]. rewrite !elem_of_cons. tauto. }
  destruct (contains (txt "the following dependencies were not found") _); [|done].
  eexists. split; [|done]. rewrite !elem_of_cons. tauto.
Qed.

Lemma data_line_no_header line :
  is_data_line line = true -> is_header (_clean_line line) = false.
Proof. by intros (_ & H & _)%data_line_inv. Qed.

Lemma key_truthy k :
  k ∈ [found_externally; too_old; built_locally; not_found] ->
  truthy (Some k) = true.
Proof. revert k. by apply keys_cases. Qed.

(** Lines without a header under the built-locally cursor: one more
    copy of the same entry for each data line among them, and nothing
    for the others. *)
Lemma built_locally_lines m g1 g2 lines : forall d l,
  m_groups m = [g1; g2] ->
  d !! built_locally = Some l ->
  Forall (fun ln => is_header (_clean_line ln) = false) lines ->
  for_lines (mkState d (Some built_locally) (Bound (Some m))) lines
  = Ok (mkState
          (<[built_locally :=
               l ++ replicate (length (List.filter is_data_line lines))
                      (mkEntry g1 (Some g2)) ]> d)
          (Some built_locally) (Bound (Some m))).
Proof.
  induction lines as [|line lines IH]; intros d l Hg Hl Hh; cbn [for_lines List.filter].
  - cbn [length replicate]. rewrite app_nil_r. by rewrite insert_id.
  - inversion Hh as [|? ? Hline Hrest]; subst.
    destruct (is_data_line line) eqn:Hd.
    + rewrite (built_locally_step d _ m g1 g2 l) by done. cbn [bind].
      rewrite (IH _ (l ++ [mkEntry g1 (Some g2)])); [|done|apply lookup_insert_eq|done].
      rewrite insert_insert_eq. cbn [length replicate].
      by rewrite <- app_assoc.
    + rewrite loop_body_skip by done. cbn [bind]. by apply IH.
Qed.

Lemma entries_of_insert d k l k' :
  entries_of (<[k := l]> d) k' = if decide (k = k') then l else entries_of d k'.
Proof.
  unfold entries_of. rewrite lookup_insert. by case_decide.
Qed.

(** One more entry under one of the four keys is one more entry in
    all. *)
Lemma entries_total_insert d k l e :
  k ∈ [found_externally; too_old; built_locally; not_found] ->
  d !! k = Some l ->
  entries_total (<[k := l ++ [e] ]> d) = S (entries_total d).
Proof.
  intros Hk Hl.
  assert (entries_of d k = l) as Hof by (unfold entries_of; by rewrite Hl).
  revert k Hk Hl Hof.
  apply (keys_cases (fun k => _ -> _ -> entries_total (<[k := _]> d) = _));
    intros Hl Hof; unfold entries_total; rewrite !entries_of_insert;
    repeat (case_decide; [try done|]); try done;
    rewrite ?Hof, ?length_app; cbn [length]; lia.
Qed.

(** The loop from any state: it returns, and the number of entries
    grows by the number of data lines read with the cursor set. *)
Lemma for_lines_count lines : forall st,
  loop_inv st ->
  exists st',
    for_lines st lines = Ok st' /\ loop_inv st' /\
    entries_total (dependencies st')
    = entries_total (dependencies st)
      + length (List.filter is_data_line
                  (if truthy (current_section st) then lines
                   else after_header lines)).
Proof.
  induction lines as [|line lines IH]; intros st Hinv.
  - exists st. split; [done|]. split; [done|]. destruct (truthy _); simpl; lia.
  - cbn [for_lines after_header].
    destruct (is_header (_clean_line line)) eqn:Hh.
    + destruct (loop_body_header st line Hh) as (k & Hk & ->). cbn [bind].
      assert (loop_inv (set_section st k)) as Hinv' by by apply loop_inv_set_section.
      destruct (IH _ Hinv') as (st' & Hrun & Hinv'' & Hcount).
      exists st'. split; [done|]. split; [done|]. rewrite Hcount.
      assert (truthy (current_section (set_section st k)) = true) as ->.
      { apply key_truthy. rewrite !elem_of_cons in *. tauto. }
      assert (is_data_line line = false) as Hd.
      { destruct (is_data_line line) eqn:E; [|done].
        apply data_line_no_header in E. congruence. }
      cbn [set_section dependencies].
      destruct (truthy (current_section st)); cbn [List.filter]; by rewrite ?Hd.
    + destruct (truthy (current_section st)) eqn:Ht.
      * destruct (is_data_line line) eqn:Hd.
        -- rewrite loop_body_data by done.
           destruct (probe_inv st (_clean_line line) Hinv Ht) as (k & v & -> & Hk & Hv).
           pose proof Hinv as (Hkeys & _).
           destruct (proj2 (Hkeys k) Hk) as [l Hl].
           destruct (record_entry_total _ k v l (_clean_line line) Hl Hv)
             as (e & -> & _). cbn [bind].
           assert (loop_inv (mkState (<[k := l ++ [e] ]> (dependencies st))
                               (Some k) (Bound v))) as Hinv'
             by by apply loop_inv_record.
           destruct (IH _ Hinv') as (st' & Hrun & Hinv'' & Hcount).
           exists st'. split; [done|]. split; [done|]. rewrite Hcount.
           cbn [dependencies current_section]. rewrite key_truthy by done.
           rewrite entries_total_insert by done.
           cbn [List.filter]. rewrite Hd. cbn [length]. lia.
        -- rewrite loop_body_skip by done. cbn [bind].
           destruct (IH _ Hinv) as (st' & Hrun & Hinv'' & Hcount).
           exists st'. split; [done|]. split; [done|]. rewrite Hcount, Ht.
           cbn [List.filter]. by rewrite Hd.
      * rewrite loop_body_unset by done. cbn [bind].
        destruct (IH _ Hinv) as (st' & Hrun & Hinv'' & Hcount).
        exists st'. split; [done|]. split; [done|]. by rewrite Hcount, Ht.
Qed.

(** Once set, the cursor stays set. *)
Lemma cursor_stays_set lines : forall st st',
  loop_inv st -> truthy (current_section st) = true ->
  for_lines st lines = Ok st' -> truthy (current_section st') = true.
Proof.
  induction lines as [|line lines IH]; intros st st' Hinv Ht Hrun.
  - by injection Hrun as <-.
  - cbn [for_lines] in Hrun.
    destruct (loop_body_inv st line Hinv) as (st1 & Hb & Hinv1).
    rewrite Hb in Hrun. cbn [bind] in Hrun.
    apply (IH st1 st' Hinv1); [|done].
    destruct Hinv1 as (_ & Hcs & _).
    apply loop_body_Ok in Hb as [->|[(k & Hk & ->)|(_ & _ & Hrec)]]; [done| |].
    + apply key_truthy. rewrite !elem_of_cons in *. tauto.
    + apply record_entry_Ok in Hrec as (k & l & e & _ & _ & -> & _).
      apply key_truthy. by apply (Hcs k).
Qed.

(** After a header line the cursor is set. *)
Lemma header_sets_cursor lines : forall st st',
  loop_inv st ->
  for_lines st lines = Ok st' ->
  Exists (fun h => is_header (_clean_line h) = true) lines ->
  truthy (current_section st') = true.
Proof.
  intros st st' Hinv Hrun Hex. revert st Hinv Hrun.
  induction Hex as [line lines Hh|line lines _ IH]; intros st Hinv Hrun;
    cbn [for_lines] in Hrun.
  - destruct (loop_body_header st line Hh) as (k & Hk & Hb).
    rewrite Hb in Hrun. cbn [bind] in Hrun.
    apply (cursor_stays_set lines (set_section st k)); [|
      apply key_truthy; rewrite !elem_of_cons in *; tauto|done].
    by apply loop_inv_set_section.
  - destruct (loop_body_inv st line Hinv) as (st1 & Hb & Hinv1).
    rewrite Hb in Hrun. cbn [bind] in Hrun. by apply (IH st1).
Qed.

(** The entry a data line leaves: read after a header line, it is in
    the list the loop ends with, right after what the list held
    before the line. *)
Lemma data_line_on_record before line after :
  Exists (fun h => is_header (_clean_line h) = true) before ->
  is_data_line line = true ->
  exists st k l e vm st' l',
    for_lines init_state before = Ok st /\
    dependencies st !! k = Some l /\
    loop_body st line
    = Ok (mkState (<[k := l ++ [e] ]> (dependencies st)) (Some k) vm) /\
    (version e = None -> package e = _clean_line line) /\
    for_lines init_state (before ++ line :: after) = Ok st' /\
    dependencies st' !! k = Some (l ++ e :: l').
Proof.
  intros Hex Hd.
  destruct (for_lines_inv before init_state loop_inv_init) as (st & Hrun & Hinv).
  pose proof (header_sets_cursor before _ _ loop_inv_init Hrun Hex) as Ht.
  destruct (probe_inv st (_clean_line line) Hinv Ht) as (k & v & Hp & Hk & Hv).
  pose proof Hinv as (Hkeys & _). destruct (proj2 (Hkeys k) Hk) as [l Hl].
  destruct (record_entry_total _ k v l (_clean_line line) Hl Hv) as (e & He & Hver).
  assert (loop_body st line
          = Ok (mkState (<[k := l ++ [e] ]> (dependencies st)) (Some k) (Bound v)))
    as Hstep by (rewrite loop_body_data by done; by rewrite Hp).
  assert (loop_inv (mkState (<[k := l ++ [e] ]> (dependencies st)) (Some k) (Bound v)))
    as Hinv1 by by apply loop_inv_record.
  destruct (for_lines_inv after _ Hinv1) as (st' & Hrun' & _).
  destruct (for_lines_extends after _ _ k (l ++ [e]) Hrun') as [l' Hl'].
  { cbn [dependencies]. apply lookup_insert_eq. }
  exists st, k, l, e, (Bound v), st', l'.
  split; [done|]. split; [done|]. split; [done|]. split; [done|]. split.
  - rewrite for_lines_app, Hrun. cbn [bind for_lines]. rewrite Hstep. cbn [bind]. done.
  - by rewrite Hl', <- app_assoc.
Qed.

End Recorded.

(** * The claims about the classifier *)

(** C1: on the example section of the specification the parser does not
    produce the four lists the specification expects: none of the three
    header lines of the example contains a phrase the loop looks for, so
    the cursor is never set and all four lists stay empty. *)
Theorem example_section_result :
  _parse_dependencies example_section = Ok init_dependencies.
Proof. vm_compute. reflexivity. Qed.

(** The log of the repository's own test has the same header lines, with
    stamps and colours; the section is located, and again all four lists
    come out empty, where the test asserts three, one and two entries. *)
Lemma sample_log_result :
  parse_dependency_section sample_log = Ok (PList <$> init_dependencies).
Proof. vm_compute. reflexivity. Qed.

(** C3: under the not-found cursor, a data line of the shape
    [name version  (TAG BUILT LOCALLY)] switches the cursor to
    built-locally and files one entry there, but the entry is not
    (name, version): the pattern of the second probe is anchored at the
    end of the line, so it captures the last two tokens, [BUILT] and
    [LOCALLY)]. *)
Theorem built_locally_line_entry (st : pstate) (line : str) (l : list entry)
    (pre name ver tag : str) :
  current_section st = Some not_found ->
  dependencies st !! built_locally = Some l ->
  is_data_line line = true ->
  _clean_line line
  = pre ++ name ++ txt " " ++ ver ++ txt "  (" ++ tag ++ txt " BUILT LOCALLY)" ->
  nonspace name -> name <> [] -> nonspace ver -> ver <> [] ->
  nonspace tag -> tag <> [] ->
  exists vm,
    loop_body st line
    = Ok (mkState
            (<[built_locally := l ++ [mkEntry (txt "BUILT") (Some (txt "LOCALLY)"))] ]>
               (dependencies st))
            (Some built_locally) vm).
Proof.
  intros Hcs Hl Hd Hcl ? ? ? ? ? ?.
  assert (is_Some (re_search false built_locally_re (_clean_line line))) as Hbl.
  { apply search_from_is_Some. rewrite Hcl.
    exists pre, (name ++ txt " " ++ ver ++ txt "  (" ++ tag ++ txt " BUILT LOCALLY)"), [].
    eexists. split; [by rewrite app_nil_r|]. by apply built_locally_match. }
  destruct (reclassify_step st line l Hcs Hl Hd Hbl) as (m & _ & _ & ->). eauto.
Qed.

Lemma built_locally_line_entry_witness :
  m_groups <$> re_search false built_locally_re
                 (_clean_line (txt "  openexr 3.2.0  (v3 BUILT LOCALLY)"))
  = Some [txt "openexr"; txt "3.2.0"; txt "v3"] /\
  exists vm,
    loop_body (under not_found) (txt "  openexr 3.2.0  (v3 BUILT LOCALLY)")
    = Ok (mkState
            (<[built_locally := [] ++ [mkEntry (txt "BUILT") (Some (txt "LOCALLY)"))] ]>
               init_dependencies)
            (Some built_locally) vm).
Proof.
  split; [vm_compute; reflexivity|].
  apply (built_locally_line_entry (under not_found)
           (txt "  openexr 3.2.0  (v3 BUILT LOCALLY)") []
           [] (txt "openexr") (txt "3.2.0") (txt "v3")).
  - reflexivity.
  - vm_compute; reflexivity.
  - vm_compute; reflexivity.
  - vm_compute; reflexivity.
  - repeat constructor.
  - discriminate.
  - repeat constructor.
  - discriminate.
  - repeat constructor.
  - discriminate.
Defined.

(** C4: under the not-found cursor, a data line that is not of the
    built-locally shape is recorded whole, with no version; the plain
    [name version] pattern is not tried on it. *)
Theorem not_found_line_entry (st : pstate) (line : str) (l : list entry) :
  current_section st = Some not_found ->
  dependencies st !! not_found = Some l ->
  is_data_line line = true ->
  re_search false built_locally_re (_clean_line line) = None ->
  loop_body st line
  = Ok (mkState
          (<[not_found := l ++ [mkEntry (_clean_line line) None] ]> (dependencies st))
          (Some not_found) (Bound None)).
Proof.
  intros Hcs Hl Hd Hbl.
  rewrite loop_body_data by (done || by rewrite Hcs).
  destruct st as [d cs vm]. simpl in *. subst cs.
  unfold probe. simpl. rewrite Hbl.
  by apply record_entry_no_match.
Qed.

Lemma not_found_line_entry_witness :
  m_groups <$> re_search false name_version_re (_clean_line (txt "  foo 1.0"))
  = Some [txt "foo"; txt "1.0"] /\
  loop_body (under not_found) (txt "  foo 1.0")
  = Ok (mkState
          (<[not_found := [] ++ [mkEntry (_clean_line (txt "  foo 1.0")) None] ]>
             init_dependencies)
          (Some not_found) (Bound None)).
Proof.
  split; [vm_compute; reflexivity|].
  apply (not_found_line_entry (under not_found) (txt "  foo 1.0") []).
  - reflexivity.
  - vm_compute; reflexivity.
  - vm_compute; reflexivity.
  - vm_compute; reflexivity.
Defined.

(** C5: after a line of the built-locally shape has switched the cursor,
    every data line that follows, until the next header line, appends to
    the built-locally list the two groups of the match the switching
    line left in [version_match]; blank lines and lines with the word
    "dependencies" in between add nothing and leave the match alone.
    The variable is not assigned again, so all these data lines record
    the same pair as the switching line, whatever they contain. *)
Theorem stale_match_recorded (st : pstate) (line0 : str) (lines : list str)
    (l : list entry) :
  current_section st = Some not_found ->
  dependencies st !! built_locally = Some l ->
  is_data_line line0 = true ->
  is_Some (re_search false built_locally_re (_clean_line line0)) ->
  Forall (fun ln => is_header (_clean_line ln) = false) lines ->
  exists m g1 g2,
    re_search false name_version_re (_clean_line line0) = Some m /\
    m_groups m = [g1; g2] /\
    for_lines st (line0 :: lines)
    = Ok (mkState
            (<[built_locally :=
                 l ++ replicate (S (length (List.filter is_data_line lines)))
                        (mkEntry g1 (Some g2)) ]>
               (dependencies st))
            (Some built_locally) (Bound (Some m))).
Proof.
  intros Hcs Hl Hd Hbl Hlines.
  destruct (reclassify_step st line0 l Hcs Hl Hd Hbl) as (m & Hm & Hg & Hstep).
  exists m, (txt "BUILT"), (txt "LOCALLY)"). repeat split; [done..|].
  cbn [for_lines]. rewrite Hstep. cbn [bind].
  rewrite (built_locally_lines m (txt "BUILT") (txt "LOCALLY)") lines _
             (l ++ [mkEntry (txt "BUILT") (Some (txt "LOCALLY)"))]));
    [|done|apply lookup_insert_eq|done].
  rewrite insert_insert_eq. by rewrite <- app_assoc.
Qed.

Lemma stale_match_recorded_witness :
  exists m g1 g2,
    re_search false name_version_re
      (_clean_line (txt "openexr 3.2.0  (v3 BUILT LOCALLY)")) = Some m /\
    m_groups m = [g1; g2] /\
    for_lines (under not_found)
      (txt "openexr 3.2.0  (v3 BUILT LOCALLY)"
         :: [txt "zlib 1.2"; txt ""; txt "Optional dependencies follow";
             txt "fmt"; txt "   "; txt "png 1.6 (old)"])
    = Ok (mkState
            (<[built_locally :=
                 [] ++ replicate
                         (S (length
                               (List.filter is_data_line
                                  [txt "zlib 1.2"; txt "";
                                   txt "Optional dependencies follow";
                                   txt "fmt"; txt "   "; txt "png 1.6 (old)"])))
                         (mkEntry g1 (Some g2)) ]>
               (dependencies (under not_found)))
            (Some built_locally) (Bound (Some m))).
Proof.
  apply (stale_match_recorded (under not_found)
           (txt "openexr 3.2.0  (v3 BUILT LOCALLY)")
           [txt "zlib 1.2"; txt ""; txt "Optional dependencies follow";
            txt "fmt"; txt "   "; txt "png 1.6 (old)"] []).
  - reflexivity.
  - vm_compute; reflexivity.
  - vm_compute; reflexivity.
  - vm_compute. eexists. reflexivity.
  - repeat constructor.
Defined.

(** C7: once a line of the built-locally shape has been recognised, the
    cursor is built-locally after any number of further lines, as long
    as none of them is a header line. *)
Theorem cursor_stays_built_locally (st : pstate) (line0 : str) (lines : list str) :
  current_section st = Some not_found ->
  is_Some (dependencies st !! built_locally) ->
  is_data_line line0 = true ->
  is_Some (re_search false built_locally_re (_clean_line line0)) ->
  Forall (fun ln => is_header (_clean_line ln) = false) lines ->
  exists st',
    for_lines st (line0 :: lines) = Ok st' /\
    current_section st' = Some built_locally.
Proof.
  intros Hcs [l Hl] Hd Hbl Hlines.
  destruct (reclassify_step st line0 l Hcs Hl Hd Hbl) as (m & _ & Hg & Hstep).
  cbn [for_lines]. rewrite Hstep. cbn [bind].
  destruct (built_locally_cursor m (txt "BUILT") (txt "LOCALLY)") lines
              (<[built_locally := l ++ [mkEntry (txt "BUILT") (Some (txt "LOCALLY)"))] ]>
                 (dependencies st)))
    as [d' ->]; [done| |done|].
  - rewrite lookup_insert_eq. eauto.
  - eauto.
Qed.

Lemma cursor_stays_built_locally_witness :
  exists st',
    for_lines (under not_found)
      (txt "openexr 3.2.0  (v3 BUILT LOCALLY)"
       :: [txt "zlib 1.2"; txt ""; txt "Dependencies not found:"; txt "fmt 10"])
    = Ok st' /\
    current_section st' = Some built_locally.
Proof.
  apply (cursor_stays_built_locally (under not_found)).
  - reflexivity.
  - vm_compute. eexists. reflexivity.
  - vm_compute; reflexivity.
  - vm_compute. eexists. reflexivity.
  - repeat constructor.
Defined.

(** C8: under the found-externally cursor, a data line with two or more
    white-space separated tokens is recorded as (second-to-last token,
    last token), and a data line with one token as (that token, no
    version). *)
Theorem found_externally_line_entry (st : pstate) (line : str) (l : list entry) :
  current_section st = Some found_externally ->
  dependencies st !! found_externally = Some l ->
  is_data_line line = true ->
  (forall ts a b,
      words (_clean_line line) = ts ++ [a; b] ->
      exists vm,
        loop_body st line
        = Ok (mkState
                (<[found_externally := l ++ [mkEntry a (Some b)] ]> (dependencies st))
                (Some found_externally) vm)) /\
  (forall a,
      words (_clean_line line) = [a] ->
      exists vm,
        loop_body st line
        = Ok (mkState
                (<[found_externally := l ++ [mkEntry a None] ]> (dependencies st))
                (Some found_externally) vm)).
Proof.
  intros Hcs Hl Hd.
  rewrite loop_body_data by (done || by rewrite Hcs).
  destruct st as [d cs vm]. simpl in *. subst cs.
  replace (probe _ _)
    with (mkState d (Some found_externally)
            (Bound (re_search false found_externally_re (_clean_line line))))
    by done.
  pose proof (clean_line_stripped line) as Hs.
  split.
  - intros ts a b Hw.
    destruct (found_externally_search _ ts a b Hs Hw) as (m & Hm & Hg).
    rewrite Hm. eexists. by apply (record_entry_match _ _ _ m).
  - intros a Hw.
    apply words_single in Hw as (Ha & Hn & _); [|done].
    rewrite found_externally_search_token by (by rewrite Ha).
    eexists. rewrite <- Ha. by apply record_entry_no_match.
Qed.

Lemma found_externally_line_entry_witness :
  (exists vm,
      loop_body (under found_externally) (txt "  extra cmake 3.28.1")
      = Ok (mkState
              (<[found_externally := [] ++ [mkEntry (txt "cmake") (Some (txt "3.28.1"))] ]>
                 init_dependencies)
              (Some found_externally) vm)) /\
  (exists vm,
      loop_body (under found_externally) (txt "  cmake")
      = Ok (mkState
              (<[found_externally := [] ++ [mkEntry (txt "cmake") None] ]>
                 init_dependencies)
              (Some found_externally) vm)).
Proof.
  split.
  - apply (proj1 (found_externally_line_entry (under found_externally)
                    (txt "  extra cmake 3.28.1") []
                    eq_refl ltac:(vm_compute; reflexivity)
                    ltac:(vm_compute; reflexivity))
             [txt "extra"]).
    vm_compute; reflexivity.
  - apply (proj2 (found_externally_line_entry (under found_externally)
                    (txt "  cmake") []
                    eq_refl ltac:(vm_compute; reflexivity)
                    ltac:(vm_compute; reflexivity))).
    vm_compute; reflexivity.
Defined.

(** C10: parsing never raises, and every data line read with the cursor
    set leaves an entry in what is returned.  [_parse_dependencies]
    returns, for every section, a dictionary with the four lists, which
    together hold as many entries as the section has data lines after
    its first header line; [parse_dependency_section] returns, for every
    log, one of the two errors or what [_parse_dependencies] returns on
    a piece of the log; and a data line that comes after a header line
    appends exactly one entry to the list of the cursor, the whole
    cleaned line when the entry has no version, and this entry is in
    the dictionary returned for the section, right after what the list
    held before the line. *)
Theorem parse_total :
  (forall section, exists d,
      _parse_dependencies section = Ok d /\
      (forall k, is_Some (d !! k) <->
                 k ∈ [found_externally; too_old; built_locally; not_found]) /\
      entries_total d = length (recorded_lines (split_nl section))) /\
  (forall log_content, exists r,
      parse_dependency_section log_content = Ok r /\
      (r = start_not_found \/ r = end_not_found \/
       exists i j d,
         _parse_dependencies (strip (slice log_content i j)) = Ok d /\
         r = PList <$> d)) /\
  (forall section before line after,
      split_nl section = before ++ line :: after ->
      Exists (fun h => is_header (_clean_line h) = true) before ->
      is_data_line line = true ->
      exists st k l e vm d l',
        for_lines init_state before = Ok st /\
        dependencies st !! k = Some l /\
        loop_body st line
        = Ok (mkState (<[k := l ++ [e] ]> (dependencies st)) (Some k) vm) /\
        (version e = None -> package e = _clean_line line) /\
        _parse_dependencies section = Ok d /\
        d !! k = Some (l ++ e :: l')).
Proof.
  assert (forall section, exists d,
      _parse_dependencies section = Ok d /\
      (forall k, is_Some (d !! k) <->
                 k ∈ [found_externally; too_old; built_locally; not_found]) /\
      entries_total d = length (recorded_lines (split_nl section))) as Hp.
  { intros section. unfold _parse_dependencies.
    destruct (for_lines_count (split_nl section) init_state loop_inv_init)
      as (st & -> & (Hkeys & _) & Hcount).
    cbn [bind]. exists (dependencies st). split; [done|]. split; [done|].
    rewrite Hcount. reflexivity. }
  split; [done|]. split.
  - intros log_content. unfold parse_dependency_section.
    destruct (re_search true start_pattern log_content) as [m|]; [|eauto].
    destruct (re_search false end_pattern _) as [m0|]; [|eauto].
    cbv zeta.
    destruct (Hp (strip (slice log_content (m_end m) (m_end m + m_start m0))))
      as (d & Hd & _). rewrite Hd. cbn [bind].
    eexists. split; [done|]. right; right. eauto.
  - intros section before line after Hsplit Hex Hd.
    destruct (data_line_on_record before line after Hex Hd)
      as (st & k & l & e & vm & st' & l' & Hrun & Hl & Hstep & Hver & Hrun' & Hl').
    exists st, k, l, e, vm, (dependencies st'), l'.
    repeat split; try done.
    unfold _parse_dependencies. by rewrite Hsplit, Hrun'.
Qed.

Lemma parse_total_witness :
  exists st k l e vm d l',
    for_lines init_state
      [txt "The following dependencies were found but were too old:"] = Ok st /\
    dependencies st !! k = Some l /\
    loop_body st (txt "  -- ?? ")
    = Ok (mkState (<[k := l ++ [e] ]> (dependencies st)) (Some k) vm) /\
    (version e = None -> package e = _clean_line (txt "  -- ?? ")) /\
    _parse_dependencies
      (unlines ["The following dependencies were found but were too old:";
                "  -- ?? "; "zlib (1.2 < 1.3)"]%string) = Ok d /\
    d !! k = Some (l ++ e :: l').
Proof.
  apply (proj2 (proj2 parse_total)
           (unlines ["The following dependencies were found but were too old:";
                     "  -- ?? "; "zlib (1.2 < 1.3)"]%string)
           [txt "The following dependencies were found but were too old:"]
           (txt "  -- ?? ") [txt "zlib (1.2 < 1.3)"]).
  - vm_compute; reflexivity.
  - constructor. vm_compute; reflexivity.
  - vm_compute; reflexivity.
Defined.

(** * The claims about the section locator *)

(** Counterexample for C2: the opening banner without any escape sequence,
    and the same banner in another colour, are not found. *)
Lemma undecorated_banner_not_found :
  parse_dependency_section plain_log = Ok start_not_found /\
  parse_dependency_section green_log = Ok start_not_found.
Proof. split; vm_compute; reflexivity. Qed.

(** C2 (as amended): the start boundary is found in every log that holds
    the three banner lines decorated as the pattern spells them, each a
    stamp, the colour sequence [ESC[1;33m], the content and the reset
    sequence [ESC[m]; the call then does not fail with the start-not-found
    error. *)
Theorem decorated_banner_found (pre t post : str) :
  is_opening_banner t ->
  is_Some (re_search true start_pattern (pre ++ t ++ post)) /\
  parse_dependency_section (pre ++ t ++ post) <> Ok start_not_found.
Proof.
  intros Hb.
  assert (is_Some (re_search true start_pattern (pre ++ t ++ post))) as Hs.
  { apply occurs_opening_banner. by exists pre, t, post. }
  split; [done|]. unfold parse_dependency_section. destruct Hs as [m ->].
  destruct (re_search false end_pattern _) as [m0|].
  - destruct (_parse_dependencies _) as [d|e]; cbn [bind]; [|done].
    intros H. assert (PList <$> d = start_not_found) as H' by congruence.
    by apply error_ne_lists in H'.
  - intros H. assert (end_not_found = start_not_found) as H' by congruence.
    apply (f_equal (fun r => r !! "error")) in H'.
    unfold end_not_found, start_not_found in H'.
    by rewrite !lookup_singleton_eq in H'.
Qed.

Lemma decorated_banner_found_witness :
  is_Some (re_search true start_pattern (txt "build output" ++ banner1 ++ body1)) /\
  parse_dependency_section (txt "build output" ++ banner1 ++ body1)
  <> Ok start_not_found.
Proof.
  apply (decorated_banner_found (txt "build output") banner1 body1).
  apply opening_banner_check. vm_compute. reflexivity.
Defined.

(** Counterexample for C6: the opening banner without escape sequences,
    and the same banner in another colour, followed by a text in which
    no row of [=] occurs, give the start-not-found error, not the
    end-not-found error. *)
Lemma undecorated_banner_no_end_error :
  contains rule body1 = false /\
  parse_dependency_section plain_open_log = Ok start_not_found /\
  parse_dependency_section green_open_log = Ok start_not_found /\
  (Ok start_not_found : res (gmap string pyval)) <> Ok end_not_found.
Proof.
  split; [vm_compute; reflexivity|].
  split; [vm_compute; reflexivity|].
  split; [vm_compute; reflexivity|].
  intros H.
  assert (start_not_found = end_not_found) as H' by congruence.
  apply (f_equal (fun r => r !! "error")) in H'.
  unfold end_not_found, start_not_found in H'.
  by rewrite !lookup_singleton_eq in H'.
Qed.

(** C6 (as amended): with the banner and the rule line decorated as the
    patterns of the source spell them, each a stamp, the colour sequence
    [ESC[1;33m], the content and the reset sequence [ESC[m]: a log in
    which this opening banner does not occur gives the start-not-found
    error, also when it holds the banner without decoration or in
    another colour; a log whose first opening banner is followed by no
    such rule line gives the end-not-found error; and a dictionary that
    is returned either holds the error alone or holds the four lists and
    no error. *)
Theorem section_not_found :
  (forall log_content,
      ~ occurs is_opening_banner log_content ->
      parse_dependency_section log_content = Ok start_not_found) /\
  (forall pre t post,
      is_opening_banner t ->
      (forall pre' t' post',
          pre ++ t ++ post = pre' ++ t' ++ post' ->
          is_opening_banner t' -> length pre <= length pre') ->
      ~ occurs is_rule_line post ->
      parse_dependency_section (pre ++ t ++ post) = Ok end_not_found) /\
  (forall log_content r,
      parse_dependency_section log_content = Ok r ->
      (exists msg, r = {[ "error" := PStr msg ]}) \/
      (r !! "error" = None /\
       forall k, k ∈ [found_externally; too_old; built_locally; not_found] ->
                 exists l, r !! k = Some (PList l))).
Proof.
  split; [|split].
  - intros log_content Hn. unfold parse_dependency_section.
    destruct (re_search true start_pattern log_content) eqn:E; [|done].
    exfalso. apply Hn, occurs_opening_banner. eauto.
  - intros pre t post Hb Hfirst Hn. unfold parse_dependency_section.
    destruct (start_search_first pre t post Hb Hfirst) as (m & -> & ->).
    rewrite app_assoc, <- length_app, drop_app_length.
    destruct (re_search false end_pattern post) eqn:E; [|done].
    exfalso. apply Hn, occurs_rule_line. eauto.
  - intros log_content r [->|[->|(d & -> & Hd)]]%parse_result.
    + left. by eexists.
    + left. by eexists.
    + right. split.
      * rewrite lookup_fmap.
        destruct (d !! "error") eqn:E; [|done].
        assert (is_Some (d !! "error")) as Hk%Hd by eauto.
        rewrite !elem_of_cons in Hk.
        destruct Hk as [|[|[|[|[]%elem_of_nil]]]]; done.
      * intros k [l Hl]%Hd. exists l. by rewrite lookup_fmap, Hl.
Qed.

Lemma section_not_found_witness :
  parse_dependency_section (txt "build output without a report") = Ok start_not_found /\
  parse_dependency_section ([] ++ banner1 ++ body1) = Ok end_not_found /\
  ((exists msg, start_not_found = {[ "error" := PStr msg ]}) \/
   (start_not_found !! "error" = None /\
    forall k, k ∈ [found_externally; too_old; built_locally; not_found] ->
              exists l, start_not_found !! k = Some (PList l))).
Proof.
  destruct section_not_found as (H1 & H2 & H3).
  split; [|split].
  - apply H1. rewrite occurs_opening_banner. vm_compute. by intros [? ?].
  - apply (H2 [] banner1 body1).
    + apply opening_banner_check. vm_compute. reflexivity.
    + intros pre' t' post' _ _. simpl. lia.
    + rewrite occurs_rule_line. vm_compute. by intros [? ?].
  - apply (H3 plain_log). vm_compute. reflexivity.
Defined.

(** * The claims about the line cleaner *)

(** Counterexample for C9: one pass removes one bullet only, so cleaning
    the line [-- -- x] twice does not give what cleaning it once gives. *)
Lemma clean_line_not_idempotent :
  _clean_line (txt "-- -- x") = txt "-- x" /\
  _clean_line (_clean_line (txt "-- -- x")) = txt "x" /\
  _clean_line (_clean_line (txt "-- -- x")) <> _clean_line (txt "-- -- x").
Proof. repeat split; vm_compute; done. Qed.

(** C9 (as amended): cleaning a cleaned line returns it unchanged when
    the cleaned line is free of decoration, that is, when it does not
    begin with a stamp or with a bullet and holds no escape sequence. *)
Theorem clean_line_idempotent_on_clean (s : str) :
  ~ begins is_stamp (_clean_line s) ->
  ~ occurs is_escape (_clean_line s) ->
  ~ begins is_bullet (_clean_line s) ->
  _clean_line (_clean_line s) = _clean_line s.
Proof.
  intros Hst He Hb. apply clean_line_fixed; [apply clean_line_stripped|done..].
Qed.

Lemma clean_line_idempotent_on_clean_witness :
  _clean_line decorated_line = txt "cmake 3.28.1" /\
  _clean_line (_clean_line decorated_line) = _clean_line decorated_line.
Proof.
  split; [vm_compute; reflexivity|].
  apply (clean_line_idempotent_on_clean decorated_line).
  - apply begins_stamp_check. vm_compute. reflexivity.
  - apply occurs_escape_check. vm_compute. reflexivity.
  - apply begins_bullet_check. vm_compute. reflexivity.
Defined.
(** * Further properties of the classifier *)

(** X1: a section in which no line holds one of the three header phrases
    yields four empty lists, whatever else its lines contain. *)
Theorem no_header_no_entries (section : str) :
  Forall (fun ln => is_header (_clean_line ln) = false) (split_nl section) ->
  _parse_dependencies section = Ok init_dependencies.
Proof.
  intros H. unfold _parse_dependencies.
  by rewrite (for_lines_no_header _ init_state eq_refl H).
Qed.

Lemma no_header_no_entries_witness :
  _parse_dependencies (unlines ["cmake 3.28.1"; "Dependencies found:"; "  boost 1.84.0"])
  = Ok init_dependencies.
Proof.
  apply no_header_no_entries.
  let l := eval vm_compute in
    (split_nl (unlines ["cmake 3.28.1"; "Dependencies found:"; "  boost 1.84.0"])) in
  change (split_nl (unlines ["cmake 3.28.1"; "Dependencies found:"; "  boost 1.84.0"]))
    with l.
  repeat (constructor; [vm_compute; reflexivity|]). constructor.
Defined.

(** X2: the loop only ever appends: whatever list a key held before a
    run of lines is a prefix of the list it holds after, so no entry is
    dropped, changed or reordered, also when a header comes again. *)
Theorem entries_only_appended (st st' : pstate) (lines : list str)
    (k : string) (l : list entry) :
  for_lines st lines = Ok st' ->
  dependencies st !! k = Some l ->
  exists l', dependencies st' !! k = Some (l ++ l').
Proof. apply for_lines_extends. Qed.

Lemma entries_only_appended_witness :
  match for_lines (under found_externally)
          [txt "  boost 1.84.0"; txt "The following dependencies were not found:";
           txt "The following dependencies found externally:"; txt "  cmake 3.28.1"]
  with
  | Ok st' => exists l', dependencies st' !! found_externally = Some ([] ++ l')
  | Raise _ => False
  end.
Proof.
  destruct (for_lines (under found_externally) _) as [st'|e] eqn:E.
  - apply (entries_only_appended (under found_externally) st' _ found_externally [] E).
    vm_compute. reflexivity.
  - vm_compute in E. discriminate.
Defined.

(** X3: a header phrase is recognised anywhere in the cleaned line and in
    any mix of upper and lower case; the line then moves the cursor and
    is not put on record.  The three phrases are tried in the order
    found externally, too old, not found. *)
Theorem header_phrase_any_case (st : pstate) (line pre h post : str) :
  _clean_line line = pre ++ h ++ post ->
  (lower h = txt "the following dependencies found externally:" ->
   loop_body st line = Ok (set_section st found_externally)) /\
  (lower h = txt "the following dependencies were found but were too old:" ->
   contains (txt "the following dependencies found externally:")
     (lower (_clean_line line)) = false ->
   loop_body st line = Ok (set_section st too_old)) /\
  (lower h = txt "the following dependencies were not found" ->
   contains (txt "the following dependencies found externally:")
     (lower (_clean_line line)) = false ->
   contains (txt "the following dependencies were found but were too old:")
     (lower (_clean_line line)) = false ->
   loop_body st line = Ok (set_section st not_found)).
Proof.
  intros Hcl. unfold loop_body. cbv zeta. repeat split.
  - intros Hh. rewrite Hcl.
    rewrite is_empty_app_false by (intros ->; discriminate).
    by rewrite contains_lower.
  - intros Hh H1. rewrite H1. rewrite Hcl.
    rewrite is_empty_app_false by (intros ->; discriminate).
    by rewrite contains_lower.
  - intros Hh H1 H2. rewrite H1, H2. rewrite Hcl.
    rewrite is_empty_app_false by (intros ->; discriminate).
    by rewrite contains_lower.
Qed.

Lemma header_phrase_any_case_witness :
  loop_body (under not_found)
    (txt "-- THE FOLLOWING Dependencies Found Externally: (3)")
  = Ok (set_section (under not_found) found_externally) /\
  loop_body (under not_found)
    (txt "The following dependencies were found but were TOO OLD:")
  = Ok (set_section (under not_found) too_old) /\
  loop_body (under found_externally)
    (txt "note: the following dependencies were not found anywhere")
  = Ok (set_section (under found_externally) not_found).
Proof.
  split; [|split].
  - refine (proj1 (header_phrase_any_case (under not_found)
                     (txt "-- THE FOLLOWING Dependencies Found Externally: (3)") []
                     (txt "THE FOLLOWING Dependencies Found Externally:") (txt " (3)")
                     _) _).
    + vm_compute. reflexivity.
    + vm_compute. reflexivity.
  - refine (proj1 (proj2 (header_phrase_any_case (under not_found)
                     (txt "The following dependencies were found but were TOO OLD:") []
                     (txt "The following dependencies were found but were TOO OLD:") []
                     _)) _ _).
    + vm_compute. reflexivity.
    + vm_compute. reflexivity.
    + vm_compute. reflexivity.
  - refine (proj2 (proj2 (header_phrase_any_case (under found_externally)
                     (txt "note: the following dependencies were not found anywhere")
                     (txt "note: ") (txt "the following dependencies were not found")
                     (txt " anywhere") _)) _ _ _).
    + vm_compute. reflexivity.
    + vm_compute. reflexivity.
    + vm_compute. reflexivity.
    + vm_compute. reflexivity.
Defined.

(** X4: every entry [_parse_dependencies] returns has a package name that
    is not empty, and a version that is not empty when it has one. *)
Theorem entries_well_formed (section : str) (d : gmap string (list entry))
    (k : string) (l : list entry) (e : entry) :
  _parse_dependencies section = Ok d ->
  d !! k = Some l -> e ∈ l -> entry_ok e.
Proof.
  unfold _parse_dependencies. intros H Hl He.
  destruct (for_lines init_state (split_nl section)) as [st|] eqn:E; [|done].
  simpl in H. injection H as <-.
  destruct (entries_inv_run _ _ _ entries_inv_init E) as [Hent _].
  by eapply Hent.
Qed.

Lemma entries_well_formed_witness :
  entry_ok (mkEntry (txt "??") None).
Proof.
  apply (entries_well_formed
           (unlines ["The following dependencies were found but were too old:";
                     "  -- ?? "])
           (<[too_old := [mkEntry (txt "??") None] ]> init_dependencies)
           too_old [mkEntry (txt "??") None]).
  - vm_compute. reflexivity.
  - vm_compute. reflexivity.
  - repeat constructor.
Defined.

(** X5: under the too-old cursor, a data line that reads
    [name (note)], with one token before the parenthesis and no closing
    parenthesis inside it, is recorded as (name, note). *)
Theorem too_old_line_entry (st : pstate) (line : str) (l : list entry)
    (name note : str) :
  current_section st = Some too_old ->
  dependencies st !! too_old = Some l ->
  is_data_line line = true ->
  _clean_line line = name ++ txt " (" ++ note ++ txt ")" ->
  nonspace name -> name <> [] ->
  Forall (fun c => c <> ")"%char) note -> note <> [] ->
  exists vm,
    loop_body st line
    = Ok (mkState (<[too_old := l ++ [mkEntry name (Some note)] ]> (dependencies st))
            (Some too_old) vm).
Proof.
  intros Hcs Hl Hd Hcl Hn Hnne Hno Hnone.
  rewrite loop_body_data by (done || by rewrite Hcs).
  destruct st as [d cs vm].
  cbn [dependencies current_section version_match] in *. subst cs.
  replace (probe _ _)
    with (mkState d (Some too_old)
            (Bound (re_search false too_old_re (_clean_line line))))
    by done.
  pose proof (too_old_match None name note Hn Hnne Hno Hnone) as HM.
  apply (match_here_det false _ _ _ _ _ []) in HM; [|done].
  rewrite app_nil_r in HM. apply search_at_start in HM.
  rewrite Hcl, HM. eexists.
  eapply record_entry_match; [reflexivity|reflexivity|done].
Qed.

Lemma too_old_line_entry_witness :
  exists vm,
    loop_body (under too_old) (txt "--   Robinmap (found 1.2, needed 1.3)")
    = Ok (mkState
            (<[too_old := [] ++ [mkEntry (txt "Robinmap")
                                   (Some (txt "found 1.2, needed 1.3"))] ]>
               (dependencies (under too_old)))
            (Some too_old) vm).
Proof.
  apply (too_old_line_entry (under too_old) _ []).
  - reflexivity.
  - vm_compute. reflexivity.
  - vm_compute. reflexivity.
  - vm_compute. reflexivity.
  - repeat constructor.
  - discriminate.
  - repeat (constructor; [discriminate|]). constructor.
  - discriminate.
Defined.

(** X6: under the too-old cursor, a data line that does not end in a
    closing parenthesis is recorded whole, with no version. *)
Theorem too_old_line_fallback (st : pstate) (line : str) (l : list entry) :
  current_section st = Some too_old ->
  dependencies st !! too_old = Some l ->
  is_data_line line = true ->
  last (_clean_line line) <> Some ")"%char ->
  loop_body st line
  = Ok (mkState (<[too_old := l ++ [mkEntry (_clean_line line) None] ]> (dependencies st))
          (Some too_old) (Bound None)).
Proof.
  intros Hcs Hl Hd Hlast.
  rewrite loop_body_data by (done || by rewrite Hcs).
  destruct st as [d cs vm]. simpl in *. subst cs.
  replace (probe _ _)
    with (mkState d (Some too_old)
            (Bound (re_search false too_old_re (_clean_line line))))
    by done.
  rewrite too_old_search_none by (done || apply clean_line_stripped).
  by apply record_entry_no_match.
Qed.

Lemma too_old_line_fallback_witness :
  loop_body (under too_old) (txt "  Robinmap 1.2 (old")
  = Ok (mkState
          (<[too_old := [] ++ [mkEntry (_clean_line (txt "  Robinmap 1.2 (old")) None] ]>
             (dependencies (under too_old)))
          (Some too_old) (Bound None)).
Proof.
  apply (too_old_line_fallback (under too_old) _ []).
  - reflexivity.
  - vm_compute. reflexivity.
  - vm_compute. reflexivity.
  - vm_compute. discriminate.
Defined.

(** * Further properties of the line cleaner *)

(** X7: cleaning only deletes characters: the cleaned line is a
    subsequence of the raw line, so never longer, and it has no white
    space at either end. *)
Theorem clean_line_only_deletes (line : str) :
  _clean_line line `sublist_of` line /\
  length (_clean_line line) <= length line /\
  stripped (_clean_line line).
Proof.
  assert (_clean_line line `sublist_of` line) as H.
  { unfold _clean_line, re_sub_empty. cbv zeta.
    etransitivity; [apply strip_sublist|].
    do 6 (etransitivity; [apply sub_go_sublist|]).
    apply strip_sublist. }
  split; [done|]. split; [by apply sublist_length|apply clean_line_stripped].
Qed.

(** X8: a log line made of a stamp, an escape sequence, a text and an
    escape sequence, with white space before and after, cleans to the
    text stripped of white space, when the text holds no ESC character
    and does not begin with two [-]. *)
Theorem clean_decorated_line (ws1 ts e1 t e2 ws2 : str) :
  spaces ws1 -> spaces ws2 ->
  is_stamp ts -> is_escape e1 -> is_escape e2 ->
  ESC ∉ t -> starts_with (txt "--") t = false ->
  _clean_line (ws1 ++ ts ++ e1 ++ t ++ e2 ++ ws2) = strip t.
Proof.
  intros Hw1 Hw2 Hts He1 He2 Ht Hb.
  unfold _clean_line. cbv zeta.
  replace (ws1 ++ ts ++ e1 ++ t ++ e2 ++ ws2)
    with (ws1 ++ (ts ++ e1 ++ t ++ e2) ++ ws2)
    by (by rewrite <- !app_assoc).
  rewrite strip_pad; [|done|done|].
  - rewrite stamp_removed by done.
    rewrite escapes_removed by done.
    rewrite escape_free_rest by done.
    by rewrite no_bullet.
  - destruct (stamp_head ts Hts) as (a & r & -> & Ha).
    destruct (escape_last e2 He2) as (r2 & f & -> & Hf).
    apply stripped_intro.
    + right. eexists a, _. split; [reflexivity|done].
    + right. exists ((a :: r) ++ e1 ++ t ++ r2), f.
      split; [by rewrite <- !app_assoc|done].
Qed.

Lemma clean_decorated_line_witness :
  _clean_line (txt "  " ++ stamp1 ++ (ESC :: txt "[1;37m") ++ txt "  cmake 3.28.1 "
               ++ (ESC :: txt "[m") ++ txt " ")
  = strip (txt "  cmake 3.28.1 ").
Proof.
  apply clean_decorated_line.
  - repeat constructor.
  - repeat constructor.
  - exists (txt "2025"), (txt "07"), (txt "04"), (txt "08"), (txt "10"), (txt "03"),
      (txt "4957678").
    repeat split; try reflexivity; try discriminate; by repeat constructor.
  - exists (txt "1;37"), "m"%char. repeat split; by repeat constructor.
  - exists [], "m"%char. repeat split; by repeat constructor.
  - intros H. simpl in H.
    repeat (apply elem_of_cons in H as [H|H]; [discriminate|]).
    by apply elem_of_nil in H.
  - reflexivity.
Defined.

(** X9: a log line made of a stamp and a text without colours, with
    white space before and after, cleans to the text stripped of white
    space, when the text is not blank, holds no ESC character and does
    not begin with two [-]. *)
Theorem clean_stamped_line (ws1 ts t ws2 : str) :
  spaces ws1 -> spaces ws2 -> is_stamp ts ->
  strip t <> [] -> ESC ∉ t -> starts_with (txt "--") t = false ->
  _clean_line (ws1 ++ ts ++ t ++ ws2) = strip t.
Proof.
  intros Hw1 Hw2 Hts Hne Ht Hb.
  pose proof (strip_nonempty_rstrip t Hne) as Hr.
  assert (strip (ws1 ++ ts ++ t ++ ws2) = ts ++ rstrip t) as Hstrip.
  { unfold strip. rewrite lstrip_spaces_app by done.
    destruct (stamp_head ts Hts) as (a & r & -> & Ha).
    change ((a :: r) ++ t ++ ws2) with (a :: (r ++ t ++ ws2)).
    rewrite lstrip_id by done.
    change (a :: (r ++ t ++ ws2)) with ((a :: r) ++ t ++ ws2).
    rewrite app_assoc, rstrip_app_spaces by done.
    by apply rstrip_app_keep. }
  assert (ESC ∉ rstrip t) as Ht'.
  { intros He. apply Ht. eapply elem_of_sublist; [exact He|apply rstrip_sublist]. }
  unfold _clean_line. cbv zeta. rewrite Hstrip.
  rewrite stamp_removed by done.
  rewrite escape_free_all by done.
  rewrite no_bullet by (by apply starts_with_rstrip).
  apply strip_rstrip.
Qed.

Lemma clean_stamped_line_witness :
  _clean_line (txt " " ++ stamp1 ++ txt "   boost 1.84.0  " ++ txt "  ")
  = strip (txt "   boost 1.84.0  ").
Proof.
  apply clean_stamped_line.
  - repeat constructor.
  - repeat constructor.
  - exists (txt "2025"), (txt "07"), (txt "04"), (txt "08"), (txt "10"), (txt "03"),
      (txt "4957678").
    repeat split; try reflexivity; try discriminate; by repeat constructor.
  - vm_compute. discriminate.
  - intros H. simpl in H.
    repeat (apply elem_of_cons in H as [H|H]; [discriminate|]).
    by apply elem_of_nil in H.
  - reflexivity.
Defined.

(** X10: a line that begins with a bullet of two or more [-] loses the
    bullet and the white space after it: with a stripped text that holds
    no ESC character and does not begin with [-], the line cleans to the
    text; a bullet alone cleans to the empty line. *)
Theorem clean_bullet_line (ws1 dashes w m ws2 : str) :
  spaces ws1 -> spaces ws2 ->
  Forall (fun a => a = "-"%char) dashes -> dashes <> [] -> spaces w ->
  stripped m -> ESC ∉ m -> starts_with (txt "-") m = false ->
  _clean_line (ws1 ++ txt "-" ++ dashes ++ w ++ m ++ ws2) = m.
Proof.
  intros Hw1 Hw2 Hd Hdne Hw Hm He Hb.
  assert (ESC ∉ dashes) as Hed.
  { intros H. rewrite Forall_forall in Hd. by apply Hd in H. }
  assert (match m with [] => True | b :: _ => isspace b = false end) as Hmh.
  { destruct m as [|b m']; [done|]. by apply stripped_head in Hm. }
  assert (match m with [] => True | b :: _ => b <> "-"%char end) as Hmd.
  { destruct m as [|b m']; [done|]. simpl in Hb. intros ->. done. }
  unfold _clean_line. cbv zeta.
  destruct m as [|b m'] eqn:Em.
  - replace (ws1 ++ txt "-" ++ dashes ++ w ++ [] ++ ws2)
      with (ws1 ++ (txt "-" ++ dashes) ++ (w ++ ws2))
      by (by rewrite <- !app_assoc).
    rewrite strip_pad; [|done|by apply Forall_app| ].
    + change (txt "-" ++ dashes) with ("-"%char :: dashes).
      rewrite no_stamp_dash. rewrite escape_free_all.
      * pose proof (bullet_removed dashes [] [] Hd Hdne ltac:(constructor) I I)
          as Hb0.
        rewrite !app_nil_r in Hb0.
        change ("-"%char :: dashes) with (txt "-" ++ dashes). by rewrite Hb0.
      * apply not_elem_of_cons. split; [discriminate|done].
    + apply stripped_intro.
      * right. eexists "-"%char, _. split; [reflexivity|done].
      * right. destruct dashes as [|c ds _] using rev_ind; [done|].
        apply Forall_app in Hd as [_ Hc]. inversion Hc; subst.
        exists (txt "-" ++ ds), "-"%char. split; [by rewrite <- app_assoc|done].
  - rewrite <- Em in *.
    replace (ws1 ++ txt "-" ++ dashes ++ w ++ m ++ ws2)
      with (ws1 ++ (txt "-" ++ dashes ++ w ++ m) ++ ws2)
      by (by rewrite <- !app_assoc).
    rewrite strip_pad; [|done|done| ].
    + change (txt "-" ++ dashes ++ w ++ m) with ("-"%char :: (dashes ++ w ++ m)).
      rewrite no_stamp_dash. rewrite escape_free_all.
      * change ("-"%char :: (dashes ++ w ++ m)) with (txt "-" ++ dashes ++ w ++ m).
        rewrite bullet_removed; try done.
        -- rewrite Em. destruct w as [|c w']; [exact Hmd|].
           inversion Hw; subst. simpl. by intros ->.
        -- by rewrite Em.
      * apply not_elem_of_cons. split; [discriminate|].
        rewrite !not_elem_of_app. repeat split; try done. by apply spaces_no_esc.
    + apply stripped_intro.
      * right. eexists "-"%char, _. split; [reflexivity|done].
      * right. destruct (nonempty_snoc m) as (ms & c & Hms); [by rewrite Em|].
        exists (txt "-" ++ dashes ++ w ++ ms), c. rewrite Hms in Hm |- *.
        split; [by rewrite <- !app_assoc|]. by apply stripped_last in Hm.
Qed.

Lemma clean_bullet_line_witness :
  _clean_line (txt " " ++ txt "-" ++ txt "-" ++ txt "     " ++ txt "cmake 3.28.1" ++ txt "  ")
  = txt "cmake 3.28.1".
Proof.
  apply clean_bullet_line.
  - repeat constructor.
  - repeat constructor.
  - repeat constructor.
  - discriminate.
  - repeat constructor.
  - vm_compute. reflexivity.
  - intros H. simpl in H.
    repeat (apply elem_of_cons in H as [H|H]; [discriminate|]).
    by apply elem_of_nil in H.
  - reflexivity.
Defined.

(** X11: a line that holds a stamp and nothing else does not clean to
    the empty line: stripping takes the final space of the stamp, after
    which the stamp pattern no longer matches, so the line keeps the
    stamp without that space.  Such a line is therefore not skipped as
    blank. *)
Theorem clean_bare_stamp (ts : str) :
  is_stamp ts ->
  _clean_line ts ++ [" "%char] = ts /\ _clean_line ts <> [].
Proof.
  intros Hts. destruct (stamp_split ts Hts) as (x & Hx & Hs & Hne).
  assert (_clean_line ts = x) as ->; [|by rewrite Hx].
  unfold _clean_line. cbv zeta.
  assert (strip ts = x) as ->.
  { rewrite Hx. rewrite <- (app_nil_l (x ++ [" "%char])).
    apply strip_pad; [constructor|by repeat constructor|done]. }
  rewrite (stamp_cut_no_match ts x) by done.
  assert (ESC ∉ x) as He.
  { intros H. apply (stamp_no_esc ts Hts). rewrite Hx. apply elem_of_app. by left. }
  rewrite escape_free_all by done.
  rewrite no_bullet; [exact Hs|].
  destruct (stamp_digit ts Hts) as (a & r & Hr & Ha).
  destruct x as [|c x']; [done|]. rewrite Hx in Hr. simpl in Hr.
  injection Hr as -> _. by apply starts_with_digit.
Qed.

Lemma clean_bare_stamp_witness :
  _clean_line stamp1 ++ [" "%char] = stamp1 /\ _clean_line stamp1 <> [].
Proof.
  apply clean_bare_stamp.
  exists (txt "2025"), (txt "07"), (txt "04"), (txt "08"), (txt "10"), (txt "03"),
    (txt "4957678").
  repeat split; try reflexivity; try discriminate; by repeat constructor.
Defined.

(** * Further properties of the section locator *)

(** X12: in a log whose first opening banner is followed by a text and
    then by its first rule line, the section that is parsed is that
    text, stripped of white space; what is before the banner and after
    the rule line plays no part in the result. *)
Theorem section_between_banners (pre t body r post : str) :
  is_opening_banner t ->
  (forall pre' t' post',
      pre ++ t ++ body ++ r ++ post = pre' ++ t' ++ post' ->
      is_opening_banner t' -> length pre <= length pre') ->
  is_rule_line r ->
  (forall a x b,
      body ++ r ++ post = a ++ x ++ b -> is_rule_line x -> length body <= length a) ->
  parse_dependency_section (pre ++ t ++ body ++ r ++ post)
  = (deps <- _parse_dependencies (strip body) ;; Ok (PList <$> deps)).
Proof.
  intros Hb Hfirst Hr Hrfirst. unfold parse_dependency_section.
  destruct (start_search_first pre t (body ++ r ++ post) Hb Hfirst) as (m & -> & ->).
  rewrite app_assoc, <- length_app, drop_app_length.
  destruct (end_search_first body r post Hr Hrfirst) as (m0 & -> & ->).
  unfold slice. rewrite Nat.add_comm, Nat.add_sub, drop_app_length.
  by rewrite take_app_length.
Qed.

Lemma section_between_banners_witness :
  parse_dependency_section (txt "build output" ++ banner1 ++ body1 ++ rule1 ++ txt " more")
  = (deps <- _parse_dependencies (strip body1) ;; Ok (PList <$> deps)).
Proof.
  assert (re_search true start_pattern
            (txt "build output" ++ banner1 ++ body1 ++ rule1 ++ txt " more")
          = Some (mkMatch 12 314 [])) as Hs by (vm_compute; reflexivity).
  assert (re_search false end_pattern (body1 ++ rule1 ++ txt " more")
          = Some (mkMatch 61 176 [])) as He by (vm_compute; reflexivity).
  apply section_between_banners.
  - apply opening_banner_check. vm_compute. reflexivity.
  - intros pre' t' post' Heq Ht'.
    exact (opening_banner_leftmost _ _ Hs pre' t' post' Heq Ht').
  - apply rule_line_check. vm_compute. reflexivity.
  - intros a x b Heq Hx.
    exact (rule_line_leftmost _ _ He a x b Heq Hx).
Defined.

(** * Properties of [parse_github_url] *)

(** X13: for a GitHub address whose path is [/owner/repo], with any
    number of slashes in front and with nothing, a slash or further
    segments behind, the method returns (owner, repo); owner and repo
    are any non-empty names without a slash. *)
Theorem parse_github_url_owner_repo (slashes owner repo tail : str) :
  Forall (fun a => a = "/"%char) slashes ->
  owner <> [] -> "/"%char ∉ owner ->
  repo <> [] -> "/"%char ∉ repo ->
  (tail = [] \/ exists t, tail = "/"%char :: t) ->
  parse_github_url
    (mkParsed (txt "github.com") (slashes ++ owner ++ txt "/" ++ repo ++ tail))
  = Returns (owner, repo).
Proof.
  intros Hsl Hone Ho Hrne Hr Htail.
  rewrite parse_github_url_unfold by done. cbn [path].
  destruct owner as [|a owner]; [done|].
  apply not_elem_of_cons in Ho as [Ha Ho].
  destruct (nonempty_snoc repo Hrne) as (rs & b & ->).
  apply not_elem_of_app in Hr as [Hrs Hb].
  apply not_elem_of_cons in Hb as [Hb _].
  assert (strip_chr "/" (slashes ++ (a :: owner) ++ txt "/" ++ (rs ++ [b]) ++ tail)
          = (a :: owner) ++ "/"%char :: (rs ++ [b]) ++ rstrip_chr "/" tail) as ->.
  { unfold strip_chr. rewrite lstrip_chr_app by done.
    assert ((a :: owner) ++ txt "/" ++ (rs ++ [b]) ++ tail
            = ((a :: owner) ++ "/"%char :: rs) ++ b :: tail) as ->
      by (rewrite <- !app_assoc; reflexivity).
    replace (lstrip_chr "/" (((a :: owner) ++ "/"%char :: rs) ++ b :: tail))
      with (((a :: owner) ++ "/"%char :: rs) ++ b :: tail)
      by (symmetry; apply lstrip_chr_id; congruence).
    rewrite rstrip_chr_keep by congruence.
    rewrite <- !app_assoc. reflexivity. }
  rewrite str_split_app by (apply not_elem_of_cons; split; congruence).
  assert (rstrip_chr "/" tail = [] \/ exists t, rstrip_chr "/" tail = "/"%char :: t)
    as [->|[t ->]].
  { destruct Htail as [->|[t ->]]; [by left|].
    destruct (rstrip_chr_split "/" ("/"%char :: t)) as (w & Hw & _).
    destruct (rstrip_chr "/" ("/"%char :: t)) as [|d r]; [by left|].
    right. simpl in Hw. injection Hw as <- _. by exists r. }
  - rewrite app_nil_r. rewrite str_split_nosep; [done|].
    apply not_elem_of_app. split; [done|]. apply not_elem_of_cons. split; [congruence|].
    apply not_elem_of_nil.
  - rewrite str_split_app; [done|].
    apply not_elem_of_app. split; [done|]. apply not_elem_of_cons. split; [congruence|].
    apply not_elem_of_nil.
Qed.

Lemma parse_github_url_owner_repo_witness :
  parse_github_url
    (mkParsed (txt "github.com")
       (txt "/" ++ txt "AcademySoftwareFoundation" ++ txt "/" ++ txt "OpenImageIO"
        ++ txt "/tree/main/"))
  = Returns (txt "AcademySoftwareFoundation", txt "OpenImageIO").
Proof.
  apply parse_github_url_owner_repo.
  - repeat constructor.
  - discriminate.
  - intros H. simpl in H.
    repeat (apply elem_of_cons in H as [H|H]; [discriminate|]).
    by apply elem_of_nil in H.
  - discriminate.
  - intros H. simpl in H.
    repeat (apply elem_of_cons in H as [H|H]; [discriminate|]).
    by apply elem_of_nil in H.
  - right. by eexists.
Defined.

(** X14: what the method returns is read off the path stripped of
    slashes at both ends: the owner is its first segment, never empty,
    and the repository is its second segment, which is empty when two
    slashes follow the owner; neither holds a slash, and only GitHub
    addresses get so far. *)
Theorem parse_github_url_returned (parsed : ParseResult) (owner repo : str) :
  parse_github_url parsed = Returns (owner, repo) ->
  netloc parsed = txt "github.com" /\
  owner <> [] /\ ("/"%char ∉ owner) /\ ("/"%char ∉ repo) /\
  exists rest,
    strip_chr "/" (path parsed) = owner ++ "/"%char :: repo ++ rest /\
    (rest = [] \/ exists t, rest = "/"%char :: t).
Proof.
  intros H.
  assert (netloc parsed = txt "github.com") as Hn.
  { unfold parse_github_url in H.
    destruct (bool_decide (netloc parsed = txt "github.com")) eqn:E; [|done].
    by apply bool_decide_eq_true in E. }
  split; [done|]. rewrite parse_github_url_unfold in H by done.
  destruct (str_split "/" (strip_chr "/" (path parsed))) as [|o [|r ps]] eqn:E;
    try done.
  injection H as -> ->.
  apply str_split_cons in E as (Ho & [[? _]|(s' & Hs & Hs')]); [done|].
  apply str_split_cons in Hs' as (Hr & Hrest).
  split.
  { intros ->. simpl in Hs. by apply strip_chr_head in Hs. }
  split; [done|]. split; [done|].
  destruct Hrest as [[_ ->]|(s'' & -> & _)].
  - exists []. rewrite app_nil_r. split; [done|by left].
  - exists ("/"%char :: s''). split; [done|]. right. by eexists.
Qed.

Lemma parse_github_url_returned_witness :
  netloc (mkParsed (txt "github.com") (txt "//a//b/")) = txt "github.com" /\
  txt "a" <> [] /\ ("/"%char ∉ txt "a") /\ ("/"%char ∉ (@nil ascii)) /\
  exists rest,
    strip_chr "/" (path (mkParsed (txt "github.com") (txt "//a//b/")))
    = txt "a" ++ "/"%char :: [] ++ rest /\
    (rest = [] \/ exists t, rest = "/"%char :: t).
Proof.
  apply (parse_github_url_returned (mkParsed (txt "github.com") (txt "//a//b/"))
           (txt "a") []).
  vm_compute. reflexivity.
Defined.

(** X15: the method raises the first error for every address that is
    not on [github.com], whatever its path, and the second error for a
    GitHub address whose path, stripped of slashes at both ends, holds no
    slash (an empty path, or an owner alone); in every other case it
    returns, and it never fails on an index. *)
Theorem parse_github_url_errors (parsed : ParseResult) :
  (netloc parsed <> txt "github.com" ->
   parse_github_url parsed = ValueError "URL must be a GitHub repository URL") /\
  (netloc parsed = txt "github.com" ->
   "/"%char ∉ strip_chr "/" (path parsed) ->
   parse_github_url parsed = ValueError "Invalid GitHub repository URL") /\
  (netloc parsed = txt "github.com" ->
   "/"%char ∈ strip_chr "/" (path parsed) ->
   exists owner repo, parse_github_url parsed = Returns (owner, repo)).
Proof.
  split; [|split].
  - intros Hn. unfold parse_github_url. by rewrite bool_decide_eq_false_2.
  - intros Hn Hs. rewrite parse_github_url_unfold by done.
    by rewrite str_split_nosep.
  - intros Hn Hs. rewrite parse_github_url_unfold by done.
    destruct (str_split "/" (strip_chr "/" (path parsed))) as [|o [|r ps]] eqn:E.
    + by apply str_split_nonempty in E.
    + exfalso. assert (length (str_split "/" (strip_chr "/" (path parsed))) < 2) as Hl
        by (rewrite E; simpl; lia).
      by apply str_split_short in Hl.
    + eauto.
Qed.

Lemma parse_github_url_errors_witness :
  parse_github_url (mkParsed (txt "gitlab.com") (txt "/a/b"))
  = ValueError "URL must be a GitHub repository URL" /\
  parse_github_url (mkParsed (txt "github.com") (txt "/owner/"))
  = ValueError "Invalid GitHub repository URL" /\
  exists owner repo,
    parse_github_url (mkParsed (txt "github.com") (txt "/owner/repo/"))
    = Returns (owner, repo).
Proof.
  split; [|split].
  - apply (proj1 (parse_github_url_errors (mkParsed (txt "gitlab.com") (txt "/a/b")))).
    discriminate.
  - apply (proj1 (proj2 (parse_github_url_errors
                           (mkParsed (txt "github.com") (txt "/owner/"))))).
    + reflexivity.
    + vm_compute. intros H.
      repeat (apply elem_of_cons in H as [H|H]; [discriminate|]).
      by apply elem_of_nil in H.
  - apply (proj2 (proj2 (parse_github_url_errors
                           (mkParsed (txt "github.com") (txt "/owner/repo/"))))).
    + reflexivity.
    + replace (strip_chr "/" (path (mkParsed (txt "github.com") (txt "/owner/repo/"))))
        with (txt "owner/repo") by (vm_compute; reflexivity).
      simpl. rewrite !elem_of_cons. do 5 right. by left.
Defined.

(** ** [get_successful_jobs] and the job [get_build_logs] reads *)

(** X16: every entry [get_successful_jobs] returns comes from a job of a
    run that was created on the target date with conclusion "success",
    in a workflow of the requested name, and carries that workflow's
    name and the run's and the job's attributes. *)
Theorem successful_jobs_sound workflows target_date name e :
  e ∈ get_successful_jobs workflows target_date name ->
  exists ws w runs run jobs job,
    workflows = Some ws /\ w ∈ ws /\ w_name w = name /\
    w_get_runs w = Some runs /\ run ∈ runs /\
    date (r_created_at run) = target_date /\
    r_conclusion run = Some (txt "success") /\
    r_jobs run = Some jobs /\ job ∈ jobs /\
    e = job_entry_of w run job /\ workflow_name e = name.
Proof.
  destruct workflows as [ws|]; [|by intros ?%elem_of_nil].
  unfold get_successful_jobs.
  intros (w & Hw & He)%list_elem_of_In%in_flat_map.
  apply list_elem_of_In in Hw, He.
  destruct (bool_decide (w_name w = name)) eqn:En; [|by apply elem_of_nil in He].
  apply bool_decide_eq_true in En. cbn [negb] in He.
  destruct (w_get_runs w) as [runs|] eqn:Er; [|by apply elem_of_nil in He].
  apply scan_runs_elem in He as (run & Hrun & [Hd Hc]%counts_spec & He).
  apply jobs_of_elem in He as (jobs & job & Hj & Hjob & ->).
  exists ws, w, runs, run, jobs, job. by repeat split.
Qed.

Lemma successful_jobs_sound_witness :
  exists ws w runs run jobs job,
    Some [mkWorkflow (txt "CI")
            (Some [mkRun 7 (txt "push") (mkDatetime 738000 (txt "2021-07-30T10:00:00"))
                     (Some (txt "success")) (txt "main")
                     (Some [mkJob 70 (txt "Build") (Some (txt "success"))])])]
    = Some ws /\ w ∈ ws /\ w_name w = txt "CI" /\
    w_get_runs w = Some runs /\ run ∈ runs /\
    date (r_created_at run) = 738000%Z /\
    r_conclusion run = Some (txt "success") /\
    r_jobs run = Some jobs /\ job ∈ jobs /\
    mkJobEntry 7 (txt "push") (txt "CI") (txt "2021-07-30T10:00:00") (txt "main")
      70 (txt "Build") (Some (txt "success"))
    = job_entry_of w run job /\
    workflow_name
      (mkJobEntry 7 (txt "push") (txt "CI") (txt "2021-07-30T10:00:00") (txt "main")
         70 (txt "Build") (Some (txt "success"))) = txt "CI".
Proof.
  apply successful_jobs_sound. vm_compute. by left.
Defined.

(** X17: when every workflow lists its runs newest first, stopping at
    the first older run loses nothing: [get_successful_jobs] returns,
    in listing order, the jobs of every successful run of the target
    date in every workflow of the requested name. *)
Theorem successful_jobs_newest_first ws target_date name :
  Forall (fun w => newest_first (runs_of w)) ws ->
  get_successful_jobs (Some ws) target_date name =
  flat_map
    (fun w =>
       if bool_decide (w_name w = name) then
         flat_map
           (fun run => if counts target_date run then jobs_of w run else [])
           (runs_of w)
       else [])
    ws.
Proof.
  intros Hs. unfold get_successful_jobs.
  induction Hs as [|w ws Hw _ IH]; [done|].
  cbn [flat_map]. rewrite IH. f_equal.
  destruct (bool_decide (w_name w = name)); [|done]. cbn [negb].
  unfold runs_of in *. destruct (w_get_runs w) as [runs|]; [|done].
  by apply scan_runs_newest_first.
Qed.

Lemma successful_jobs_newest_first_witness :
  get_successful_jobs
    (Some [mkWorkflow (txt "CI")
             (Some [mkRun 9 (txt "push") (mkDatetime 738001 (txt "d3"))
                      (Some (txt "success")) (txt "main")
                      (Some [mkJob 90 (txt "Build") (Some (txt "success"))]);
                    mkRun 8 (txt "push") (mkDatetime 738000 (txt "d2"))
                      (Some (txt "failure")) (txt "main")
                      (Some [mkJob 80 (txt "Build") (Some (txt "failure"))]);
                    mkRun 7 (txt "push") (mkDatetime 738000 (txt "d1"))
                      (Some (txt "success")) (txt "main")
                      (Some [mkJob 70 (txt "Build") (Some (txt "success"));
                             mkJob 71 (txt "Test") None])])])
    738000 (txt "CI")
  = [mkJobEntry 7 (txt "push") (txt "CI") (txt "d1") (txt "main")
       70 (txt "Build") (Some (txt "success"));
     mkJobEntry 7 (txt "push") (txt "CI") (txt "d1") (txt "main")
       71 (txt "Test") None].
Proof.
  rewrite successful_jobs_newest_first.
  - vm_compute. reflexivity.
  - repeat constructor; cbn; lia.
Defined.

(** X18: a run older than the target date ends the reading of its
    workflow's runs: whatever is listed after it, successful runs of
    the target date included, adds nothing to the result. *)
Theorem older_run_ends_listing ws1 ws2 n rs1 old rs2 target_date name :
  (date (r_created_at old) < target_date)%Z ->
  get_successful_jobs
    (Some (ws1 ++ mkWorkflow n (Some (rs1 ++ old :: rs2)) :: ws2))
    target_date name =
  get_successful_jobs
    (Some (ws1 ++ mkWorkflow n (Some rs1) :: ws2)) target_date name.
Proof.
  intros Hold. rewrite !get_successful_jobs_app. f_equal.
  unfold get_successful_jobs. cbn [flat_map w_name w_get_runs]. f_equal.
  destruct (negb _); [done|].
  rewrite scan_runs_break by done. by apply scan_runs_name.
Qed.

Lemma older_run_ends_listing_witness :
  get_successful_jobs
    (Some ([] ++ mkWorkflow (txt "CI")
             (Some ([] ++ mkRun 6 (txt "push") (mkDatetime 737999 (txt "d0"))
                            (Some (txt "success")) (txt "main") (Some [])
                       :: [mkRun 7 (txt "push") (mkDatetime 738000 (txt "d1"))
                             (Some (txt "success")) (txt "main")
                             (Some [mkJob 70 (txt "Build") (Some (txt "success"))])]))
           :: []))
    738000 (txt "CI") = [].
Proof.
  rewrite older_run_ends_listing.
  - vm_compute. reflexivity.
  - cbn. lia.
Defined.

(** X19: with a job id that is not 0, [get_build_logs] reads the first
    job of the run that has this id, and no job at all when none has:
    it does not fall back on a build job or on the first job. *)
Theorem job_chosen_by_id i jobs :
  i <> 0%Z ->
  match target_job (Some i) jobs with
  | Some job =>
      exists pre post,
        jobs = pre ++ job :: post /\ j_id job = i /\
        Forall (fun x => j_id x <> i) pre
  | None => Forall (fun x => j_id x <> i) jobs
  end.
Proof.
  intros Hi. unfold target_job, given.
  apply Z.eqb_neq in Hi. rewrite Hi. cbn [negb].
  assert (forall l,
    Forall (fun x => bool_decide (Some (j_id x) = Some i) = false) l ->
    Forall (fun x => j_id x <> i) l) as Himp.
  { intros l Hl. eapply Forall_impl; [exact Hl|].
    intros x Hx%bool_decide_eq_false. congruence. }
  destruct (first_job _ jobs) as [job|] eqn:E.
  - apply first_job_Some in E as (pre & post & -> & Hp & Hpre).
    apply bool_decide_eq_true in Hp. exists pre, post.
    split; [done|]. split; [congruence|]. by apply Himp.
  - apply first_job_None in E. by apply Himp.
Qed.

Lemma job_chosen_by_id_witness :
  Forall (fun x => j_id x <> 5%Z)
    [mkJob 70 (txt "Build") None; mkJob 71 (txt "Test") None].
Proof.
  apply (job_chosen_by_id 5 [mkJob 70 (txt "Build") None; mkJob 71 (txt "Test") None]).
  lia.
Defined.

(** X20: without a job id, and also with the job id 0, [get_build_logs]
    reads the first job whose name has "build" in it in any case; when
    no job has such a name it reads the first job of the run, and no
    job only when the run has none. *)
Theorem job_chosen_without_id job_id jobs :
  job_id = None \/ job_id = Some 0%Z ->
  (forall pre job post,
     jobs = pre ++ job :: post -> build_job job ->
     Forall (fun x => ~ build_job x) pre ->
     target_job job_id jobs = Some job) /\
  (Forall (fun x => ~ build_job x) jobs ->
   target_job job_id jobs = head jobs) /\
  (target_job job_id jobs = None <-> jobs = []).
Proof.
  intros Hid.
  assert (given job_id = false) as Hg by (by destruct Hid as [->| ->]).
  unfold target_job. rewrite Hg.
  assert (forall l,
    Forall (fun x => ~ build_job x) l <->
    Forall (fun x => contains (txt "build") (lower (j_name x)) = false) l) as Hnb.
  { intros l. rewrite !Forall_forall.
    split; intros H x Hx; apply not_build_job_spec; by apply H. }
  split; [|split].
  - intros pre job post -> Hb Hpre.
    replace (first_job _ _) with (Some job); [done|]. symmetry.
    apply first_job_Some. exists pre, post. split; [done|].
    split; [by apply build_job_spec | by apply Hnb].
  - intros Hno%Hnb%first_job_None. rewrite Hno. by destruct jobs.
  - destruct (first_job _ jobs) as [job|] eqn:E.
    + split; [done|]. intros ->. done.
    + destruct jobs; [done|]. split; done.
Qed.

Lemma job_chosen_without_id_witness :
  target_job (Some 0%Z)
    [mkJob 0 (txt "Lint") None; mkJob 71 (txt "Linux BUILD gcc") None;
     mkJob 72 (txt "build") None]
  = Some (mkJob 71 (txt "Linux BUILD gcc") None).
Proof.
  refine (proj1 (job_chosen_without_id (Some 0%Z)
                   [mkJob 0 (txt "Lint") None; mkJob 71 (txt "Linux BUILD gcc") None;
                    mkJob 72 (txt "build") None] _)
            [mkJob 0 (txt "Lint") None] (mkJob 71 (txt "Linux BUILD gcc") None)
            [mkJob 72 (txt "build") None] _ _ _).
  - by right.
  - reflexivity.
  - exists (txt "Linux "), (txt "BUILD"), (txt " gcc"). split; reflexivity.
  - constructor; [|constructor].
    apply not_build_job_spec. vm_compute. reflexivity.
Defined.
